(** * Spectral features: STFT / ISTFT wrappers and spectrogram scaling

    A shallow embedding of [src/features/spectral_features.py].

    - Python floats and numpy [float64] cells are IEEE-754 binary64 numbers,
      i.e. Rocq's primitive [float]; their specification [Prim2SF] is used
      whenever a property has to be proved for all inputs.
    - Python exceptions are values of [result]; the one logging side effect
      of [istft] is an explicit list of log records.
    - [scipy.signal] and the transcendental part of numpy ([hypot],
      [arctan2], [unwrap]) are not code of this repository: they are
      parameters (classes) of the development. *)

From Stdlib Require Import String Ascii Decimal DecimalString DecimalPos DecimalZ.
From Stdlib Require Import ZArith Bool List Floats Reals Lia Lra.
Import ListNotations.

Set Implicit Arguments.

(* ================================================================== *)
(** * Python run-time: exceptions and the error monad                  *)
(* ================================================================== *)

Inductive exn : Type :=
| ValueError
| OverflowError.

Inductive result (A : Type) : Type :=
| Ok (a : A)
| Raise (e : exn).

Arguments Ok {A} a.
Arguments Raise {A} e.

Definition bind {A B : Type} (r : result A) (k : A -> result B) : result B :=
  match r with
  | Ok a => k a
  | Raise e => Raise e
  end.

Declare Scope py_scope.
Delimit Scope py_scope with py.
Notation "x <- e ;; k" := (bind e (fun x => k))
  (at level 61, e at next level, right associativity) : py_scope.
Notation "' p <- e ;; k" := (bind e (fun p => k))
  (at level 61, p pattern, e at next level, right associativity) : py_scope.
Open Scope py_scope.

(* ================================================================== *)
(** * Python floats                                                    *)
(* ================================================================== *)

Module PyFloat.

(** The integer [m * 2^e] cut at the binary point; [Z.shiftl] with a
    negative amount is a right shift, that is a division rounding towards
    minus infinity. *)
Definition scaled (m e : Z) : Z := Z.shiftl m e.

(** [int(x)] on a float: truncation towards zero; [ValueError] on a NaN
    and [OverflowError] on an infinity. *)
Definition SFint (x : spec_float) : result Z :=
  match x with
  | S754_nan => Raise ValueError
  | S754_infinity _ => Raise OverflowError
  | S754_zero _ => Ok 0%Z
  | S754_finite s m e => Ok (cond_Zopp s (scaled (Zpos m) e))
  end.

(** [math.floor(x)]: rounding towards minus infinity, with the same two
    exceptions. *)
Definition SFfloor (x : spec_float) : result Z :=
  match x with
  | S754_nan => Raise ValueError
  | S754_infinity _ => Raise OverflowError
  | S754_zero _ => Ok 0%Z
  | S754_finite s m e => Ok (scaled (cond_Zopp s (Zpos m)) e)
  end.

Definition int (x : float) : result Z := SFint (Prim2SF x).
Definition floor (x : float) : result Z := SFfloor (Prim2SF x).

(** [0 < x], the reading of "positive" for a float; a NaN is not. *)
Definition positive (x : float) : Prop := PrimFloat.ltb 0%float x = true.

End PyFloat.

(** numpy [complex128] cells. *)
Record complex (F : Type) : Type := Complex { re : F; im : F }.

(* ================================================================== *)
(** * Arrays                                                           *)
(* ================================================================== *)

(** A one-dimensional array is a list; [x.shape[0]] is its length. *)
Definition shape0 {A : Type} (x : list A) : Z := Z.of_nat (length x).

(** A two-dimensional array keeps its shape next to its rows, so that an
    array without rows still has a column count, as in numpy. *)
Record ndarray (A : Type) : Type := NdArray {
  nrows : nat;
  ncols : nat;
  rows : list (list A)
}.

Definition wf_ndarray {A : Type} (a : ndarray A) : Prop :=
  length (rows a) = nrows a /\
  Forall (fun r => length r = ncols a) (rows a).

(** The cells in row-major order, as a reduction over the whole array sees
    them. *)
Definition flat {A : Type} (a : ndarray A) : list A := concat (rows a).

Definition column {A : Type} (j : nat) (rs : list (list A)) : list A :=
  flat_map (fun r => match nth_error r j with
                     | Some v => [v]
                     | None => []
                     end) rs.

(** [a.T] *)
Definition T {A : Type} (a : ndarray A) : ndarray A :=
  {| nrows := ncols a;
     ncols := nrows a;
     rows := map (fun j => column j (rows a)) (seq 0 (ncols a)) |}.

(** Cell-wise application of a function. *)
Definition amap {A B : Type} (f : A -> B) (a : ndarray A) : ndarray B :=
  {| nrows := nrows a; ncols := ncols a; rows := map (map f) (rows a) |}.

(** Application of a function to every lane of the last axis. *)
Definition lanes {A B : Type} (f : list A -> list B) (a : ndarray A) : ndarray B :=
  {| nrows := nrows a; ncols := ncols a; rows := map f (rows a) |}.

(** [X.shape[1]] *)
Definition shape1 {A : Type} (a : ndarray A) : Z := Z.of_nat (ncols a).

Definition same_shape {A B : Type} (a : ndarray A) (b : ndarray B) : Prop :=
  nrows a = nrows b /\ ncols a = ncols b /\
  Forall2 (fun r s => length r = length s) (rows a) (rows b).

(* ================================================================== *)
(** * The logging side effect                                          *)
(* ================================================================== *)

Record log_record : Type := LogRecord { levelname : string; msg : string }.

(** A computation that may raise and that appends records to the log. *)
Definition logged (A : Type) : Type := (result A * list log_record)%type.

Definition lift {A : Type} (r : result A) : logged A := (r, []).

Definition lbind {A B : Type} (m : logged A) (k : A -> logged B) : logged B :=
  match fst m with
  | Ok a => (fst (k a), snd m ++ snd (k a))
  | Raise e => (Raise e, snd m)
  end.

Notation "x <~ e ;; k" := (lbind e (fun x => k))
  (at level 61, e at next level, right associativity) : py_scope.
Notation "' p <~ e ;; k" := (lbind e (fun p => k))
  (at level 61, p pattern, e at next level, right associativity) : py_scope.

(** [str(n)] for a Python int. *)
Definition str_int (n : Z) : string := NilZero.string_of_int (Z.to_int n).

(** [logging.getLogger(__name__).warn(text)] *)
Definition logger_warn (text : string) : logged unit :=
  (Ok tt, [{| levelname := "WARNING"; msg := text |}]).

(* ================================================================== *)
(** * scipy.signal                                                     *)
(* ================================================================== *)

(** The keyword arguments of one call of [scipy.signal.stft]. *)
Record stft_call : Type := StftCall {
  st_x : list float;
  st_fs : float;
  st_window : string;
  st_nperseg : Z;
  st_noverlap : Z;
  st_nfft : option Z;
  st_return_onesided : bool
}.

(** The keyword arguments of one call of [scipy.signal.istft]. *)
Record istft_call : Type := IstftCall {
  is_Zxx : ndarray (complex float);
  is_fs : float;
  is_window : string;
  is_nperseg : Z;
  is_nfft : option Z;
  is_noverlap : Z;
  is_input_onesided : bool
}.

(** The two transforms of the library. [signal_stft] returns
    [(f, t, Zxx)] with [Zxx] frequency-major; [signal_istft] returns
    [(t, x)]. The samples of [x] are kept complex: they are so when the
    input is two-sided. *)
Class SciPySignal : Type := {
  signal_stft : stft_call -> result (list float * list float * ndarray (complex float));
  signal_istft : istft_call -> result (list float * list (complex float))
}.

(** Number of DFT points of a call: [nfft], or [nperseg] when it is [None]. *)
Definition fft_points (nperseg : Z) (nfft : option Z) : Z :=
  match nfft with
  | Some n => n
  | None => nperseg
  end.

Definition bin_count (onesided : bool) (n : Z) : Z :=
  if onesided then (n / 2 + 1)%Z else n.

(** Modelled from the spec: the numeric library itself is not part of the
    sources; of its forward transform the specification states that the
    frequency bin count is the FFT size for a two-sided spectrum and
    FFT size/2 + 1 for a one-sided one. The result is a well-formed array
    with one row per frequency bin. *)
Definition stft_bins_law (S : SciPySignal) : Prop :=
  forall c f t Zxx,
    signal_stft c = Ok (f, t, Zxx) ->
    wf_ndarray Zxx /\
    Z.of_nat (nrows Zxx) =
      bin_count (st_return_onesided c) (fft_points (st_nperseg c) (st_nfft c)).

(* ================================================================== *)
(** * stft and istft                                                   *)
(* ================================================================== *)

Section Transforms.

Context {S : SciPySignal}.

Definition stft (x : list float) (fs framesz hop : float)
           (two_sided : bool) (fft_size : option Z)
  : result (ndarray (complex float)) :=
  framesamp <- PyFloat.int (framesz * fs) ;;
  hopsamp <- PyFloat.int (hop * fs) ;;
  let overlap_samp := (framesamp - hopsamp)%Z in
  '(_, _, X) <- signal_stft {| st_x := x;
                               st_fs := fs;
                               st_window := "hann";
                               st_nperseg := framesamp;
                               st_noverlap := overlap_samp;
                               st_nfft := fft_size;
                               st_return_onesided := negb two_sided |} ;;
  Ok (T X).

Definition recon_text (actual recon_size : Z) : string :=
  ("Size of reconstruction (" ++ str_int actual
     ++ ") does not match value of deprecated recon_size parameter ("
     ++ str_int recon_size ++ ").")%string.

Definition istft (X : ndarray (complex float)) (fs : float)
           (recon_size : option Z) (hop : float)
           (two_sided : bool) (fft_size : option Z)
  : logged (list (complex float)) :=
  let framesamp := if two_sided then shape1 X else (2 * (shape1 X - 1))%Z in
  hopsamp <~ lift (PyFloat.int (hop * fs)) ;;
  let overlap_samp := (framesamp - hopsamp)%Z in
  '(_, x) <~ lift (signal_istft {| is_Zxx := T X;
                                   is_fs := fs;
                                   is_window := "hann";
                                   is_nperseg := framesamp;
                                   is_nfft := fft_size;
                                   is_noverlap := overlap_samp;
                                   is_input_onesided := negb two_sided |}) ;;
  _ <~ match recon_size with
       | Some r =>
           if negb (r =? shape0 x)%Z
           then logger_warn (recon_text (shape0 x) r)
           else lift (Ok tt)
       | None => lift (Ok tt)
       end ;;
  lift (Ok x).

End Transforms.

(* ================================================================== *)
(** * numpy, over a scalar type                                        *)
(* ================================================================== *)

(** The scalar operations behind the array expressions of
    [scale_spectrogram]. [np_maximum] and [np_minimum] are the binary
    operations folded by [ndarray.max] and [ndarray.min]; [np_unwrap1]
    unwraps one lane of the last axis. *)
Class Numpy (F : Type) : Type := {
  np_hypot : F -> F -> F;
  np_arctan2 : F -> F -> F;
  np_unwrap1 : list F -> list F;
  np_sqrt : F -> F;
  np_subtract : F -> F -> F;
  np_divide : F -> F -> F;
  np_maximum : F -> F -> F;
  np_minimum : F -> F -> F;
  np_zero : F;
  np_add : F -> F -> F;
  np_multiply : F -> F -> F
}.

Section Scale.

Context {F : Type} {N : Numpy F}.

(** [np.abs] of a complex array. *)
Definition np_abs (a : ndarray (complex F)) : ndarray F :=
  amap (fun z => np_hypot (re z) (im z)) a.

(** [np.angle] *)
Definition np_angle (a : ndarray (complex F)) : ndarray F :=
  amap (fun z => np_arctan2 (im z) (re z)) a.

(** [np.unwrap], along the last axis. *)
Definition np_unwrap (a : ndarray F) : ndarray F := lanes np_unwrap1 a.

(** A reduction without identity raises on an array without cells. *)
Definition reduce (f : F -> F -> F) (l : list F) : result F :=
  match l with
  | [] => Raise ValueError
  | v :: vs => Ok (fold_left f vs v)
  end.

Definition amax (a : ndarray F) : result F := reduce np_maximum (flat a).
Definition amin (a : ndarray F) : result F := reduce np_minimum (flat a).

Definition scale_spectrogram (spectrogram : ndarray (complex F))
  : result (ndarray F * ndarray F) :=
  let mag_spec := np_abs spectrogram in
  let phases := np_unwrap (np_angle spectrogram) in
  let mag_spec := amap np_sqrt mag_spec in
  M <- amax mag_spec ;;
  m <- amin mag_spec ;;
  Ok (amap (fun v => np_divide (np_subtract v m) (np_subtract M m)) mag_spec,
      phases).

(** [c * X] for a real scalar [c] and a complex array [X]: the scalar is
    cast to the complex [c + 0j] and the cells are multiplied as complex
    numbers. *)
Definition cmul (c : F) (z : complex F) : complex F :=
  {| re := np_subtract (np_multiply c (re z)) (np_multiply np_zero (im z));
     im := np_add (np_multiply c (im z)) (np_multiply np_zero (re z)) |}.

Definition scalar_times (c : F) (X : ndarray (complex F)) : ndarray (complex F) :=
  amap (cmul c) X.

(** The square-root-compressed magnitude, the array whose extrema are
    taken. *)
Definition compressed (spectrogram : ndarray (complex F)) : ndarray F :=
  amap np_sqrt (np_abs spectrogram).

End Scale.

(* ================================================================== *)
(** * The binary64 instance                                            *)
(* ================================================================== *)

(** What numpy takes from the C library and from its own loops beyond the
    IEEE-754 operations: [hypot] for the modulus, [atan2] for the angle and
    the unwrapping of one lane. *)
Record libm : Type := Libm {
  hypot : float -> float -> float;
  atan2 : float -> float -> float;
  unwrap : list float -> list float
}.

(** [np.maximum(a, b)] is [a] when [a >= b] or [a] is a NaN, else [b]; so a
    NaN is propagated by the reduction. [np.minimum] is symmetric. *)
Definition fmaximum (a b : float) : float :=
  if PrimFloat.leb b a || PrimFloat.is_nan a then a else b.

Definition fminimum (a b : float) : float :=
  if PrimFloat.leb a b || PrimFloat.is_nan a then a else b.

Definition float64 (L : libm) : Numpy float := {|
  np_hypot := hypot L;
  np_arctan2 := atan2 L;
  np_unwrap1 := unwrap L;
  np_sqrt := PrimFloat.sqrt;
  np_subtract := PrimFloat.sub;
  np_divide := PrimFloat.div;
  np_maximum := fmaximum;
  np_minimum := fminimum;
  np_zero := 0%float;
  np_add := PrimFloat.add;
  np_multiply := PrimFloat.mul
|}.

(** C99 (Annex F) fixes [hypot] on the real axis: [hypot(x, +0)] is
    [fabs(x)]. *)
Definition hypot_axis_law (L : libm) : Prop :=
  forall x, hypot L x 0%float = PrimFloat.abs x.


(** A C library that is exact on the real axis, the only place where the
    examples below evaluate it: the modulus is the textbook formula off the
    axis, the angle of a point of the axis is [+0] or [pi], and a lane of
    such angles is left as it is. *)
Definition axis_libm : libm :=
  {| hypot := fun x y =>
       if PrimFloat.eqb y 0%float then PrimFloat.abs x
       else PrimFloat.sqrt (x * x + y * y)%float;
     atan2 := fun y x =>
       if PrimFloat.ltb x 0%float then 0x1.921fb54442d18p+1%float else 0%float;
     unwrap := fun l => l |}.

Definition axis64 : Numpy float := float64 axis_libm.

(* ================================================================== *)
(** * The wrappers as the specification words them                     *)
(* ================================================================== *)

Section SpecWording.

Context {S : SciPySignal}.

(** The forward transform with the sample counts taken by [floor], as the
    specification states the conversion from seconds. *)
Definition stft_by_floor (x : list float) (fs framesz hop : float)
           (two_sided : bool) (fft_size : option Z)
  : result (ndarray (complex float)) :=
  frame_samples <- PyFloat.floor (framesz * fs) ;;
  hop_samples <- PyFloat.floor (hop * fs) ;;
  '(_, _, Zxx) <- signal_stft {| st_x := x;
                                 st_fs := fs;
                                 st_window := "hann";
                                 st_nperseg := frame_samples;
                                 st_noverlap := (frame_samples - hop_samples)%Z;
                                 st_nfft := fft_size;
                                 st_return_onesided := negb two_sided |} ;;
  Ok (T Zxx).

(** The frame length the inverse transform derives from the bin count. *)
Definition frame_samples_of_bins (two_sided : bool) (bins : Z) : Z :=
  if two_sided then bins else (2 * (bins - 1))%Z.

(** The call of the library the inverse transform makes for a hop of
    [hop_samples] samples. *)
Definition inverse_call (X : ndarray (complex float)) (fs : float)
           (hop_samples : Z) (two_sided : bool) (fft_size : option Z)
  : istft_call :=
  let frame_samples := frame_samples_of_bins two_sided (shape1 X) in
  {| is_Zxx := T X;
     is_fs := fs;
     is_window := "hann";
     is_nperseg := frame_samples;
     is_nfft := fft_size;
     is_noverlap := (frame_samples - hop_samples)%Z;
     is_input_onesided := negb two_sided |}.

(** The inverse transform without its legacy length parameter. *)
Definition istft_natural (X : ndarray (complex float)) (fs hop : float)
           (two_sided : bool) (fft_size : option Z)
  : result (list (complex float)) :=
  hop_samples <- PyFloat.int (hop * fs) ;;
  '(_, x) <- signal_istft (inverse_call X fs hop_samples two_sided fft_size) ;;
  Ok x.

(** The log the inverse transform leaves for a reconstruction of [n]
    samples. *)
Definition expected_log (recon_size : option Z) (n : Z) : list log_record :=
  match recon_size with
  | Some r =>
      if (r =? n)%Z then []
      else [{| levelname := "WARNING"; msg := recon_text n r |}]
  | None => []
  end.

End SpecWording.

(* ================================================================== *)
(** * A silent library                                                 *)
(* ================================================================== *)

(** An instance of the library interface that frames as scipy does (zero
    extension by half a frame at both ends, padding to a whole number of
    hops) and answers with arrays of the right shape whose cells are all
    zero. It shows that the laws assumed of the library can be met and
    serves as the library of the examples. *)
Module Silent.

Definition czero : complex float := {| re := 0%float; im := 0%float |}.

Definition zeros (r c : nat) : ndarray (complex float) :=
  {| nrows := r; ncols := c; rows := repeat (repeat czero c) r |}.

Definition frames (len nperseg noverlap : Z) : Z :=
  let nstep := (nperseg - noverlap)%Z in
  let len_ext := (len + 2 * (nperseg / 2))%Z in
  let nadd := (((- (len_ext - nperseg)) mod nstep) mod nperseg)%Z in
  ((len_ext + nadd - noverlap) / nstep)%Z.

Definition stft_impl (c : stft_call)
  : result (list float * list float * ndarray (complex float)) :=
  let n := fft_points (st_nperseg c) (st_nfft c) in
  if (st_nperseg c <? 1)%Z || (st_nperseg c <=? st_noverlap c)%Z
     || (n <? st_nperseg c)%Z
  then Raise ValueError
  else
    let bins := Z.to_nat (bin_count (st_return_onesided c) n) in
    let nseg := Z.to_nat (frames (shape0 (st_x c)) (st_nperseg c) (st_noverlap c)) in
    Ok (repeat 0%float bins, repeat 0%float nseg, zeros bins nseg).

Definition istft_impl (c : istft_call)
  : result (list float * list (complex float)) :=
  let nstep := (is_nperseg c - is_noverlap c)%Z in
  if (is_nperseg c <? 1)%Z || (is_nperseg c <=? is_noverlap c)%Z
  then Raise ValueError
  else
    let nseg := Z.of_nat (ncols (is_Zxx c)) in
    let len := (is_nperseg c + (nseg - 1) * nstep - 2 * (is_nperseg c / 2))%Z in
    Ok (repeat 0%float (Z.to_nat len), repeat czero (Z.to_nat len)).

Definition library : SciPySignal :=
  {| signal_stft := stft_impl; signal_istft := istft_impl |}.

(** One second of silence at 16 kHz. *)
Definition samples_16k : nat := Z.to_nat 16000.
Definition one_second : list float := repeat 0%float samples_16k.

(** The example of the specification: 25 ms frames and 10 ms hops at
    16 kHz; the two literals are the binary64 numbers written [0.025] and
    [0.010] in Python. *)
Definition frame_25ms : float := 0x1.999999999999ap-6%float.
Definition hop_10ms : float := 0x1.47ae147ae147bp-7%float.
Definition rate_16k : float := 16000%float.

End Silent.

(* ================================================================== *)
(** * Readings of the claims on [scale_spectrogram]                    *)
(* ================================================================== *)

Section ScaleReadings.

Context {F : Type} {N : Numpy F}.

(** The reading of "minimum 0.0 and maximum 1.0" for a returned pair. *)
Definition unit_range (eqb : F -> F -> bool) (zero one : F)
           (r : result (ndarray F * ndarray F)) : Prop :=
  exists out ph lo hi,
    r = Ok (out, ph) /\ amin out = Ok lo /\ amax out = Ok hi /\
    eqb lo zero = true /\ eqb hi one = true.

(** The magnitude takes two different values. *)
Definition magnitude_varies (neqb : F -> F -> bool) (X : ndarray (complex F)) : Prop :=
  exists u v, In u (flat (np_abs X)) /\ In v (flat (np_abs X)) /\ neqb u v = true.

End ScaleReadings.

(* ================================================================== *)
(** * Examples for [scale_spectrogram]                                 *)
(* ================================================================== *)

Module Examples.

Definition real_row (l : list float) : ndarray (complex float) :=
  {| nrows := 1; ncols := length l;
     rows := [map (fun x => {| re := x; im := 0%float |}) l] |}.


(** Two cells whose magnitudes differ by one unit in the last place. *)
Definition near_one : ndarray (complex float) :=
  real_row [1%float; 0x1.0000000000001p+0%float].

Definition one_two_three : ndarray (complex float) :=
  real_row [1%float; 2%float; 3%float].

Definition one_four : ndarray (complex float) := real_row [1%float; 4%float].

Definition all_two : ndarray (complex float) := real_row [2%float; 2%float].

(** [u != v] on floats. *)
Definition differ (u v : float) : bool := negb (PrimFloat.eqb u v).

(** The rows of the magnitude array of a result. *)
Definition fst_magnitude (r : result (ndarray float * ndarray float))
  : option (list (list float)) :=
  match r with
  | Ok (out, _) => Some (rows out)
  | Raise _ => None
  end.

End Examples.

(* ================================================================== *)
(** * Binary64 numbers as integers                                     *)
(* ================================================================== *)

(** The vocabulary of the proofs about rounding: the non-negative numbers
    of the format are integer multiples of the least subnormal [2^-1074],
    and an exact result is rounded to 53 significant bits, to nearest with
    ties to even. *)
Module Binary64.

Local Open Scope Z_scope.

(** A float that is not a negative number: a zero, a positive number, an
    infinity or a NaN. *)
Definition not_negative (x : spec_float) : Prop :=
  match x with
  | S754_finite true _ _ => False
  | _ => True
  end.

Definition zero_or_nan (x : spec_float) : Prop :=
  match x with
  | S754_zero _ | S754_nan => True
  | _ => False
  end.

(** A zero or a positive number. *)
Definition nnf (x : spec_float) : Prop :=
  match x with
  | S754_zero _ | S754_finite false _ _ => True
  | _ => False
  end.

(** The value of a non-negative number in units of [2^-1074]. *)
Definition units (x : spec_float) : Z :=
  match x with
  | S754_finite _ m e => Zpos m * 2 ^ (e + 1074)
  | _ => 0
  end.

(** Number of binary digits of a non-negative integer. *)
Definition digits (k : Z) : Z := Zdigits2 k.

(** [k / 2^n] rounded to the nearest integer, a tie going to the even one. *)
Definition rne (k n : Z) : Z :=
  let q := k / 2 ^ n in
  let rem := k mod 2 ^ n in
  let h := 2 ^ (n - 1) in
  if rem <? h then q
  else if h <? rem then q + 1
       else if Z.even q then q else q + 1.

Definition round53 (k : Z) : Z :=
  if digits k <=? 53 then k
  else rne k (digits k - 53) * 2 ^ (digits k - 53).

(** The number one. *)
Definition SFone : spec_float := S754_finite false 4503599627370496 (-52).

(** A float that is a zero or a positive number. *)
Definition nonneg (x : float) : Prop := nnf (Prim2SF x).

(** The value of a non-negative float in units of [2^-1074]. *)
Definition funits (x : float) : Z := units (Prim2SF x).

(** [y] is [x] times [2^j] without any error: zeros of the same sign, or
    positive numbers whose values differ by the factor [2^j]. *)
Definition SFscaled (j : Z) (x y : spec_float) : Prop :=
  match x, y with
  | S754_zero s, S754_zero s' => s = s'
  | S754_finite false _ _, S754_finite false _ _ => units y = units x * 2 ^ j
  | _, _ => False
  end.


End Binary64.

(* ================================================================== *)
(** * Binary64 numbers as real numbers                                 *)
(* ================================================================== *)

(** The real number a zero or a finite float stands for, [m * 2^e] with
    its sign; an infinity and a NaN stand for no number and are given 0. *)
Definition SF2R (x : spec_float) : R :=
  match x with
  | S754_finite s m e => (IZR (cond_Zopp s (Zpos m)) * powerRZ 2 e)%R
  | _ => 0%R
  end.

Definition float_value (x : float) : R := SF2R (Prim2SF x).

(* ================================================================== *)
(** * Binary64 products as integers                                    *)
(* ================================================================== *)

Module Grid.

Import Binary64.
Local Open Scope Z_scope.

(** The rounding of a product. In units of [2^-2148], the square of the
    least subnormal, the exact product of two non-negative numbers of the
    format is an integer [k]; it is rounded to 53 significant bits or to
    the multiples of [2^-1074], whichever is coarser. *)
Definition round_grid (k : Z) : Z :=
  let n := Z.max (digits k - 53) 1074 in
  rne k n * 2 ^ n.

End Grid.

(* ================================================================== *)
(** * Binary64 quotients as integers                                   *)
(* ================================================================== *)

Module Quotients.

Import Binary64.
Local Open Scope Z_scope.

(** [a / d] rounded to the nearest integer, a tie going to the even one. *)
Definition rneq (a d : Z) : Z :=
  let q := a / d in
  let r := a mod d in
  if 2 * r <? d then q
  else if d <? 2 * r then q + 1
       else if Z.even q then q else q + 1.

(** The rounding of a quotient [a / d] of two integers to 53 significant
    bits or to the integers, whichever is coarser. *)
Definition round_quotient (a d : Z) : Z :=
  let n := Z.max (digits (a / d) - 53) 0 in
  rneq a (d * 2 ^ n) * 2 ^ n.

End Quotients.

(* ================================================================== *)
(** * Properties of the sample counts                                  *)
(* ================================================================== *)

Unset Implicit Arguments.

Import Binary64.

Section SampleCounts.

Lemma SFint_floor (x : spec_float) :
  not_negative x -> PyFloat.SFint x = PyFloat.SFfloor x.
Proof.
  destruct x as [s | s | | [|] m e]; simpl; intros H; try reflexivity.
  contradiction.
Qed.

(** Rounding keeps the sign it is given. *)
Lemma binary_round_aux_sign (sx : bool) (mx ex : Z) (lx : location) :
  match binary_round_aux prec emax sx mx ex lx with
  | S754_zero s | S754_infinity s | S754_finite s _ _ => s = sx
  | S754_nan => True
  end.
Proof.
  unfold binary_round_aux.
  destruct (shr_fexp prec emax mx ex lx) as [mrs' e'].
  destruct (shr_fexp prec emax _ e' loc_Exact) as [mrs'' e''].
  destruct (shr_m mrs''); auto.
  destruct (Z.leb e'' (emax - prec)); reflexivity.
Qed.

Lemma positive_spec (x : float) :
  PyFloat.positive x ->
  (exists m e, Prim2SF x = S754_finite false m e) \/
  Prim2SF x = S754_infinity false.
Proof.
  unfold PyFloat.positive. rewrite ltb_spec.
  change (Prim2SF 0) with (S754_zero false).
  unfold SFltb, SFcompare.
  destruct (Prim2SF x) as [s | [|] | | [|] m e]; try discriminate; eauto.
Qed.

Lemma mul_positive (a b : float) :
  PyFloat.positive a -> PyFloat.positive b ->
  not_negative (Prim2SF (a * b)).
Proof.
  intros Ha Hb. rewrite mul_spec.
  destruct (positive_spec _ Ha) as [(ma & ea & ->) | ->];
    destruct (positive_spec _ Hb) as [(mb & eb & ->) | ->];
    unfold SF64mul; simpl; auto.
  pose proof (binary_round_aux_sign false (Zpos (ma * mb)) (ea + eb) loc_Exact) as H.
  unfold not_negative.
  destruct (binary_round_aux prec emax false (Zpos (ma * mb)) (ea + eb) loc_Exact)
    as [s | s | | s m e]; auto.
  subst s; exact I.
Qed.

Lemma int_floor_product (a b : float) :
  PyFloat.positive a -> PyFloat.positive b ->
  PyFloat.int (a * b) = PyFloat.floor (a * b).
Proof.
  intros Ha Hb. apply SFint_floor, mul_positive; assumption.
Qed.

End SampleCounts.

Section Transposition.

Context {A : Type}.

Lemma column_nth_error (rs : list (list A)) (c i j : nat) :
  Forall (fun r => length r = c) rs -> i < c ->
  nth_error (column i rs) j
  = match nth_error rs j with
    | Some r => nth_error r i
    | None => None
    end.
Proof.
  intros Hall Hi. revert j. induction Hall as [| r rs Hr _ IH]; intros j.
  - destruct j; reflexivity.
  - unfold column in *. cbn [flat_map].
    destruct (nth_error r i) as [v |] eqn:E.
    + destruct j as [| j]; simpl; [now rewrite E | apply IH].
    + apply nth_error_None in E. lia.
Qed.

(** Reading a list cell by cell gives the list back. *)
Lemma cells_in_order (r : list A) :
  flat_map (fun i => match nth_error r i with
                     | Some v => [v]
                     | None => []
                     end) (seq 0 (length r)) = r.
Proof.
  induction r as [| v r IH]; [reflexivity |].
  cbn [length seq flat_map nth_error app].
  f_equal. rewrite <- seq_shift, flat_map_concat_map, map_map.
  rewrite <- flat_map_concat_map. exact IH.
Qed.

Lemma column_of_columns (rs : list (list A)) (c j : nat) (r : list A) :
  Forall (fun r => length r = c) rs -> nth_error rs j = Some r ->
  column j (map (fun i => column i rs) (seq 0 c)) = r.
Proof.
  intros Hall Hj.
  assert (Hr : length r = c).
  { rewrite Forall_forall in Hall. apply Hall. eapply nth_error_In, Hj. }
  unfold column at 1. rewrite flat_map_concat_map, map_map.
  transitivity (concat (map (fun i => match nth_error r i with
                                      | Some v => [v]
                                      | None => []
                                      end) (seq 0 c))).
  - f_equal. apply map_ext_in. intros i Hi. apply in_seq in Hi.
    rewrite (column_nth_error rs c i j Hall ltac:(lia)), Hj. reflexivity.
  - rewrite <- flat_map_concat_map, <- Hr. apply cells_in_order.
Qed.

(** Transposing twice gives a well-formed array back. *)
Lemma T_involutive (a : ndarray A) : wf_ndarray a -> T (T a) = a.
Proof.
  intros [Hr Hc]. destruct a as [r c rs]. cbn [nrows ncols rows] in *.
  unfold T. cbn [nrows ncols rows]. f_equal.
  apply nth_error_ext. intros j.
  rewrite nth_error_map, nth_error_seq.
  destruct (Nat.ltb_spec j r) as [Hlt | Hge]; cbn [option_map].
  - destruct (nth_error rs j) as [row |] eqn:E.
    + f_equal. rewrite Nat.add_0_l. apply column_of_columns; assumption.
    + apply nth_error_None in E. lia.
  - symmetry. apply nth_error_None. lia.
Qed.

End Transposition.

Section WrapperProperties.

Context {S : SciPySignal}.

(** On positive arguments the truncation of [int] is the rounding of
    [floor]. *)
Lemma stft_floor_counts
      (x : list float) (fs framesz hop : float)
      (two_sided : bool) (fft_size : option Z) :
  PyFloat.positive framesz -> PyFloat.positive hop -> PyFloat.positive fs ->
  stft x fs framesz hop two_sided fft_size
  = stft_by_floor x fs framesz hop two_sided fft_size.
Proof.
  intros Hf Hh Hs. unfold stft, stft_by_floor.
  rewrite (int_floor_product _ _ Hf Hs), (int_floor_product _ _ Hh Hs).
  reflexivity.
Qed.

Lemma shape1_T {A : Type} (a : ndarray A) : shape1 (T a) = Z.of_nat (nrows a).
Proof. reflexivity. Qed.

(** C2: the number of columns of the spectrogram returned by [stft] is
    the number of DFT points when [two_sided] holds and half of it plus
    one otherwise; the DFT points are [fft_size] when it is given and
    [floor(framesz * fs)] when it is not. *)
Theorem stft_bin_count
        (x : list float) (fs framesz hop : float)
        (two_sided : bool) (fft_size : option Z)
        (X : ndarray (complex float)) :
  stft_bins_law S ->
  PyFloat.positive framesz -> PyFloat.positive hop -> PyFloat.positive fs ->
  stft x fs framesz hop two_sided fft_size = Ok X ->
  exists frame_samples,
    PyFloat.floor (framesz * fs) = Ok frame_samples /\
    shape1 X =
      let n := fft_points frame_samples fft_size in
      if two_sided then n else (n / 2 + 1)%Z.
Proof.
  intros Hlaw Hf Hh Hs.
  rewrite (stft_floor_counts x fs framesz hop two_sided fft_size Hf Hh Hs).
  unfold stft_by_floor.
  destruct (PyFloat.floor (framesz * fs)) as [n | e]; simpl; [| discriminate].
  destruct (PyFloat.floor (hop * fs)) as [h | e]; simpl; [| discriminate].
  match goal with |- context [signal_stft ?c] => set (call := c) end.
  destruct (signal_stft call) as [[[f t] Zxx] | e] eqn:Hcall; simpl; [| discriminate].
  intros HX; injection HX as <-.
  exists n; split; [reflexivity |].
  destruct (Hlaw _ _ _ _ Hcall) as [_ Hbins].
  rewrite shape1_T, Hbins. subst call; simpl.
  destruct two_sided; reflexivity.
Qed.

(** What [istft] makes of the bin count that [stft] produces from [n] DFT
    points: [n] itself for a two-sided spectrum, and [n] with its last bit
    cleared for a one-sided one. The frame length is so recovered from an
    even number of points, and only when the DFT was not longer than the
    frame. *)
Lemma frame_samples_recovered (two_sided : bool) (n : Z) :
  frame_samples_of_bins two_sided (bin_count (negb two_sided) n)
  = if two_sided then n else (2 * (n / 2))%Z.
Proof.
  unfold frame_samples_of_bins, bin_count. destruct two_sided; cbn [negb]; lia.
Qed.

Lemma frame_samples_recovered_iff (two_sided : bool) (n : Z) :
  frame_samples_of_bins two_sided (bin_count (negb two_sided) n) = n
  <-> two_sided = true \/ Z.even n = true.
Proof.
  rewrite frame_samples_recovered. destruct two_sided.
  - split; auto.
  - rewrite Z.even_spec. split.
    + intros H. right. exists (n / 2)%Z. lia.
    + intros [H | [k ->]]; [discriminate |].
      rewrite (Z.mul_comm 2 k), Z.div_mul by lia. lia.
Qed.

(** The call [istft] makes on the spectrogram that [stft] returned: the
    library gets its own output back, with the forward call's sample rate,
    window, DFT size, hop and sidedness; the frame length is the one
    [frame_samples_recovered] gives. *)
Lemma inverse_call_after_stft
      (x : list float) (fs : float) (two_sided : bool) (fft_size : option Z)
      (frame_samples hop_samples : Z)
      (f t : list float) (Zxx : ndarray (complex float)) :
  stft_bins_law S ->
  signal_stft {| st_x := x;
                 st_fs := fs;
                 st_window := "hann";
                 st_nperseg := frame_samples;
                 st_noverlap := (frame_samples - hop_samples)%Z;
                 st_nfft := fft_size;
                 st_return_onesided := negb two_sided |} = Ok (f, t, Zxx) ->
  let recovered :=
    frame_samples_of_bins two_sided
      (bin_count (negb two_sided) (fft_points frame_samples fft_size)) in
  inverse_call (T Zxx) fs hop_samples two_sided fft_size
  = {| is_Zxx := Zxx;
       is_fs := fs;
       is_window := "hann";
       is_nperseg := recovered;
       is_nfft := fft_size;
       is_noverlap := (recovered - hop_samples)%Z;
       is_input_onesided := negb two_sided |}.
Proof.
  intros Hlaw Hcall recovered. subst recovered.
  destruct (Hlaw _ _ _ _ Hcall) as [Hwf Hbins]. cbn in Hbins.
  unfold inverse_call. rewrite shape1_T, Hbins, (T_involutive Zxx Hwf).
  reflexivity.
Qed.

(** The value [istft] returns never involves [recon_size]. *)
Lemma istft_value
      (X : ndarray (complex float)) (fs : float) (recon_size : option Z)
      (hop : float) (two_sided : bool) (fft_size : option Z) :
  fst (istft X fs recon_size hop two_sided fft_size)
  = istft_natural X fs hop two_sided fft_size.
Proof.
  unfold istft, istft_natural, inverse_call, frame_samples_of_bins, lbind, lift.
  simpl.
  destruct (PyFloat.int (hop * fs)) as [h | e]; simpl; [| reflexivity].
  match goal with |- context [signal_istft ?c] => destruct (signal_istft c) as [[t x] | e] end;
    simpl; [| reflexivity].
  destruct recon_size as [r |]; simpl; [| reflexivity].
  destruct (r =? shape0 x)%Z; reflexivity.
Qed.


(** The log [istft] leaves when the library returns a reconstruction. *)
Lemma istft_log
      (X : ndarray (complex float)) (fs : float) (recon_size : option Z)
      (hop : float) (two_sided : bool) (fft_size : option Z)
      (hop_samples : Z) (t : list float) (x : list (complex float)) :
  PyFloat.int (hop * fs) = Ok hop_samples ->
  signal_istft (inverse_call X fs hop_samples two_sided fft_size) = Ok (t, x) ->
  istft X fs recon_size hop two_sided fft_size
  = (Ok x, expected_log recon_size (shape0 x)).
Proof.
  intros Hh Hx.
  unfold inverse_call, frame_samples_of_bins in Hx.
  unfold istft, lbind, lift, expected_log. cbn [fst snd].
  rewrite Hh. cbn [fst snd]. rewrite Hx. cbn [fst snd].
  destruct recon_size as [r |]; [| reflexivity].
  destruct (r =? shape0 x)%Z; reflexivity.
Qed.

(** When [istft] raises, from the conversion of the hop or from the
    library, it has logged nothing. *)
Lemma istft_raise_silent
      (X : ndarray (complex float)) (fs : float) (recon_size : option Z)
      (hop : float) (two_sided : bool) (fft_size : option Z) (e : exn) :
  fst (istft X fs recon_size hop two_sided fft_size) = Raise e ->
  snd (istft X fs recon_size hop two_sided fft_size) = [].
Proof.
  unfold istft, lbind, lift. cbn [fst snd].
  destruct (PyFloat.int (hop * fs)) as [h | e']; cbn [fst snd]; [| reflexivity].
  match goal with
  | |- context [signal_istft ?c] => destruct (signal_istft c) as [[t x] | e']
  end; cbn [fst snd]; [| reflexivity].
  destruct recon_size as [r |]; [| discriminate].
  destruct (r =? shape0 x)%Z; discriminate.
Qed.

(** The decimal numeral of a Python int: [str_int n] is the numeral the
    standard library writes for [n], and reading it gives [n] back. *)
Lemma str_int_decimal (n : Z) :
  str_int n = NilZero.string_of_int (Z.to_int n) /\
  option_map Z.of_int (NilZero.int_of_string (str_int n)) = Some n.
Proof.
  split; [reflexivity |]. unfold str_int.
  rewrite NilZero.isi.
  - cbn [option_map]. now rewrite DecimalZ.of_to.
  - destruct n as [| p | p]; cbn [Z.to_int]; try discriminate.
    intros E. injection E as E. exact (Unsigned.to_uint_nonnil p E).
  - destruct n as [| p | p]; cbn [Z.to_int]; try discriminate.
    intros E. injection E as E. exact (Unsigned.to_uint_nonnil p E).
Qed.

(** C4: when the library returns a reconstruction [x], [istft] logs a
    warning if and only if [recon_size] is given and differs from the
    length of [x]; the warning then is the only record, its text holds
    the decimal numerals of both numbers, the length of [x] first, and
    reading each numeral gives the number back; in every case [x] itself
    is returned, without an exception. *)
Theorem istft_warning
        (X : ndarray (complex float)) (fs : float) (recon_size : option Z)
        (hop : float) (two_sided : bool) (fft_size : option Z)
        (hop_samples : Z) (t : list float) (x : list (complex float)) :
  PyFloat.int (hop * fs) = Ok hop_samples ->
  signal_istft (inverse_call X fs hop_samples two_sided fft_size) = Ok (t, x) ->
  let out := istft X fs recon_size hop two_sided fft_size in
  fst out = Ok x /\
  (snd out <> [] <-> exists r, recon_size = Some r /\ r <> shape0 x) /\
  (forall r, recon_size = Some r -> r <> shape0 x ->
     exists actual requested : string,
       snd out =
         [{| levelname := "WARNING";
             msg := ("Size of reconstruction (" ++ actual
                       ++ ") does not match value of deprecated recon_size parameter ("
                       ++ requested ++ ").")%string |}] /\
       actual = NilZero.string_of_int (Z.to_int (shape0 x)) /\
       requested = NilZero.string_of_int (Z.to_int r) /\
       option_map Z.of_int (NilZero.int_of_string actual) = Some (shape0 x) /\
       option_map Z.of_int (NilZero.int_of_string requested) = Some r).
Proof.
  intros Hh Hx out. subst out.
  rewrite (istft_log X fs recon_size hop two_sided fft_size _ _ _ Hh Hx). simpl.
  split; [reflexivity |]. unfold expected_log. split; [split |].
  - destruct recon_size as [r |]; [| intros H; now elim H].
    destruct (Z.eqb_spec r (shape0 x)); [intros H; now elim H |].
    intros _; eauto.
  - intros (r & -> & Hne). destruct (Z.eqb_spec r (shape0 x)); [contradiction |].
    discriminate.
  - intros r -> Hne. destruct (Z.eqb_spec r (shape0 x)); [contradiction |].
    exists (str_int (shape0 x)), (str_int r).
    destruct (str_int_decimal (shape0 x)) as [E1 R1].
    destruct (str_int_decimal r) as [E2 R2].
    split; [reflexivity |]. auto.
Qed.

(** C5: the array [istft] returns is the same for any two values of
    [recon_size], [None] included, and it is the library's reconstruction
    itself, neither cut nor padded to the requested length. *)
Theorem istft_ignores_recon_size
        (X : ndarray (complex float)) (fs hop : float)
        (two_sided : bool) (fft_size : option Z) (r1 r2 : option Z) :
  fst (istft X fs r1 hop two_sided fft_size)
  = fst (istft X fs r2 hop two_sided fft_size) /\
  forall hop_samples t x,
    PyFloat.int (hop * fs) = Ok hop_samples ->
    signal_istft (inverse_call X fs hop_samples two_sided fft_size) = Ok (t, x) ->
    fst (istft X fs r1 hop two_sided fft_size) = Ok x.
Proof.
  split.
  - now rewrite !istft_value.
  - intros h t x Hh Hx.
    now rewrite (istft_log X fs r1 hop two_sided fft_size _ _ _ Hh Hx).
Qed.

End WrapperProperties.

(* ================================================================== *)
(** * The wrappers on the silent library                               *)
(* ================================================================== *)

Module SilentFacts.

Import Silent.

Lemma zeros_wf (r c : nat) : wf_ndarray (zeros r c).
Proof.
  split; simpl.
  - apply repeat_length.
  - apply Forall_forall. intros row Hin.
    apply repeat_spec in Hin. subst row. apply repeat_length.
Qed.

Lemma library_bins : stft_bins_law library.
Proof.
  intros c f t Zxx. simpl. unfold stft_impl.
  destruct (st_nperseg c <? 1)%Z eqn:H1; [discriminate |].
  destruct (st_nperseg c <=? st_noverlap c)%Z eqn:H2; [discriminate |].
  destruct (fft_points (st_nperseg c) (st_nfft c) <? st_nperseg c)%Z eqn:H3;
    [discriminate |].
  simpl. intros H; injection H as <- <- <-.
  split; [apply zeros_wf |]. simpl.
  apply Z.ltb_ge in H1, H3.
  rewrite Z2Nat.id; [reflexivity |].
  unfold bin_count. destruct (st_return_onesided c); [| lia].
  assert (0 <= fft_points (st_nperseg c) (st_nfft c) / 2)%Z
    by (apply Z.div_pos; lia).
  lia.
Qed.

Lemma stft_bin_count_witness :
  exists frame_samples,
    PyFloat.floor (frame_25ms * rate_16k) = Ok frame_samples /\
    shape1 (T (zeros 201 101)) =
      let n := fft_points frame_samples None in
      if false then n else (n / 2 + 1)%Z.
Proof.
  apply (@stft_bin_count library one_second rate_16k frame_25ms hop_10ms
           false None (T (zeros 201 101)) library_bins);
    [reflexivity | reflexivity | reflexivity | vm_compute; reflexivity].
Defined.

Lemma istft_warning_witness :
  let out := @istft library (zeros 101 201) rate_16k (Some 16001%Z)
                    hop_10ms false None in
  fst out = Ok (repeat czero samples_16k) /\
  snd out =
    [{| levelname := "WARNING";
        msg := "Size of reconstruction (16000) does not match value of deprecated recon_size parameter (16001)." |}].
Proof.
  destruct (@istft_warning library (zeros 101 201) rate_16k (Some 16001%Z)
              hop_10ms false None 160%Z (repeat 0%float samples_16k)
              (repeat czero samples_16k))
    as (Hfst & _ & Htext); [reflexivity | vm_compute; reflexivity |].
  split; [exact Hfst |].
  destruct (Htext 16001%Z eq_refl) as (actual & requested & Hlog & Ea & Er & _).
  - vm_compute. discriminate.
  - rewrite Hlog, Ea, Er. vm_compute. reflexivity.
Defined.

Lemma istft_ignores_recon_size_witness :
  fst (@istft library (zeros 101 201) rate_16k (Some 16001%Z) hop_10ms false None)
  = fst (@istft library (zeros 101 201) rate_16k None hop_10ms false None) /\
  fst (@istft library (zeros 101 201) rate_16k (Some 16001%Z) hop_10ms false None)
  = Ok (repeat czero samples_16k).
Proof.
  destruct (@istft_ignores_recon_size library (zeros 101 201) rate_16k hop_10ms
              false None (Some 16001%Z) None) as [Heq Hnat].
  split; [exact Heq |].
  apply (Hnat 160%Z (repeat 0%float samples_16k) (repeat czero samples_16k)).
  - reflexivity.
  - vm_compute. reflexivity.
Defined.

End SilentFacts.


(* ================================================================== *)
(** * Binary64: order, reductions and equal operands                   *)
(* ================================================================== *)

Module F64.


(** ** The order of [SFcompare] *)

Ltac split_compares :=
  repeat match goal with
         | |- context [Z.compare ?a ?b] => destruct (Z.compare_spec a b)
         | |- context [Pos.compare_cont Eq ?a ?b] =>
             change (Pos.compare_cont Eq a b) with (Pos.compare a b);
             destruct (Pos.compare_spec a b)
         end.

Ltac order_cases :=
  simpl; try (intros; (reflexivity || discriminate)); split_compares;
  simpl; intros; subst; try reflexivity; try discriminate; try lia.

Lemma SFleb_trans (x y z : spec_float) :
  SFleb x y = true -> SFleb y z = true -> SFleb x z = true.
Proof.
  unfold SFleb, SFcompare.
  destruct x as [[|] | [|] | | [|] mx ex]; destruct y as [[|] | [|] | | [|] my ey];
    try (simpl; intros; discriminate);
    destruct z as [[|] | [|] | | [|] mz ez]; order_cases.
Qed.

Lemma SFleb_total (x y : spec_float) :
  x <> S754_nan -> y <> S754_nan -> SFleb y x = false -> SFleb x y = true.
Proof.
  unfold SFleb, SFcompare.
  destruct x as [[|] | [|] | | [|] mx ex]; destruct y as [[|] | [|] | | [|] my ey];
    try (intros; congruence); order_cases.
Qed.

Lemma SFleb_refl (x : spec_float) : x <> S754_nan -> SFleb x x = true.
Proof.
  unfold SFleb, SFcompare.
  destruct x as [[|] | [|] | | [|] mx ex]; try (intros; congruence); order_cases.
Qed.

Lemma SFeqb_between (m v M : spec_float) :
  SFleb m v = true -> SFleb v M = true -> SFeqb M m = true -> SFeqb v m = true.
Proof.
  unfold SFleb, SFeqb, SFcompare.
  destruct m as [[|] | [|] | | [|] mx ex]; destruct v as [[|] | [|] | | [|] my ey];
    try (simpl; intros; discriminate);
    destruct M as [[|] | [|] | | [|] mz ez]; order_cases.
Qed.


(** ** From primitive floats to their specification *)

Lemma SFeqb_self (x : spec_float) : SFeqb x x = negb (match x with S754_nan => true | _ => false end).
Proof.
  unfold SFeqb, SFcompare.
  destruct x as [[|] | [|] | | [|] m e]; try reflexivity;
    rewrite Z.compare_refl;
    change (Pos.compare_cont Eq m m) with (Pos.compare m m);
    rewrite Pos.compare_refl; reflexivity.
Qed.

Lemma is_nan_spec (a : float) :
  PrimFloat.is_nan a = true <-> Prim2SF a = S754_nan.
Proof.
  unfold PrimFloat.is_nan. rewrite eqb_spec, SFeqb_self.
  destruct (Prim2SF a); simpl; split; congruence.
Qed.

Lemma not_nan_spec (a : float) :
  PrimFloat.is_nan a = false <-> Prim2SF a <> S754_nan.
Proof.
  rewrite <- is_nan_spec. destruct (PrimFloat.is_nan a); split; congruence.
Qed.

Lemma SFleb_not_nan (x y : spec_float) :
  SFleb x y = true -> x <> S754_nan /\ y <> S754_nan.
Proof.
  unfold SFleb, SFcompare.
  destruct x as [[|] | [|] | | [|] mx ex]; destruct y as [[|] | [|] | | [|] my ey];
    simpl; intros; split; congruence.
Qed.

Lemma leb_not_nan (a b : float) :
  PrimFloat.leb a b = true -> PrimFloat.is_nan a = false /\ PrimFloat.is_nan b = false.
Proof.
  rewrite leb_spec, !not_nan_spec. apply SFleb_not_nan.
Qed.

Lemma leb_trans (a b c : float) :
  PrimFloat.leb a b = true -> PrimFloat.leb b c = true -> PrimFloat.leb a c = true.
Proof. rewrite !leb_spec. apply SFleb_trans. Qed.

Lemma leb_refl (a : float) : PrimFloat.is_nan a = false -> PrimFloat.leb a a = true.
Proof. rewrite leb_spec, not_nan_spec. apply SFleb_refl. Qed.

Lemma leb_total (a b : float) :
  PrimFloat.is_nan a = false -> PrimFloat.is_nan b = false ->
  PrimFloat.leb b a = false -> PrimFloat.leb a b = true.
Proof. rewrite !leb_spec, !not_nan_spec. apply SFleb_total. Qed.

(** ** The reductions [max] and [min] *)

Lemma fmaximum_upper (a b : float) :
  PrimFloat.is_nan (fmaximum a b) = false ->
  PrimFloat.leb a (fmaximum a b) = true /\ PrimFloat.leb b (fmaximum a b) = true.
Proof.
  unfold fmaximum.
  destruct (PrimFloat.leb b a) eqn:Hba; simpl.
  - intros Ha. split; [apply leb_refl, Ha | exact Hba].
  - destruct (PrimFloat.is_nan a) eqn:Ha; [congruence |].
    intros Hb. split; [apply leb_total; assumption | apply leb_refl, Hb].
Qed.

Lemma fminimum_lower (a b : float) :
  PrimFloat.is_nan (fminimum a b) = false ->
  PrimFloat.leb (fminimum a b) a = true /\ PrimFloat.leb (fminimum a b) b = true.
Proof.
  unfold fminimum.
  destruct (PrimFloat.leb a b) eqn:Hab; simpl.
  - intros Ha. split; [apply leb_refl, Ha | exact Hab].
  - destruct (PrimFloat.is_nan a) eqn:Ha; [congruence |].
    intros Hb. split; [apply leb_total; assumption | apply leb_refl, Hb].
Qed.

Lemma fold_maximum_upper (vs : list float) (v : float) :
  let M := fold_left fmaximum vs v in
  PrimFloat.is_nan M = false ->
  Forall (fun u => PrimFloat.leb u M = true) (v :: vs).
Proof.
  revert v. induction vs as [| b vs IH]; intros v; simpl.
  - intros Hv. constructor; [apply leb_refl, Hv | constructor].
  - intros HM. specialize (IH (fmaximum v b) HM).
    inversion IH as [| ? ? Hhead Htail]; subst.
    destruct (leb_not_nan _ _ Hhead) as [Hf _].
    destruct (fmaximum_upper v b Hf) as [Hv Hb].
    constructor; [eapply leb_trans; eassumption |].
    constructor; [eapply leb_trans; eassumption | exact Htail].
Qed.

Lemma fold_minimum_lower (vs : list float) (v : float) :
  let m := fold_left fminimum vs v in
  PrimFloat.is_nan m = false ->
  Forall (fun u => PrimFloat.leb m u = true) (v :: vs).
Proof.
  revert v. induction vs as [| b vs IH]; intros v; simpl.
  - intros Hv. constructor; [apply leb_refl, Hv | constructor].
  - intros HM. specialize (IH (fminimum v b) HM).
    inversion IH as [| ? ? Hhead Htail]; subst.
    destruct (leb_not_nan _ _ Hhead) as [_ Hf].
    destruct (fminimum_lower v b Hf) as [Hv Hb].
    constructor; [eapply leb_trans; eassumption |].
    constructor; [eapply leb_trans; eassumption | exact Htail].
Qed.

(** The extrema are cells of the array. *)
Lemma fold_maximum_in (vs : list float) (v : float) :
  In (fold_left fmaximum vs v) (v :: vs).
Proof.
  revert v. induction vs as [| b vs IH]; intros v; simpl; [auto |].
  destruct (IH (fmaximum v b)) as [H | H]; [| auto].
  rewrite <- H. unfold fmaximum.
  destruct (PrimFloat.leb b v || PrimFloat.is_nan v); auto.
Qed.

Lemma fold_minimum_in (vs : list float) (v : float) :
  In (fold_left fminimum vs v) (v :: vs).
Proof.
  revert v. induction vs as [| b vs IH]; intros v; simpl; [auto |].
  destruct (IH (fminimum v b)) as [H | H]; [| auto].
  rewrite <- H. unfold fminimum.
  destruct (PrimFloat.leb v b || PrimFloat.is_nan v); auto.
Qed.

(** ** The quotient of two differences of equal numbers *)

Lemma SFsub_equal (x y : spec_float) :
  SFeqb x y = true -> zero_or_nan (SF64sub x y).
Proof.
  unfold SFeqb, SFcompare, SF64sub, SFsub.
  destruct x as [[|] | [|] | | [|] mx ex]; destruct y as [[|] | [|] | | [|] my ey];
    simpl; try (intros; (exact I || discriminate));
    destruct (Z.compare_spec ex ey); try discriminate;
    change (Pos.compare_cont Eq mx my) with (Pos.compare mx my);
    destruct (Pos.compare_spec mx my); try discriminate; subst;
    intros _; rewrite Z.min_id; unfold shl_align; rewrite Z.sub_diag; simpl;
    rewrite ?Z.pos_sub_diag; exact I.
Qed.

Lemma SFdiv_zero_or_nan (x y : spec_float) :
  zero_or_nan x -> zero_or_nan y -> SF64div x y = S754_nan.
Proof.
  destruct x as [[|] | [|] | | [|] mx ex]; destruct y as [[|] | [|] | | [|] my ey];
    simpl; intros; (reflexivity || contradiction).
Qed.

Lemma quotient_of_equal (v m M : float) :
  PrimFloat.leb m v = true -> PrimFloat.leb v M = true ->
  PrimFloat.eqb M m = true ->
  PrimFloat.is_nan ((v - m) / (M - m)) = true.
Proof.
  rewrite !leb_spec, eqb_spec, is_nan_spec, div_spec, !sub_spec.
  intros Hmv HvM HMm.
  apply SFdiv_zero_or_nan; apply SFsub_equal; [| exact HMm].
  eapply SFeqb_between; eassumption.
Qed.

End F64.


(* ================================================================== *)
(** * Shape and formula of [scale_spectrogram]                         *)
(* ================================================================== *)

Section ScaleShape.

Context {F : Type} {N : Numpy F}.

Lemma flat_amap {A B : Type} (f : A -> B) (a : ndarray A) :
  flat (amap f a) = map f (flat a).
Proof. unfold flat, amap; simpl. symmetry. apply concat_map. Qed.

Lemma amap_amap {A B C : Type} (f : A -> B) (g : B -> C) (a : ndarray A) :
  amap g (amap f a) = amap (fun x => g (f x)) a.
Proof.
  unfold amap; simpl. f_equal. rewrite map_map.
  apply map_ext. intros r. apply map_map.
Qed.

Lemma same_shape_amap {A B : Type} (f : A -> B) (a : ndarray A) :
  same_shape (amap f a) a.
Proof.
  unfold same_shape, amap; simpl. repeat split.
  induction (rows a) as [| r rs IH]; simpl; constructor; auto.
  apply length_map.
Qed.




Lemma compressed_flat (X : ndarray (complex F)) :
  flat (compressed X) = map (fun z => np_sqrt (np_hypot (re z) (im z))) (flat X).
Proof.
  unfold compressed, np_abs. rewrite amap_amap. apply flat_amap.
Qed.


End ScaleShape.

Module ExampleFacts.

Import Examples.

#[local] Existing Instance axis64.


Lemma axis_hypot : hypot_axis_law axis_libm.
Proof. intros x. reflexivity. Qed.



End ExampleFacts.

(* ================================================================== *)
(** * Constant magnitude                                               *)
(* ================================================================== *)

Section ConstantMagnitude.

Variable L : libm.
Let N64 : Numpy float := float64 L.

Lemma is_zero_spec (a : float) :
  PrimFloat.is_zero a = true <-> exists s, Prim2SF a = S754_zero s.
Proof.
  unfold PrimFloat.is_zero. rewrite eqb_spec.
  change (Prim2SF zero) with (S754_zero false).
  unfold SFeqb, SFcompare.
  destruct (Prim2SF a) as [s | [|] | | [|] m e]; simpl; split;
    try discriminate; eauto; intros [s' H]; discriminate.
Qed.

Lemma is_finite_spec (a : float) :
  PrimFloat.is_finite a = true ->
  match Prim2SF a with
  | S754_zero _ | S754_finite _ _ _ => True
  | _ => False
  end.
Proof.
  unfold PrimFloat.is_finite, PrimFloat.is_infinity.
  rewrite negb_true_iff, orb_false_iff.
  rewrite F64.not_nan_spec, eqb_spec, abs_spec.
  change (Prim2SF infinity) with (S754_infinity false).
  destruct (Prim2SF a) as [s | s | | s m e]; simpl; intros [Hn Hi];
    try exact I; try discriminate; congruence.
Qed.

Lemma SFsub_equal_finite (x y : spec_float) :
  SFeqb x y = true ->
  match x with S754_zero _ | S754_finite _ _ _ => True | _ => False end ->
  exists s, SF64sub x y = S754_zero s.
Proof.
  intros Heq Hfin. pose proof (F64.SFsub_equal x y Heq) as H.
  destruct (SF64sub x y) as [s | s | | s m e] eqn:E; try contradiction; eauto.
  exfalso. clear H.
  unfold SFeqb, SFcompare in Heq. unfold SF64sub, SFsub in E.
  destruct x as [[|] | [|] | | [|] mx ex]; try contradiction;
    destruct y as [[|] | [|] | | [|] my ey]; try discriminate.
  all: destruct (Z.compare_spec ex ey); try discriminate;
    change (Pos.compare_cont Eq mx my) with (Pos.compare mx my) in Heq;
    destruct (Pos.compare_spec mx my); try discriminate; subst;
    rewrite Z.min_id in E; unfold shl_align in E; rewrite Z.sub_diag in E;
    simpl in E; rewrite ?Z.pos_sub_diag in E; discriminate.
Qed.

(** C8: when the maximum and the minimum of the compressed magnitude are
    equal, [scale_spectrogram] raises nothing and returns a magnitude
    array all of whose cells are NaN; the divisor [M - m] is a zero
    whenever [M] is finite. *)
Theorem scale_spectrogram_constant
        (X : ndarray (complex float)) (M m : float) :
  @amax float N64 (@compressed float N64 X) = Ok M ->
  @amin float N64 (@compressed float N64 X) = Ok m ->
  PrimFloat.eqb M m = true ->
  exists out ph,
    @scale_spectrogram float N64 X = Ok (out, ph) /\
    flat out <> [] /\
    Forall (fun v => PrimFloat.is_nan v = true) (flat out) /\
    (PrimFloat.is_finite M = true -> PrimFloat.is_zero (M - m) = true).
Proof.
  intros HM Hm Heq.
  unfold scale_spectrogram. fold (@compressed float N64 X).
  rewrite HM, Hm. simpl. eexists _, _. split; [reflexivity |].
  unfold amax, amin, reduce in HM, Hm.
  rewrite flat_amap.
  destruct (flat (compressed X)) as [| v vs] eqn:Hflat; [discriminate |].
  injection HM as HM. injection Hm as Hm.
  assert (HnM : PrimFloat.is_nan M = false).
  { apply F64.not_nan_spec. rewrite eqb_spec in Heq. unfold SFeqb in Heq.
    intros E. rewrite E in Heq. discriminate. }
  assert (Hnm : PrimFloat.is_nan m = false).
  { apply F64.not_nan_spec. rewrite eqb_spec in Heq. unfold SFeqb in Heq.
    intros E. rewrite E in Heq. destruct (Prim2SF M); discriminate. }
  pose proof (F64.fold_maximum_upper vs v) as Hup. simpl in Hup.
  change (@np_maximum float N64) with fmaximum in HM.
  change (@np_minimum float N64) with fminimum in Hm.
  rewrite HM in Hup. specialize (Hup HnM).
  pose proof (F64.fold_minimum_lower vs v) as Hlo. simpl in Hlo.
  rewrite Hm in Hlo. specialize (Hlo Hnm).
  split; [discriminate |]. split.
  - apply Forall_forall. intros q Hq. apply in_map_iff in Hq.
    destruct Hq as (u & <- & Hu).
    rewrite Forall_forall in Hup, Hlo.
    apply F64.quotient_of_equal; auto.
  - intros Hfin. apply is_zero_spec. rewrite sub_spec.
    apply SFsub_equal_finite; [now rewrite <- eqb_spec |].
    now apply is_finite_spec.
Qed.

End ConstantMagnitude.

Module ConstantFacts.

Import Examples.

Lemma scale_spectrogram_constant_witness :
  exists out ph,
    @scale_spectrogram float (float64 axis_libm) all_two = Ok (out, ph) /\
    flat out <> [] /\
    Forall (fun v => PrimFloat.is_nan v = true) (flat out) /\
    (PrimFloat.is_finite (PrimFloat.sqrt 2) = true ->
     PrimFloat.is_zero (PrimFloat.sqrt 2 - PrimFloat.sqrt 2) = true).
Proof.
  apply (scale_spectrogram_constant axis_libm all_two
           (PrimFloat.sqrt 2) (PrimFloat.sqrt 2)); reflexivity.
Defined.

End ConstantFacts.

(* ================================================================== *)
(** * Rounding against the idealised laws                              *)
(* ================================================================== *)

Section Unfolding.

Context {F : Type} {N : Numpy F}.

Lemma scale_spectrogram_unfold (X : ndarray (complex F)) :
  scale_spectrogram X
  = (M <- amax (compressed X) ;;
     m <- amin (compressed X) ;;
     Ok (amap (fun v => np_divide (np_subtract v m) (np_subtract M m))
              (compressed X),
         np_unwrap (np_angle X))).
Proof. reflexivity. Qed.

End Unfolding.

Module RoundingFacts.

Import Examples.

(** C7 as stated fails on [near_one]: its two magnitudes differ, their
    square roots are both [1.0], the quotient is [0/0] in both cells; the
    minimum and the maximum of the result are NaN, not [0.0] and [1.0]. *)
Lemma scale_spectrogram_near_one :
  flat near_one <> [] /\
  @magnitude_varies float axis64 differ near_one /\
  @scale_spectrogram float axis64 near_one
  = Ok ({| nrows := 1; ncols := 2; rows := [[nan; nan]] |},
        {| nrows := 1; ncols := 2; rows := [[0%float; 0%float]] |}) /\
  ~ @unit_range float axis64 PrimFloat.eqb 0%float 1%float
      (@scale_spectrogram float axis64 near_one).
Proof.
  split; [discriminate |]. split; [| split].
  - exists 1%float, 0x1.0000000000001p+0%float.
    repeat split; simpl; auto.
  - vm_compute. reflexivity.
  - intros (out & ph & lo & hi & Hr & Hlo & Hhi & Hz & Ho).
    vm_compute in Hr. injection Hr as <- <-.
    vm_compute in Hlo. injection Hlo as <-.
    vm_compute in Hz. discriminate.
Qed.

(** The same cells for every C library that is right on the real axis. *)
Lemma near_one_any_libm (L : libm) :
  hypot_axis_law L ->
  @scale_spectrogram float (float64 L) near_one
  = Ok ({| nrows := 1; ncols := 2; rows := [[nan; nan]] |},
        @np_unwrap float (float64 L) (@np_angle float (float64 L) near_one)).
Proof.
  intros Hlaw. rewrite scale_spectrogram_unfold.
  assert (Hc : @compressed float (float64 L) near_one
               = {| nrows := 1; ncols := 2; rows := [[1%float; 1%float]] |}).
  { unfold compressed, np_abs, amap, near_one, real_row. simpl.
    rewrite !Hlaw. reflexivity. }
  rewrite Hc. reflexivity.
Qed.


(** The same two magnitude arrays for every C library that is right on the
    real axis. *)
Lemma times_three_any_libm (L : libm) :
  hypot_axis_law L ->
  fst_magnitude (@scale_spectrogram float (float64 L) one_two_three)
  = Some [[0%float; 0x1.21b3fa6393181p-1%float; 1%float]] /\
  fst_magnitude (@scale_spectrogram float (float64 L)
                   (@scalar_times float (float64 L) 3%float one_two_three))
  = Some [[0%float; 0x1.21b3fa639317ep-1%float; 1%float]].
Proof.
  intros Hlaw. destruct L as [h a u]. unfold hypot_axis_law in Hlaw.
  cbn [hypot] in Hlaw.
  rewrite !scale_spectrogram_unfold.
  assert (H1 : @compressed float (float64 (Libm h a u)) one_two_three
               = {| nrows := 1; ncols := 3;
                    rows := [[1%float; PrimFloat.sqrt 2; PrimFloat.sqrt 3]] |}).
  { unfold compressed, np_abs, amap, one_two_three, real_row.
    cbn [rows nrows ncols map re im np_hypot np_sqrt float64 hypot length].
    rewrite !Hlaw. reflexivity. }
  assert (H3 : @compressed float (float64 (Libm h a u))
                 (@scalar_times float (float64 (Libm h a u)) 3%float one_two_three)
               = {| nrows := 1; ncols := 3;
                    rows := [[PrimFloat.sqrt 3; PrimFloat.sqrt 6; 3%float]] |}).
  { unfold compressed, np_abs, scalar_times, cmul, amap, one_two_three, real_row.
    cbn [rows nrows ncols map re im np_hypot np_sqrt np_subtract np_add
              np_multiply np_zero float64 hypot length].
    change (3 * 0 + 0 * 1)%float with 0%float.
    change (3 * 0 + 0 * 2)%float with 0%float.
    change (3 * 0 + 0 * 3)%float with 0%float.
    rewrite !Hlaw. reflexivity. }
  rewrite H1, H3. split; reflexivity.
Qed.

End RoundingFacts.

(* ================================================================== *)
(** * Binary64: rounding to nearest even                               *)
(* ================================================================== *)

Module Rounding.

Local Open Scope Z_scope.

(** ** The format *)

Lemma fexp_eq (z : Z) : fexp prec emax z = Z.max (z - 53) (-1074).
Proof. reflexivity. Qed.

Lemma digits_bounds (p : positive) :
  2 ^ (Zpos (digits2_pos p) - 1) <= Zpos p < 2 ^ Zpos (digits2_pos p).
Proof.
  induction p as [p IH | p IH |]; simpl digits2_pos.
  - rewrite Pos2Z.inj_succ.
    replace (Z.succ (Zpos (digits2_pos p)) - 1) with (Z.succ (Zpos (digits2_pos p) - 1)) by lia.
    rewrite !Z.pow_succ_r by lia. lia.
  - rewrite Pos2Z.inj_succ.
    replace (Z.succ (Zpos (digits2_pos p)) - 1) with (Z.succ (Zpos (digits2_pos p) - 1)) by lia.
    rewrite !Z.pow_succ_r by lia. lia.
  - simpl. lia.
Qed.

Lemma digits_pos (p : positive) : digits (Zpos p) = Zpos (digits2_pos p).
Proof. reflexivity. Qed.

Lemma digits_spec (k : Z) :
  0 < k -> 2 ^ (digits k - 1) <= k < 2 ^ digits k.
Proof.
  destruct k as [| p | p]; try lia. intros _. apply digits_bounds.
Qed.

Lemma digits_positive (k : Z) : 0 < k -> 0 < digits k.
Proof. destruct k; simpl; lia. Qed.

(** The digit count is the only [d] with [2^(d-1) <= k < 2^d]. *)
Lemma digits_unique (k d : Z) :
  0 < k -> 2 ^ (d - 1) <= k < 2 ^ d -> digits k = d.
Proof.
  intros Hk [Hlo Hhi].
  pose proof (digits_spec k Hk) as [Hlo' Hhi'].
  pose proof (digits_positive k Hk) as Hd.
  assert (0 < d).
  { destruct (Z_lt_le_dec 0 d); [assumption |].
    assert (2 ^ d <= 1).
    { destruct (Z.eq_dec d 0) as [-> | ?]; [simpl; lia |].
      rewrite Z.pow_neg_r by lia. lia. }
    lia. }
  destruct (Z_lt_le_dec (digits k) d) as [Hlt | Hge].
  - assert (2 ^ digits k <= 2 ^ (d - 1)) by (apply Z.pow_le_mono_r; lia). lia.
  - destruct (Z_lt_le_dec d (digits k)) as [Hlt | Hge']; [| lia].
    assert (2 ^ d <= 2 ^ (digits k - 1)) by (apply Z.pow_le_mono_r; lia). lia.
Qed.

Lemma digits_shift (k t : Z) :
  0 < k -> 0 <= t -> digits (k * 2 ^ t) = digits k + t.
Proof.
  intros Hk Ht. pose proof (digits_spec k Hk) as [Hlo Hhi].
  pose proof (digits_positive k Hk).
  assert (0 < 2 ^ t) by (apply Z.pow_pos_nonneg; lia).
  apply digits_unique; [nia |].
  replace (digits k + t - 1) with ((digits k - 1) + t) by lia.
  rewrite !Z.pow_add_r by lia. nia.
Qed.

Lemma digits_le (j k : Z) : 0 < j -> j <= k -> digits j <= digits k.
Proof.
  intros Hj Hjk.
  pose proof (digits_spec j Hj) as [Hlo _].
  pose proof (digits_spec k ltac:(lia)) as [_ Hhi].
  destruct (Z_lt_le_dec (digits k) (digits j)) as [Hlt | ?]; [| lia].
  assert (2 ^ digits k <= 2 ^ (digits j - 1)) by (apply Z.pow_le_mono_r; lia).
  lia.
Qed.

(** ** Non-negative numbers as multiples of the least subnormal *)

Lemma valid_finite (s : bool) (m : positive) (e : Z) :
  valid_binary (S754_finite s m e) = true ->
  -1074 <= e <= 971 /\ digits (Zpos m) <= 53 /\
  (-1074 < e -> digits (Zpos m) = 53).
Proof.
  unfold SpecFloat.valid_binary, SpecFloat.bounded, SpecFloat.canonical_mantissa.
  rewrite andb_true_iff, Z.eqb_eq, Z.leb_le, fexp_eq, digits_pos.
  change (emax - prec) with 971.
  lia.
Qed.

Lemma units_positive (s : bool) (m : positive) (e : Z) :
  -1074 <= e -> 0 < units (S754_finite s m e).
Proof.
  intros He. unfold units.
  apply Z.mul_pos_pos; [lia | apply Z.pow_pos_nonneg; lia].
Qed.

Lemma units_compare_finite (m1 m2 : positive) (e1 e2 : Z) :
  valid_binary (S754_finite false m1 e1) = true ->
  valid_binary (S754_finite false m2 e2) = true ->
  match Z.compare e1 e2 with
  | Lt => Lt
  | Gt => Gt
  | Eq => Pos.compare_cont Eq m1 m2
  end = (Zpos m1 * 2 ^ (e1 + 1074) ?= Zpos m2 * 2 ^ (e2 + 1074)).
Proof.
  intros H1 H2.
  apply valid_finite in H1, H2.
  destruct H1 as (He1 & Hd1 & Hn1). destruct H2 as (He2 & Hd2 & Hn2).
  pose proof (digits_spec (Zpos m1) ltac:(lia)) as [Hl1 Hh1].
  pose proof (digits_spec (Zpos m2) ltac:(lia)) as [Hl2 Hh2].
  assert (Hp1 : 0 < 2 ^ (e1 + 1074)) by (apply Z.pow_pos_nonneg; lia).
  assert (Hp2 : 0 < 2 ^ (e2 + 1074)) by (apply Z.pow_pos_nonneg; lia).
  assert (H53 : forall m, digits (Zpos m) <= 53 -> Zpos m < 2 ^ 53).
  { intros m Hd. pose proof (digits_spec (Zpos m) ltac:(lia)) as [_ Hh].
    assert (2 ^ digits (Zpos m) <= 2 ^ 53) by (apply Z.pow_le_mono_r; lia). lia. }
  assert (H52 : forall m, digits (Zpos m) = 53 -> 2 ^ 52 <= Zpos m).
  { intros m Hd. pose proof (digits_spec (Zpos m) ltac:(lia)) as [Hl _].
    rewrite Hd in Hl. exact Hl. }
  symmetry.
  destruct (Z.compare_spec e1 e2) as [-> | Hlt | Hgt].
  - change (Pos.compare_cont Eq m1 m2) with (Zpos m1 ?= Zpos m2).
    destruct (Z.compare_spec (Zpos m1) (Zpos m2)) as [E | E | E].
    + rewrite E. apply Z.compare_refl.
    + apply Z.compare_lt_iff. nia.
    + apply Z.compare_gt_iff. nia.
  - apply Z.compare_lt_iff.
    specialize (H53 m1 Hd1). specialize (H52 m2 (Hn2 ltac:(lia))).
    replace (e2 + 1074) with ((e1 + 1074) + (e2 - e1)) by lia.
    rewrite (Z.pow_add_r 2 (e1 + 1074) (e2 - e1)) by lia.
    assert (HQ : 2 ^ 1 <= 2 ^ (e2 - e1)) by (apply Z.pow_le_mono_r; lia).
    change (2 ^ 1) with 2 in HQ. change (2 ^ 53) with (2 * 2 ^ 52) in H53.
    set (Q := 2 ^ (e2 - e1)) in *. set (P := 2 ^ (e1 + 1074)) in *.
    set (T52 := 2 ^ 52) in *.
    assert (A1 : Zpos m1 * P < (2 * T52) * P) by (apply Z.mul_lt_mono_pos_r; lia).
    assert (A2 : (2 * T52) * P <= (2 * Zpos m2) * P)
      by (apply Z.mul_le_mono_nonneg_r; lia).
    assert (A3 : Zpos m2 * P * 2 <= Zpos m2 * P * Q)
      by (apply Z.mul_le_mono_nonneg_l; [apply Z.mul_nonneg_nonneg; lia | lia]).
    lia.
  - apply Z.compare_gt_iff.
    specialize (H53 m2 Hd2). specialize (H52 m1 (Hn1 ltac:(lia))).
    replace (e1 + 1074) with ((e2 + 1074) + (e1 - e2)) by lia.
    rewrite (Z.pow_add_r 2 (e2 + 1074) (e1 - e2)) by lia.
    assert (HQ : 2 ^ 1 <= 2 ^ (e1 - e2)) by (apply Z.pow_le_mono_r; lia).
    change (2 ^ 1) with 2 in HQ. change (2 ^ 53) with (2 * 2 ^ 52) in H53.
    set (Q := 2 ^ (e1 - e2)) in *. set (P := 2 ^ (e2 + 1074)) in *.
    set (T52 := 2 ^ 52) in *.
    assert (A1 : Zpos m2 * P < (2 * T52) * P) by (apply Z.mul_lt_mono_pos_r; lia).
    assert (A2 : (2 * T52) * P <= (2 * Zpos m1) * P)
      by (apply Z.mul_le_mono_nonneg_r; lia).
    assert (A3 : Zpos m1 * P * 2 <= Zpos m1 * P * Q)
      by (apply Z.mul_le_mono_nonneg_l; [apply Z.mul_nonneg_nonneg; lia | lia]).
    lia.
Qed.

(** On non-negative numbers of the format the comparison of the standard
    is the comparison of these integers. *)
Lemma compare_units (x y : spec_float) :
  valid_binary x = true -> valid_binary y = true -> nnf x -> nnf y ->
  SFcompare x y = Some (units x ?= units y).
Proof.
  intros Vx Vy Nx Ny.
  destruct x as [sx | sx | | [|] mx ex]; try contradiction;
    destruct y as [sy | sy | | [|] my ey]; try contradiction.
  - reflexivity.
  - pose proof (units_positive false my ey ltac:(apply valid_finite in Vy; lia)) as H.
    unfold SFcompare. f_equal. symmetry. apply Z.compare_lt_iff. exact H.
  - pose proof (units_positive false mx ex ltac:(apply valid_finite in Vx; lia)) as H.
    unfold SFcompare. f_equal. symmetry. apply Z.compare_gt_iff. exact H.
  - unfold SFcompare. f_equal. apply units_compare_finite; assumption.
Qed.


(** ** Rounding an integer to 53 significant bits *)

Lemma rne_bounds (k n : Z) : k / 2 ^ n <= rne k n <= k / 2 ^ n + 1.
Proof.
  unfold rne. destruct (_ <? _); [lia |].
  destruct (_ <? _); [lia |]. destruct (Z.even _); lia.
Qed.

Lemma rne_exact (k n : Z) : 0 < n -> k mod 2 ^ n = 0 -> rne k n = k / 2 ^ n.
Proof.
  intros Hn Hr. unfold rne. rewrite Hr.
  assert (0 < 2 ^ (n - 1)) by (apply Z.pow_pos_nonneg; lia).
  destruct (Z.ltb_spec 0 (2 ^ (n - 1))); [reflexivity | lia].
Qed.

Lemma rne_mono_same (k1 k2 n : Z) :
  0 < n -> k1 <= k2 -> k1 / 2 ^ n = k2 / 2 ^ n -> rne k1 n <= rne k2 n.
Proof.
  intros Hn Hle Hq. unfold rne. rewrite <- Hq.
  assert (Hp : 0 < 2 ^ n) by (apply Z.pow_pos_nonneg; lia).
  assert (Hrem : k1 mod 2 ^ n <= k2 mod 2 ^ n).
  { rewrite (Z.mod_eq k1), (Z.mod_eq k2), Hq by lia. lia. }
  destruct (Z.ltb_spec (k1 mod 2 ^ n) (2 ^ (n - 1)));
    destruct (Z.ltb_spec (k2 mod 2 ^ n) (2 ^ (n - 1)));
    destruct (Z.ltb_spec (2 ^ (n - 1)) (k1 mod 2 ^ n));
    destruct (Z.ltb_spec (2 ^ (n - 1)) (k2 mod 2 ^ n));
    destruct (Z.even (k1 / 2 ^ n)); lia.
Qed.

(** The quotient by [2^(digits - 53)] has 53 digits. *)
Lemma top_bits (k : Z) :
  0 < k -> 53 < digits k ->
  2 ^ 52 <= k / 2 ^ (digits k - 53) < 2 ^ 53.
Proof.
  intros Hk Hd. pose proof (digits_spec k Hk) as [Hlo Hhi].
  set (n := digits k - 53) in *.
  assert (Hp : 0 < 2 ^ n) by (apply Z.pow_pos_nonneg; lia).
  replace (digits k - 1) with (52 + n) in Hlo by lia.
  replace (digits k) with (53 + n) in Hhi by lia.
  rewrite Z.pow_add_r in Hlo, Hhi by lia.
  split.
  - apply Z.div_le_lower_bound; lia.
  - apply Z.div_lt_upper_bound; lia.
Qed.

Lemma round53_small (k : Z) : digits k <= 53 -> round53 k = k.
Proof.
  intros H. unfold round53. destruct (Z.leb_spec (digits k) 53); [reflexivity | lia].
Qed.

Lemma round53_large (k : Z) :
  53 < digits k ->
  round53 k = rne k (digits k - 53) * 2 ^ (digits k - 53).
Proof.
  intros H. unfold round53. destruct (Z.leb_spec (digits k) 53); [lia | reflexivity].
Qed.

(** A rounded number stays in the binade of its argument, upper end
    included. *)
Lemma round53_binade (k : Z) :
  0 < k -> 2 ^ (digits k - 1) <= round53 k <= 2 ^ digits k.
Proof.
  intros Hk. pose proof (digits_spec k Hk) as [Hlo Hhi].
  destruct (Z_le_gt_dec (digits k) 53) as [Hs | Hl].
  - rewrite round53_small by assumption. lia.
  - rewrite round53_large by lia.
    pose proof (top_bits k Hk ltac:(lia)) as [Hq1 Hq2].
    pose proof (rne_bounds k (digits k - 53)) as [Hr1 Hr2].
    set (n := digits k - 53) in *.
    assert (Hp : 0 < 2 ^ n) by (apply Z.pow_pos_nonneg; lia).
    replace (digits k - 1) with (52 + n) by lia.
    replace (digits k) with (53 + n) by lia.
    rewrite !Z.pow_add_r by lia.
    split.
    + apply Z.mul_le_mono_nonneg_r; lia.
    + apply Z.mul_le_mono_nonneg_r; lia.
Qed.

Lemma round53_mono (k1 k2 : Z) :
  0 < k1 -> k1 <= k2 -> round53 k1 <= round53 k2.
Proof.
  intros H1 Hle.
  pose proof (digits_le k1 k2 H1 Hle) as Hd.
  pose proof (round53_binade k1 H1) as [_ Hu].
  pose proof (round53_binade k2 ltac:(lia)) as [Hl _].
  destruct (Z.eq_dec (digits k1) (digits k2)) as [E | NE].
  - destruct (Z_le_gt_dec (digits k1) 53) as [Hs | Hg].
    + rewrite !round53_small by lia. exact Hle.
    + rewrite !round53_large by lia. rewrite <- E.
      set (n := digits k1 - 53) in *.
      assert (Hp : 0 < 2 ^ n) by (apply Z.pow_pos_nonneg; lia).
      apply Z.mul_le_mono_nonneg_r; [lia |].
      assert (Hq : k1 / 2 ^ n <= k2 / 2 ^ n) by (apply Z.div_le_mono; lia).
      destruct (Z.eq_dec (k1 / 2 ^ n) (k2 / 2 ^ n)) as [Eq | Nq].
      * apply rne_mono_same; [lia | exact Hle | exact Eq].
      * pose proof (rne_bounds k1 n). pose proof (rne_bounds k2 n). lia.
  - assert (2 ^ digits k1 <= 2 ^ (digits k2 - 1)) by (apply Z.pow_le_mono_r; lia).
    lia.
Qed.

Lemma rne_shift (k n t : Z) :
  0 < n -> 0 <= t -> rne (k * 2 ^ t) (n + t) = rne k n.
Proof.
  intros Hn Ht. unfold rne.
  assert (Hpt : 0 < 2 ^ t) by (apply Z.pow_pos_nonneg; lia).
  assert (Hpn : 0 < 2 ^ n) by (apply Z.pow_pos_nonneg; lia).
  assert (Hph : 0 < 2 ^ (n - 1)) by (apply Z.pow_pos_nonneg; lia).
  rewrite (Z.pow_add_r 2 n t) by lia.
  rewrite Z.div_mul_cancel_r by lia.
  rewrite Z.mul_mod_distr_r by lia.
  replace (n + t - 1) with ((n - 1) + t) by lia.
  rewrite (Z.pow_add_r 2 (n - 1) t) by lia.
  destruct (Z.ltb_spec (k mod 2 ^ n * 2 ^ t) (2 ^ (n - 1) * 2 ^ t));
    destruct (Z.ltb_spec (k mod 2 ^ n) (2 ^ (n - 1))); try nia.
  destruct (Z.ltb_spec (2 ^ (n - 1) * 2 ^ t) (k mod 2 ^ n * 2 ^ t));
    destruct (Z.ltb_spec (2 ^ (n - 1)) (k mod 2 ^ n)); try nia; reflexivity.
Qed.

Lemma round53_shift (k t : Z) :
  0 < k -> 0 <= t -> round53 (k * 2 ^ t) = round53 k * 2 ^ t.
Proof.
  intros Hk Ht.
  assert (Hpt : 0 < 2 ^ t) by (apply Z.pow_pos_nonneg; lia).
  pose proof (digits_shift k t Hk Ht) as Hd.
  pose proof (digits_positive k Hk) as Hdp.
  destruct (Z_le_gt_dec (digits k) 53) as [Hs | Hg].
  - rewrite (round53_small k) by assumption.
    destruct (Z_le_gt_dec (digits k + t) 53) as [Hs' | Hg'].
    + apply round53_small. lia.
    + rewrite round53_large by lia. rewrite Hd.
      set (n := digits k + t - 53).
      assert (Hsplit : k * 2 ^ t = (k * 2 ^ (t - n)) * 2 ^ n).
      { rewrite <- Z.mul_assoc, <- Z.pow_add_r by lia. f_equal. f_equal. lia. }
      assert (Hpn : 0 < 2 ^ n) by (apply Z.pow_pos_nonneg; lia).
      rewrite rne_exact; [| lia |].
      * rewrite Hsplit at 1. rewrite Z.div_mul by lia. lia.
      * rewrite Hsplit. apply Z.mod_mul. lia.
  - rewrite !round53_large by lia. rewrite Hd.
    replace (digits k + t - 53) with ((digits k - 53) + t) by lia.
    rewrite rne_shift by lia.
    rewrite Z.pow_add_r by lia. ring.
Qed.

(** A number of at most 53 significant bits is left as it is. *)
Lemma round53_representable (p t : Z) :
  0 < p -> digits p <= 53 -> 0 <= t -> round53 (p * 2 ^ t) = p * 2 ^ t.
Proof.
  intros Hp Hd Ht. rewrite round53_shift by assumption.
  now rewrite round53_small.
Qed.


(** ** The shifts of the rounding procedure *)

Lemma iter_pos_nat {A : Type} (f : A -> A) (p : positive) (x : A) :
  SpecFloat.iter_pos f p x = Nat.iter (Pos.to_nat p) f x.
Proof.
  revert x. induction p as [p IH | p IH |]; intros x; cbn [SpecFloat.iter_pos].
  - rewrite !IH, Pos2Nat.inj_xI.
    replace (S (2 * Pos.to_nat p))%nat with (Pos.to_nat p + S (Pos.to_nat p))%nat by lia.
    rewrite Nat.iter_add, Nat.iter_succ_r. reflexivity.
  - rewrite !IH, Pos2Nat.inj_xO.
    replace (2 * Pos.to_nat p)%nat with (Pos.to_nat p + Pos.to_nat p)%nat by lia.
    rewrite Nat.iter_add. reflexivity.
  - reflexivity.
Qed.

Lemma shr_1_spec (m : Z) (r s : bool) :
  0 <= m ->
  shr_1 {| shr_m := m; shr_r := r; shr_s := s |}
  = {| shr_m := m / 2; shr_r := Z.odd m; shr_s := r || s |}.
Proof.
  intros Hm. rewrite <- Z.div2_div.
  destruct m as [| [p | p |] | p]; try reflexivity. lia.
Qed.

Lemma mod_pow2_succ (m k : Z) :
  0 <= k ->
  m mod 2 ^ (k + 1) = m mod 2 ^ k + 2 ^ k * ((m / 2 ^ k) mod 2).
Proof.
  intros Hk. rewrite Z.pow_add_r by lia. change (2 ^ 1) with 2.
  apply Z.rem_mul_r; [| lia].
  assert (0 < 2 ^ k) by (apply Z.pow_pos_nonneg; lia). lia.
Qed.

Lemma odd_mod2 (a : Z) : a mod 2 = if Z.odd a then 1 else 0.
Proof. rewrite Zmod_odd. reflexivity. Qed.

(** The state after [n + 1] shifts of a record that starts exact. *)
Lemma shr_iter (n : nat) (m : Z) :
  0 <= m ->
  Nat.iter (S n) shr_1 {| shr_m := m; shr_r := false; shr_s := false |}
  = {| shr_m := m / 2 ^ Z.of_nat (S n);
       shr_r := Z.odd (m / 2 ^ Z.of_nat n);
       shr_s := negb (m mod 2 ^ Z.of_nat n =? 0) |}.
Proof.
  intros Hm. induction n as [| n IH].
  - cbn [Nat.iter nat_rect]. rewrite shr_1_spec by assumption.
    change (2 ^ Z.of_nat 1) with 2. change (2 ^ Z.of_nat 0) with 1.
    rewrite Z.div_1_r, Z.mod_1_r. reflexivity.
  - remember (S n) as k eqn:Ek. cbn [Nat.iter nat_rect].
    fold (Nat.iter k shr_1 {| shr_m := m; shr_r := false; shr_s := false |}).
    rewrite IH. subst k.
    assert (Hp : 0 < 2 ^ Z.of_nat (S n)) by (apply Z.pow_pos_nonneg; lia).
    rewrite shr_1_spec by (apply Z.div_pos; lia).
    f_equal.
    + rewrite Z.div_div by lia.
      rewrite (Nat2Z.inj_succ (S n)), Z.pow_succ_r by lia.
      f_equal. ring.
    + rewrite (Nat2Z.inj_succ n).
      unfold Z.succ. rewrite (mod_pow2_succ m (Z.of_nat n)) by lia.
      rewrite odd_mod2.
      assert (Hq : 0 < 2 ^ Z.of_nat n) by (apply Z.pow_pos_nonneg; lia).
      pose proof (Z.mod_pos_bound m (2 ^ Z.of_nat n) Hq) as Hb.
      destruct (Z.odd (m / 2 ^ Z.of_nat n)); simpl.
      * destruct (Z.eqb_spec (m mod 2 ^ Z.of_nat n + 2 ^ Z.of_nat n * 1) 0);
          [lia | reflexivity].
      * rewrite Z.mul_0_r, Z.add_0_r. reflexivity.
Qed.

(** The mantissa after any number of shifts, whatever the location bits. *)
Lemma shr_iter_m (n : nat) (rec : shr_record) :
  0 <= shr_m rec ->
  shr_m (Nat.iter n shr_1 rec) = shr_m rec / 2 ^ Z.of_nat n.
Proof.
  intros Hm. induction n as [| n IH].
  - simpl. now rewrite Z.div_1_r.
  - assert (Hp : 0 < 2 ^ Z.of_nat n) by (apply Z.pow_pos_nonneg; lia).
    cbn [Nat.iter nat_rect]. fold (Nat.iter n shr_1 rec).
    destruct (Nat.iter n shr_1 rec) as [m' r' s']. cbn [shr_m] in IH.
    rewrite shr_1_spec by (rewrite IH; apply Z.div_pos; lia).
    cbn [shr_m]. rewrite IH, Z.div_div by lia.
    rewrite Nat2Z.inj_succ, Z.pow_succ_r by lia. f_equal. ring.
Qed.

(** Shifting an exact record by [n] places and rounding it to nearest even
    is [rne]. *)
Lemma shr_rne (p : positive) (m : Z) :
  0 <= m ->
  let rec := SpecFloat.iter_pos shr_1 p {| shr_m := m; shr_r := false; shr_s := false |} in
  round_nearest_even (shr_m rec) (loc_of_shr_record rec) = rne m (Zpos p).
Proof.
  intros Hm rec. subst rec. rewrite iter_pos_nat.
  destruct (Pos.to_nat p) as [| n] eqn:En; [lia |].
  rewrite shr_iter by assumption.
  assert (Hn : Zpos p = Z.of_nat n + 1) by lia.
  rewrite Nat2Z.inj_succ. unfold Z.succ. rewrite Hn.
  unfold rne. replace (Z.of_nat n + 1 - 1) with (Z.of_nat n) by lia.
  rewrite (mod_pow2_succ m (Z.of_nat n)) by lia.
  rewrite odd_mod2.
  assert (Hq : 0 < 2 ^ Z.of_nat n) by (apply Z.pow_pos_nonneg; lia).
  pose proof (Z.mod_pos_bound m (2 ^ Z.of_nat n) Hq) as Hb.
  set (h := 2 ^ Z.of_nat n) in *. set (b := m mod h) in *.
  set (q := m / 2 ^ (Z.of_nat n + 1)).
  destruct (Z.odd (m / h)); simpl.
  - rewrite Z.mul_1_r.
    destruct (Z.ltb_spec (b + h) h); [lia |].
    destruct (Z.eqb_spec b 0) as [E | E]; simpl.
    + destruct (Z.ltb_spec h (b + h)); [lia | reflexivity].
    + destruct (Z.ltb_spec h (b + h)); [reflexivity | lia].
  - rewrite Z.mul_0_r, Z.add_0_r.
    destruct (Z.ltb_spec b h); [| lia].
    destruct (Z.eqb_spec b 0); reflexivity.
Qed.

Lemma round_nearest_even_bounds (m : Z) (l : location) :
  m <= round_nearest_even m l <= m + 1.
Proof.
  destruct l as [| [| |]]; simpl; try lia. destruct (Z.even m); lia.
Qed.


(** ** Rounding an exact integer mantissa *)

Lemma pos_iter_xO (m d : positive) :
  Zpos (Pos.iter xO m d) = Zpos m * 2 ^ Zpos d.
Proof.
  induction d as [| d IH] using Pos.peano_ind.
  - simpl. lia.
  - rewrite Pos.iter_succ, Pos2Z.inj_xO, IH, Pos2Z.inj_succ, Z.pow_succ_r by lia.
    ring.
Qed.

(** Alignment to a smaller exponent multiplies the mantissa. *)
Lemma shl_align_le (m : positive) (e e' : Z) :
  e' <= e ->
  Zpos (fst (shl_align m e e')) = Zpos m * 2 ^ (e - e') /\
  snd (shl_align m e e') = e'.
Proof.
  intros Hle. unfold shl_align.
  destruct (e' - e) as [| d | d] eqn:E; try lia; cbn [fst snd].
  - assert (e' = e) by lia. subst e'. rewrite Z.sub_diag, Z.pow_0_r. lia.
  - rewrite pos_iter_xO. split; [| reflexivity]. f_equal. f_equal. lia.
Qed.

Lemma shl_align_ge (m : positive) (e e' : Z) :
  e <= e' -> shl_align m e e' = (m, e).
Proof.
  intros Hle. unfold shl_align.
  destruct (e' - e) as [| d | d] eqn:E; try reflexivity. lia.
Qed.

(** A mantissa that is already in the format is left as it is. *)
Lemma round_aux_canonical (M : positive) (E : Z) :
  fexp prec emax (digits (Zpos M) + E) = E -> E <= 971 ->
  binary_round_aux prec emax false (Zpos M) E loc_Exact = S754_finite false M E.
Proof.
  intros Hc HE. unfold binary_round_aux, shr_fexp.
  change (Zdigits2 (Zpos M)) with (digits (Zpos M)).
  rewrite Hc, Z.sub_diag. simpl shr.
  cbn [shr_m round_nearest_even loc_of_shr_record shr_record_of_loc].
  change (Zdigits2 (Zpos M)) with (digits (Zpos M)).
  rewrite Hc, Z.sub_diag. simpl shr. cbn [shr_m].
  change (emax - prec) with 971.
  destruct (Z.leb_spec E 971); [reflexivity | lia].
Qed.

(** A mantissa of more than 53 bits is rounded to nearest even; the result
    has 53 bits, and overflows when its exponent passes 971. *)
Lemma round_aux_large (p : positive) (ez : Z) :
  53 < digits (Zpos p) -> -1074 <= ez ->
  exists m e,
    binary_round_aux prec emax false (Zpos p) ez loc_Exact
    = (if e <=? 971 then S754_finite false m e else S754_infinity false) /\
    ez <= e /\ 2 ^ 52 <= Zpos m < 2 ^ 53 /\
    Zpos m * 2 ^ (e - ez) = round53 (Zpos p).
Proof.
  intros Hd Hez.
  set (n := digits (Zpos p) - 53).
  assert (Hn : 0 < n) by (unfold n; lia).
  destruct n as [| pn | pn] eqn:En; try lia.
  pose proof (top_bits (Zpos p) ltac:(lia) Hd) as Htop. fold n in Htop.
  rewrite En in Htop.
  pose proof (rne_bounds (Zpos p) (Zpos pn)) as Hr.
  pose proof (shr_rne pn (Zpos p) ltac:(lia)) as Hrne. cbv zeta in Hrne.
  unfold binary_round_aux, shr_fexp.
  change (Zdigits2 (Zpos p)) with (digits (Zpos p)).
  rewrite fexp_eq.
  replace (Z.max (digits (Zpos p) + ez - 53) (-1074) - ez) with (Zpos pn) by lia.
  cbn [shr shr_record_of_loc]. rewrite Hrne.
  set (m2 := rne (Zpos p) (Zpos pn)) in *.
  rewrite (round53_large (Zpos p)) by lia. fold n. rewrite En. fold m2.
  destruct (Z_lt_le_dec m2 (2 ^ 53)) as [Hlt | Hge].
  - assert (Hd2 : digits m2 = 53) by (apply digits_unique; simpl; lia).
    change (Zdigits2 m2) with (digits m2). rewrite Hd2, fexp_eq.
    replace (Z.max (53 + (ez + Zpos pn) - 53) (-1074) - (ez + Zpos pn)) with 0 by lia.
    cbn [shr shr_m shr_record_of_loc].
    destruct m2 as [| q | q] eqn:Eq; try lia.
    exists q, (ez + Zpos pn). change (emax - prec) with 971.
    split; [reflexivity |]. split; [lia |]. split; [lia |].
    f_equal. f_equal. lia.
  - assert (Hm2 : m2 = 2 ^ 53) by lia. rewrite Hm2.
    exists (4503599627370496)%positive, (ez + Zpos pn + 1).
    split; [| split; [lia | split; [simpl; lia |]]].
    + change (Zdigits2 (2 ^ 53)) with 54. rewrite fexp_eq.
      replace (Z.max (54 + (ez + Zpos pn) - 53) (-1074) - (ez + Zpos pn)) with 1 by lia.
      reflexivity.
    + replace (ez + Zpos pn + 1 - ez) with (Zpos pn + 1) by lia.
      rewrite Z.pow_add_r by lia. change (2 ^ 53) with (4503599627370496 * 2 ^ 1).
      ring.
Qed.

(** Rounding a positive integer [p * 2^ez] of the subnormal grid: the
    result carries [round53 p], provided it does not overflow. *)
Lemma binary_round_units (p : positive) (ez : Z) :
  -1074 <= ez ->
  exists m e,
    binary_round prec emax false p ez
    = (if e <=? 971 then S754_finite false m e else S754_infinity false) /\
    -1074 <= e /\ digits (Zpos m) <= 53 /\
    (53 < digits (Zpos p) -> 2 ^ 52 <= Zpos m) /\
    (digits (Zpos p) <= 53 -> e <= ez) /\
    Zpos m * 2 ^ (e + 1074) = round53 (Zpos p) * 2 ^ (ez + 1074).
Proof.
  intros Hez. unfold binary_round.
  change (Zpos (digits2_pos p)) with (digits (Zpos p)).
  pose proof (digits_positive (Zpos p) ltac:(lia)) as Hdp.
  destruct (Z_le_gt_dec (digits (Zpos p)) 53) as [Hs | Hl].
  - set (e' := fexp prec emax (digits (Zpos p) + ez)).
    assert (He' : -1074 <= e' <= ez /\ digits (Zpos p) + ez - 53 <= e')
      by (unfold e'; rewrite fexp_eq; lia).
    destruct (shl_align_le p ez e' ltac:(lia)) as [Hm Hsnd].
    destruct (shl_align p ez e') as [M E]. cbn [fst snd] in Hm, Hsnd. subst E.
    assert (HdM : digits (Zpos M) = digits (Zpos p) + (ez - e'))
      by (rewrite Hm; apply digits_shift; lia).
    assert (Hc : fexp prec emax (digits (Zpos M) + e') = e').
    { rewrite HdM.
      replace (digits (Zpos p) + (ez - e') + e') with (digits (Zpos p) + ez) by lia.
      reflexivity. }
    exists M, e'.
    destruct (Z.leb_spec e' 971) as [H971 | H971].
    + rewrite round_aux_canonical by assumption.
      split; [reflexivity |]. split; [lia |]. split.
      * lia.
      * split; [lia |]. split; [lia |].
        rewrite round53_small, Hm by assumption.
        rewrite <- Z.mul_assoc, <- Z.pow_add_r by lia. f_equal. f_equal. lia.
    + (* the exponent of an exact result is at most [ez]; an overflow here
         needs [ez] above 971 *)
      split.
      * unfold binary_round_aux, shr_fexp.
        change (Zdigits2 (Zpos M)) with (digits (Zpos M)).
        rewrite Hc, Z.sub_diag. simpl shr.
        cbn [shr_m round_nearest_even loc_of_shr_record shr_record_of_loc].
        change (Zdigits2 (Zpos M)) with (digits (Zpos M)).
        rewrite Hc, Z.sub_diag. simpl shr. cbn [shr_m].
        change (emax - prec) with 971.
        destruct (Z.leb_spec e' 971); [lia | reflexivity].
      * split; [lia |]. split.
        { lia. }
        split; [lia |]. split; [lia |].
        rewrite round53_small, Hm by assumption.
        rewrite <- Z.mul_assoc, <- Z.pow_add_r by lia. f_equal. f_equal. lia.
  - rewrite shl_align_ge by (rewrite fexp_eq; lia).
    destruct (round_aux_large p ez ltac:(lia) Hez) as (m & e & Hr & He & Hm & Hv).
    exists m, e. split; [exact Hr |]. split; [lia |]. split.
    + assert (digits (Zpos m) = 53) by (apply digits_unique; simpl; lia). lia.
    + split; [intros _; lia |]. split; [lia |].
      rewrite <- Hv, <- Z.mul_assoc, <- Z.pow_add_r by lia.
      f_equal. f_equal. lia.
Qed.


(** ** Subtraction *)

Lemma units_representable (x : spec_float) :
  valid_binary x = true -> round53 (units x) = units x.
Proof.
  destruct x as [s | s | | s m e]; try reflexivity.
  intros V. apply valid_finite in V. destruct V as (He & Hd & _).
  unfold units. apply round53_representable; lia.
Qed.

Lemma units_nonneg (x : spec_float) : 0 <= units x.
Proof.
  destruct x as [s | s | | s m e]; unfold units; lia.
Qed.

Lemma units_bound (s : bool) (m : positive) (e : Z) :
  valid_binary (S754_finite s m e) = true ->
  units (S754_finite s m e) < 2 ^ 53 * 2 ^ (e + 1074).
Proof.
  intros V. apply valid_finite in V. destruct V as (He & Hd & _).
  unfold units.
  pose proof (digits_spec (Zpos m) ltac:(lia)) as [_ Hh].
  assert (2 ^ digits (Zpos m) <= 2 ^ 53) by (apply Z.pow_le_mono_r; lia).
  apply Z.mul_lt_mono_pos_r; [apply Z.pow_pos_nonneg; lia | lia].
Qed.

(** A number with a 53-bit mantissa below [2^53 * 2^(ex + 1074)] units
    has an exponent of at most [ex]. *)
Lemma exponent_le (m e ex : Z) :
  2 ^ 52 <= m -> -1074 <= e -> -1074 <= ex ->
  m * 2 ^ (e + 1074) < 2 ^ 53 * 2 ^ (ex + 1074) -> e <= ex.
Proof.
  intros Hm He Hex Hlt.
  destruct (Z_le_gt_dec e ex) as [? | Hgt]; [assumption | exfalso].
  assert (Hp : 2 ^ (ex + 1074 + 1) <= 2 ^ (e + 1074)) by (apply Z.pow_le_mono_r; lia).
  rewrite Z.pow_add_r in Hp by lia. change (2 ^ 1) with 2 in Hp.
  assert (Hq : 0 < 2 ^ (ex + 1074)) by (apply Z.pow_pos_nonneg; lia).
  change (2 ^ 53) with (2 ^ 52 * 2) in Hlt.
  set (P := 2 ^ (ex + 1074)) in *. set (Q := 2 ^ (e + 1074)) in *.
  set (T52 := 2 ^ 52) in *.
  assert (0 < T52) by (unfold T52; lia).
  assert (T52 * Q <= m * Q) by (apply Z.mul_le_mono_nonneg_r; lia).
  assert (T52 * (P * 2) <= T52 * Q) by (apply Z.mul_le_mono_nonneg_l; lia).
  lia.
Qed.

(** The difference of two non-negative numbers of the format, the larger
    first, is the rounding of the exact difference; it does not overflow. *)
Lemma SFsub_units (x y : spec_float) :
  valid_binary x = true -> valid_binary y = true -> nnf x -> nnf y ->
  units y <= units x ->
  nnf (SF64sub x y) /\
  units (SF64sub x y) = round53 (units x - units y).
Proof.
  intros Vx Vy Nx Ny Hle.
  destruct x as [sx | sx | | [|] mx ex]; try contradiction;
    destruct y as [sy | sy | | [|] my ey]; try contradiction.
  - destruct sx, sy; simpl; auto.
  - exfalso.
    pose proof (units_positive false my ey ltac:(apply valid_finite in Vy; lia)).
    change (units (S754_zero sx)) with 0 in Hle. lia.
  - split; [exact I |].
    change (SF64sub (S754_finite false mx ex) (S754_zero sy))
      with (S754_finite false mx ex).
    change (units (S754_zero sy)) with 0. rewrite Z.sub_0_r.
    symmetry. apply units_representable, Vx.
  - pose proof (valid_finite _ _ _ Vx) as (Hex & Hdx & _).
    pose proof (valid_finite _ _ _ Vy) as (Hey & Hdy & _).
    unfold SF64sub, SFsub. cbn [cond_Zopp].
    set (ez := Z.min ex ey).
    destruct (shl_align_le mx ex ez ltac:(lia)) as [Hmx _].
    destruct (shl_align_le my ey ez ltac:(lia)) as [Hmy _].
    rewrite Hmx, Hmy.
    assert (Hez : -1074 <= ez) by lia.
    assert (Hpz : 0 < 2 ^ (ez + 1074)) by (apply Z.pow_pos_nonneg; lia).
    assert (HK : units (S754_finite false mx ex) - units (S754_finite false my ey)
                 = (Zpos mx * 2 ^ (ex - ez) - Zpos my * 2 ^ (ey - ez)) * 2 ^ (ez + 1074)).
    { unfold units. rewrite Z.mul_sub_distr_r, <- !Z.mul_assoc, <- !Z.pow_add_r by lia.
      f_equal; f_equal; f_equal; lia. }
    rewrite HK.
    set (D := Zpos mx * 2 ^ (ex - ez) - Zpos my * 2 ^ (ey - ez)) in *.
    assert (HD : 0 <= D) by nia.
    destruct D as [| p | p] eqn:ED; try lia.
    + simpl. auto.
    + unfold binary_normalize.
      destruct (binary_round_units p ez Hez) as (m & e & Hr & He & Hdm & Hbig & Hsmall & Hv).
      rewrite Hr.
      assert (Hshift : round53 (Zpos p) * 2 ^ (ez + 1074)
                       = round53 (Zpos p * 2 ^ (ez + 1074)))
        by (symmetry; apply round53_shift; lia).
      assert (He971 : e <= 971).
      { destruct (Z_le_gt_dec (digits (Zpos p)) 53) as [Hs | Hl].
        - specialize (Hsmall Hs). lia.
        - specialize (Hbig ltac:(lia)).
          assert (e <= ex); [| lia].
          apply (exponent_le (Zpos m)); try lia.
          rewrite Hv, Hshift, <- HK.
          pose proof (units_bound false mx ex Vx) as Hb.
          pose proof (units_nonneg (S754_finite false my ey)) as Hy0.
          pose proof (units_representable _ Vx) as Hrep.
          pose proof (round53_mono
                        (units (S754_finite false mx ex) - units (S754_finite false my ey))
                        (units (S754_finite false mx ex))
                        ltac:(rewrite HK; nia) ltac:(lia)) as Hmono.
          lia. }
      destruct (Z.leb_spec e 971); [| lia].
      split; [exact I |]. unfold units at 1. rewrite Hv. exact Hshift.
Qed.

(** Subtraction of a smaller non-negative number is monotone, and the
    difference of different numbers is not zero. *)
Lemma SFsub_mono (y x z : spec_float) :
  valid_binary x = true -> valid_binary y = true -> valid_binary z = true ->
  nnf x -> nnf y -> nnf z ->
  units y <= units x -> units x <= units z ->
  units (SF64sub x y) <= units (SF64sub z y).
Proof.
  intros Vx Vy Vz Nx Ny Nz Hyx Hxz.
  destruct (SFsub_units x y Vx Vy Nx Ny Hyx) as [_ ->].
  destruct (SFsub_units z y Vz Vy Nz Ny ltac:(lia)) as [_ ->].
  destruct (Z.eq_dec (units x - units y) 0) as [E | NE].
  - rewrite E. change (round53 0) with 0.
    destruct (Z.eq_dec (units z - units y) 0) as [E' | NE'].
    + rewrite E'. reflexivity.
    + pose proof (round53_binade (units z - units y) ltac:(lia)) as [Hl _].
      assert (0 < 2 ^ (digits (units z - units y) - 1)); [| lia].
      apply Z.pow_pos_nonneg; [lia |].
      pose proof (digits_positive (units z - units y) ltac:(lia)). lia.
  - apply round53_mono; lia.
Qed.

Lemma SFsub_positive (x y : spec_float) :
  valid_binary x = true -> valid_binary y = true -> nnf x -> nnf y ->
  units y < units x -> 0 < units (SF64sub x y).
Proof.
  intros Vx Vy Nx Ny Hlt.
  destruct (SFsub_units x y Vx Vy Nx Ny ltac:(lia)) as [_ ->].
  pose proof (round53_binade (units x - units y) ltac:(lia)) as [Hl _].
  assert (0 < 2 ^ (digits (units x - units y) - 1)); [| lia].
  apply Z.pow_pos_nonneg; [lia |].
  pose proof (digits_positive (units x - units y) ltac:(lia)). lia.
Qed.


(** ** Division *)

Lemma shr_spec (rec : shr_record) (e n : Z) :
  0 <= shr_m rec ->
  snd (shr rec e n) = e + Z.max n 0 /\
  shr_m (fst (shr rec e n)) = shr_m rec / 2 ^ Z.max n 0.
Proof.
  intros Hm. destruct n as [| p | p]; cbn [shr fst snd].
  - rewrite Z.max_id, Z.add_0_r, Z.pow_0_r, Z.div_1_r. auto.
  - rewrite Z.max_l by lia. split; [reflexivity |].
    rewrite iter_pos_nat, shr_iter_m, positive_nat_Z by assumption. reflexivity.
  - rewrite Z.max_r by lia. rewrite Z.add_0_r, Z.pow_0_r, Z.div_1_r. auto.
Qed.

Lemma shr_m_of_loc (m : Z) (l : location) : shr_m (shr_record_of_loc m l) = m.
Proof. destruct l as [| [| |]]; reflexivity. Qed.

Lemma digits_lt_pow (q u : Z) : 0 <= q < 2 ^ u -> 0 <= u -> digits q <= u.
Proof.
  intros [Hq Hlt] Hu.
  destruct (Z.eq_dec q 0) as [-> | Hne]; [simpl; lia |].
  pose proof (digits_spec q ltac:(lia)) as [Hlo _].
  destruct (Z_le_gt_dec (digits q) u) as [? | Hgt]; [assumption | exfalso].
  assert (2 ^ u <= 2 ^ (digits q - 1)) by (apply Z.pow_le_mono_r; lia). lia.
Qed.

Lemma div_pow2_bound (a u k : Z) :
  0 <= k -> k <= u -> 0 <= a <= 2 ^ u -> 0 <= a / 2 ^ k <= 2 ^ (u - k).
Proof.
  intros Hk Hku [Ha Hle].
  assert (Hp : 0 < 2 ^ k) by (apply Z.pow_pos_nonneg; lia).
  split; [apply Z.div_pos; lia |].
  replace u with ((u - k) + k) in Hle by lia.
  rewrite Z.pow_add_r in Hle by lia.
  apply Z.div_le_upper_bound; lia.
Qed.

(** Rounding a quantity below one gives at most one. *)
Lemma round_aux_below_one (q e' : Z) (loc : location) :
  e' <= 0 -> 0 <= q < 2 ^ (- e') ->
  binary_round_aux prec emax false q e' loc = S754_zero false \/
  exists m e,
    binary_round_aux prec emax false q e' loc = S754_finite false m e /\
    e <= 0 /\ Zpos m <= 2 ^ (- e).
Proof.
  intros He' Hq. unfold binary_round_aux, shr_fexp.
  change (Zdigits2 q) with (digits q).
  pose proof (digits_lt_pow q (- e') Hq ltac:(lia)) as Hdq.
  set (n1 := fexp prec emax (digits q + e') - e').
  assert (Hn1 : e' + Z.max n1 0 <= -53 \/ (e' + Z.max n1 0 = e' /\ n1 <= 0)).
  { unfold n1. rewrite fexp_eq. lia. }
  destruct (shr_spec (shr_record_of_loc q loc) e' n1
              ltac:(rewrite shr_m_of_loc; lia)) as [He1 Hm1].
  rewrite shr_m_of_loc in Hm1.
  destruct (shr (shr_record_of_loc q loc) e' n1) as [mrs1 e1].
  cbn [fst snd] in He1, Hm1.
  set (m2 := round_nearest_even (shr_m mrs1) (loc_of_shr_record mrs1)).
  pose proof (round_nearest_even_bounds (shr_m mrs1) (loc_of_shr_record mrs1)) as Hb.
  fold m2 in Hb.
  assert (He1' : e1 <= 0) by lia.
  assert (Hm1' : 0 <= shr_m mrs1 < 2 ^ (- e1)).
  { rewrite Hm1, He1.
    assert (Hp : 0 < 2 ^ Z.max n1 0) by (apply Z.pow_pos_nonneg; lia).
    split; [apply Z.div_pos; lia |].
    apply Z.div_lt_upper_bound; [lia |].
    rewrite <- Z.pow_add_r by lia.
    replace (Z.max n1 0 + - (e' + Z.max n1 0)) with (- e') by lia. lia. }
  assert (Hm2 : 0 <= m2 <= 2 ^ (- e1)) by lia.
  change (Zdigits2 m2) with (digits m2).
  assert (Hd2 : digits m2 <= - e1 + 1).
  { apply digits_lt_pow; [| lia].
    rewrite Z.pow_add_r by lia. change (2 ^ 1) with 2.
    assert (0 < 2 ^ (- e1)) by (apply Z.pow_pos_nonneg; lia). lia. }
  set (n2 := fexp prec emax (digits m2 + e1) - e1).
  assert (Hn2 : e1 + Z.max n2 0 <= 0) by (unfold n2; rewrite fexp_eq; lia).
  destruct (shr_spec (shr_record_of_loc m2 loc_Exact) e1 n2
              ltac:(rewrite shr_m_of_loc; lia)) as [He2 Hm3].
  rewrite shr_m_of_loc in Hm3.
  destruct (shr (shr_record_of_loc m2 loc_Exact) e1 n2) as [mrs2 e2].
  cbn [fst snd] in He2, Hm3.
  pose proof (div_pow2_bound m2 (- e1) (Z.max n2 0) ltac:(lia) ltac:(lia) Hm2) as Hm3'.
  rewrite <- Hm3 in Hm3'.
  replace (- e1 - Z.max n2 0) with (- e2) in Hm3' by lia.
  destruct (shr_m mrs2) as [| m | m]; [left; reflexivity | right | lia].
  exists m, e2. change (emax - prec) with 971.
  destruct (Z.leb_spec e2 971); [| lia].
  split; [reflexivity |]. split; [lia | lia].
Qed.

(** The quotient of a positive number by a larger one is at most one. *)
Lemma SFdiv_below_one (ma md : positive) (ea ed : Z) :
  -1074 <= ea -> -1074 <= ed ->
  Zpos ma * 2 ^ (ea + 1074) < Zpos md * 2 ^ (ed + 1074) ->
  let r := SF64div (S754_finite false ma ea) (S754_finite false md ed) in
  r = S754_zero false \/
  exists m e, r = S754_finite false m e /\ e <= 0 /\ Zpos m <= 2 ^ (- e).
Proof.
  intros Hea Hed Hlt r. subst r.
  unfold SF64div, SFdiv, SFdiv_core_binary. cbn [xorb].
  change (Zdigits2 (Zpos ma)) with (digits (Zpos ma)).
  change (Zdigits2 (Zpos md)) with (digits (Zpos md)).
  pose proof (digits_spec (Zpos ma) ltac:(lia)) as [Hla _].
  pose proof (digits_spec (Zpos md) ltac:(lia)) as [_ Hhd].
  pose proof (digits_positive (Zpos ma) ltac:(lia)) as Hda.
  pose proof (digits_positive (Zpos md) ltac:(lia)) as Hdd.
  assert (Hdelta : digits (Zpos ma) + ea - (digits (Zpos md) + ed) <= 0).
  { destruct (Z_le_gt_dec (digits (Zpos ma) + ea - (digits (Zpos md) + ed)) 0)
      as [? | Hgt]; [assumption | exfalso].
    assert (Hpa : 0 < 2 ^ (ea + 1074)) by (apply Z.pow_pos_nonneg; lia).
    assert (Hpd : 0 < 2 ^ (ed + 1074)) by (apply Z.pow_pos_nonneg; lia).
    assert (H1 : 2 ^ (digits (Zpos ma) - 1) * 2 ^ (ea + 1074)
                 <= Zpos ma * 2 ^ (ea + 1074))
      by (apply Z.mul_le_mono_nonneg_r; lia).
    assert (H2 : Zpos md * 2 ^ (ed + 1074)
                 < 2 ^ digits (Zpos md) * 2 ^ (ed + 1074))
      by (apply Z.mul_lt_mono_pos_r; lia).
    rewrite <- Z.pow_add_r in H1, H2 by lia.
    assert (2 ^ (digits (Zpos md) + (ed + 1074))
            <= 2 ^ (digits (Zpos ma) - 1 + (ea + 1074)))
      by (apply Z.pow_le_mono_r; lia).
    lia. }
  set (e' := Z.min (fexp prec emax (digits (Zpos ma) + ea - (digits (Zpos md) + ed)))
                   (ea - ed)).
  assert (He' : e' <= -53 /\ e' <= ea - ed) by (unfold e'; rewrite fexp_eq; lia).
  set (s := ea - ed - e').
  assert (Hs : 0 <= s) by (unfold s; lia).
  set (m' := match s with
             | 0 => Zpos ma
             | Zpos _ => Z.shiftl (Zpos ma) s
             | Zneg _ => 0
             end).
  assert (Hm' : m' = Zpos ma * 2 ^ s).
  { unfold m'. generalize Hs. generalize s.
    intros [| p | p] Hp;
      [rewrite Z.pow_0_r; lia | apply Z.shiftl_mul_pow2; lia | lia]. }
  assert (Hquot : 0 <= m' / Zpos md < 2 ^ (- e')).
  { assert (Hps : 0 < 2 ^ s) by (apply Z.pow_pos_nonneg; lia).
    split; [apply Z.div_pos; lia |].
    apply Z.div_lt_upper_bound; [lia |].
    rewrite Hm'.
    assert (Hpa : 0 < 2 ^ (ea + 1074)) by (apply Z.pow_pos_nonneg; lia).
    apply (Z.mul_lt_mono_pos_r (2 ^ (ea + 1074))); [assumption |].
    replace (Zpos ma * 2 ^ s * 2 ^ (ea + 1074))
      with (Zpos ma * 2 ^ (ea + 1074) * 2 ^ s) by ring.
    replace (Zpos md * 2 ^ (- e') * 2 ^ (ea + 1074))
      with (Zpos md * 2 ^ (ed + 1074) * 2 ^ s).
    - apply Z.mul_lt_mono_pos_r; assumption.
    - rewrite <- !Z.mul_assoc, <- !Z.pow_add_r by lia.
      f_equal. f_equal. unfold s. lia. }
  pose proof (Z_div_mod m' (Zpos md) ltac:(lia)) as Hdm.
  unfold Z.div in Hquot.
  destruct (Z.div_eucl m' (Zpos md)) as [q rm].
  apply round_aux_below_one; lia.
Qed.

(** A positive number divided by itself is one. *)
Lemma SFdiv_self (m : positive) (e : Z) :
  SF64div (S754_finite false m e) (S754_finite false m e) = SFone.
Proof.
  unfold SF64div, SFdiv, SFdiv_core_binary. cbn [xorb].
  replace (Zdigits2 (Zpos m) + e - (Zdigits2 (Zpos m) + e)) with 0 by lia.
  rewrite Z.sub_diag. change (Z.min (fexp prec emax 0) 0) with (-53).
  change (0 - -53) with 53.
  rewrite Z.shiftl_mul_pow2 by lia.
  assert (H : Z.div_eucl (Zpos m * 2 ^ 53) (Zpos m) = (2 ^ 53, 0)).
  { pose proof (Z_div_mod (Zpos m * 2 ^ 53) (Zpos m) ltac:(lia)) as Hdm.
    destruct (Z.div_eucl (Zpos m * 2 ^ 53) (Zpos m)) as [q r].
    destruct Hdm as [Heq Hr].
    assert (q = 2 ^ 53) by nia. subst q.
    f_equal. lia. }
  rewrite H.
  replace (new_location (Zpos m) 0) with loc_Exact.
  - reflexivity.
  - unfold new_location, new_location_even, new_location_odd.
    destruct (Z.even (Zpos m)); reflexivity.
Qed.

End Rounding.

(* ================================================================== *)
(** * The unit range of the scaled magnitude                           *)
(* ================================================================== *)

Module UnitRange.

Import Rounding.
Local Open Scope Z_scope.

Lemma compare_funits (a b : float) :
  nonneg a -> nonneg b ->
  SFcompare (Prim2SF a) (Prim2SF b) = Some (funits a ?= funits b).
Proof.
  intros Ha Hb. apply compare_units; auto using Prim2SF_valid.
Qed.

Lemma leb_funits (a b : float) :
  nonneg a -> nonneg b ->
  PrimFloat.leb a b = true <-> funits a <= funits b.
Proof.
  intros Ha Hb. rewrite leb_spec. unfold SFleb.
  rewrite (compare_funits a b Ha Hb).
  destruct (Z.compare_spec (funits a) (funits b)); split; intros; try lia;
    try reflexivity; discriminate.
Qed.

Lemma eqb_funits (a b : float) :
  nonneg a -> nonneg b ->
  PrimFloat.eqb a b = true <-> funits a = funits b.
Proof.
  intros Ha Hb. rewrite eqb_spec. unfold SFeqb.
  rewrite (compare_funits a b Ha Hb).
  destruct (Z.compare_spec (funits a) (funits b)); split; intros; try lia;
    try reflexivity; discriminate.
Qed.

Lemma funits_zero (a : float) :
  nonneg a -> funits a = 0 -> exists s, Prim2SF a = S754_zero s.
Proof.
  unfold nonneg, funits. intros Ha Hu.
  pose proof (Prim2SF_valid a) as V.
  destruct (Prim2SF a) as [s | s | | s m e]; try contradiction; eauto.
  pose proof (units_positive s m e ltac:(apply valid_finite in V; lia)). lia.
Qed.

Lemma funits_positive (a : float) :
  nonneg a -> 0 < funits a ->
  exists m e, Prim2SF a = S754_finite false m e /\ -1074 <= e.
Proof.
  unfold nonneg, funits. intros Ha Hu.
  pose proof (Prim2SF_valid a) as V.
  destruct (Prim2SF a) as [s | s | | [|] m e]; try contradiction;
    try (simpl in Hu; lia).
  exists m, e. split; [reflexivity |]. apply valid_finite in V. lia.
Qed.

Lemma sub_funits (x y : float) :
  nonneg x -> nonneg y -> funits y <= funits x ->
  nonneg (x - y) /\ funits (x - y) = round53 (funits x - funits y).
Proof.
  intros Hx Hy Hle. unfold nonneg, funits. rewrite sub_spec.
  apply SFsub_units; auto using Prim2SF_valid.
Qed.

Lemma funits_one : funits 1%float = 2 ^ 1074.
Proof. reflexivity. Qed.

Lemma nonneg_one : nonneg 1%float.
Proof. exact I. Qed.

Lemma nonneg_zero : nonneg 0%float.
Proof. exact I. Qed.

(** One cell of the scaled magnitude: between the extrema the quotient lies
    in the unit interval, and it is zero at the minimum and one at the
    maximum. *)
Lemma scaled_cell (m u M : float) :
  nonneg m -> nonneg u -> nonneg M ->
  funits m <= funits u -> funits u <= funits M -> funits m < funits M ->
  let q := ((u - m) / (M - m))%float in
  nonneg q /\ funits q <= 2 ^ 1074 /\
  (funits u = funits m -> funits q = 0) /\
  (funits u = funits M -> funits q = 2 ^ 1074).
Proof.
  intros Hm Hu HM Hmu HuM HmM q.
  destruct (sub_funits u m Hu Hm Hmu) as [Na Ua].
  destruct (sub_funits M m HM Hm ltac:(lia)) as [Nd Ud].
  assert (Hmono : funits (u - m) <= funits (M - m)).
  { unfold funits. rewrite !sub_spec.
    apply SFsub_mono; auto using Prim2SF_valid. }
  assert (Hdpos : 0 < funits (M - m)).
  { unfold funits. rewrite sub_spec.
    apply SFsub_positive; auto using Prim2SF_valid. }
  destruct (funits_positive _ Nd Hdpos) as (md & ed & Ed & Hed).
  assert (Hq : Prim2SF q = SF64div (Prim2SF (u - m)) (Prim2SF (M - m)))
    by (unfold q; apply div_spec).
  assert (Hzero : funits (u - m) = 0 ->
                  nonneg q /\ funits q <= 2 ^ 1074 /\ funits q = 0).
  { intros Hz. destruct (funits_zero _ Na Hz) as [s Ea].
    unfold nonneg, funits. rewrite Hq, Ea, Ed.
    cbn [SF64div SFdiv xorb units nnf]. destruct s; simpl; repeat split; lia. }
  assert (Hone : funits (u - m) = funits (M - m) ->
                 nonneg q /\ funits q = 2 ^ 1074).
  { intros Heq. rewrite <- Heq in Hdpos.
    destruct (funits_positive _ Na Hdpos) as (ma & ea & Ea & Hea).
    pose proof (compare_funits _ _ Na Nd) as Hc.
    rewrite Heq, Z.compare_refl, Ea, Ed in Hc. unfold SFcompare in Hc.
    injection Hc as Hc.
    destruct (Z.compare_spec ea ed); try discriminate.
    change (Pos.compare_cont Eq ma md) with (Pos.compare ma md) in Hc.
    apply Pos.compare_eq in Hc. subst.
    unfold nonneg, funits. rewrite Hq, Ea, Ed, SFdiv_self.
    split; [exact I | reflexivity]. }
  destruct (Z.eq_dec (funits (u - m)) 0) as [Ez | Enz].
  - destruct (Hzero Ez) as (N & B & Z0).
    split; [exact N |]. split; [exact B |]. split; [intros _; exact Z0 |].
    intros E. exfalso. rewrite E in Ua. lia.
  - assert (Hapos : 0 < funits (u - m)).
    { pose proof (units_nonneg (Prim2SF (u - m))). unfold funits in *. lia. }
    assert (Hne : funits u <> funits m).
    { intros E. rewrite E, Z.sub_diag in Ua. change (round53 0) with 0 in Ua. lia. }
    destruct (Z.eq_dec (funits (u - m)) (funits (M - m))) as [Eo | Eno].
    + destruct (Hone Eo) as [N O].
      split; [exact N |]. split; [lia |]. split; [intros E; contradiction | auto].
    + assert (Hneq : funits u <> funits M).
      { intros E. apply Eno. rewrite Ua, Ud, E. reflexivity. }
      destruct (funits_positive _ Na Hapos) as (ma & ea & Ea & Hea).
      assert (Hlt : Zpos ma * 2 ^ (ea + 1074) < Zpos md * 2 ^ (ed + 1074)).
      { unfold funits in Hmono, Eno. rewrite Ea, Ed in Hmono, Eno.
        unfold units in Hmono, Eno. lia. }
      pose proof (SFdiv_below_one ma md ea ed Hea Hed Hlt) as Hdiv.
      cbv zeta in Hdiv. rewrite <- Ea, <- Ed, <- Hq in Hdiv.
      pose proof (Prim2SF_valid q) as Vq.
      unfold nonneg, funits.
      destruct Hdiv as [Er | (mq & eq & Er & Heq0 & Hmq)]; rewrite Er in *.
      * cbn [nnf units].
        split; [exact I |]. split; [apply Z.pow_nonneg; lia |].
        split; intros E; exfalso; [apply Hne | apply Hneq]; exact E.
      * apply valid_finite in Vq. destruct Vq as (Heq1 & _).
        cbn [nnf units].
        assert (Hbound : Zpos mq * 2 ^ (eq + 1074) <= 2 ^ 1074).
        { assert (Hsplit : 2 ^ 1074 = 2 ^ (- eq) * 2 ^ (eq + 1074))
            by (rewrite <- Z.pow_add_r by lia; f_equal; lia).
          rewrite Hsplit.
          apply Z.mul_le_mono_nonneg_r; [apply Z.pow_nonneg; lia | lia]. }
        split; [exact I |]. split; [exact Hbound |].
        split; intros E; exfalso; [apply Hne | apply Hneq]; exact E.
Qed.


Lemma nonneg_not_nan (a : float) : nonneg a -> PrimFloat.is_nan a = false.
Proof.
  unfold nonneg. intros H. apply F64.not_nan_spec.
  destruct (Prim2SF a); try contradiction; discriminate.
Qed.

(** A square root is a NaN, the positive infinity, a zero or a positive
    number. *)
Lemma sqrt_range (w : float) :
  match Prim2SF (PrimFloat.sqrt w) with
  | S754_finite true _ _ | S754_infinity true => False
  | _ => True
  end.
Proof.
  rewrite sqrt_spec. unfold SF64sqrt, SFsqrt.
  destruct (Prim2SF w) as [s | [|] | | [|] m e]; try exact I.
  destruct (SFsqrt_core_binary prec emax (Zpos m) e) as [[mz ez] lz].
  pose proof (binary_round_aux_sign false mz ez lz) as H.
  destruct (binary_round_aux prec emax false mz ez lz) as [s | s | | s m' e'];
    try exact I; subst s; exact I.
Qed.

Lemma is_finite_nonneg (u M : float) :
  PrimFloat.leb u M = true -> PrimFloat.is_finite M = true ->
  (exists w, u = PrimFloat.sqrt w) -> nonneg u.
Proof.
  intros Hle HM [w ->]. pose proof (sqrt_range w) as Hs.
  apply is_finite_spec in HM. rewrite leb_spec in Hle. unfold nonneg.
  destruct (Prim2SF (PrimFloat.sqrt w)) as [s | [|] | | [|] m e];
    try contradiction; try exact I.
  - destruct (Prim2SF M) as [s | s | | s m e]; try contradiction; discriminate.
  - discriminate.
Qed.

Section Range.

Variable L : libm.
Let N64 : Numpy float := float64 L.

(** C7, for compressed magnitudes: when the maximum of the
    square-root-compressed magnitude is finite and differs from its
    minimum, [scale_spectrogram] returns a magnitude array whose minimum
    is [0.0] and whose maximum is [1.0]. *)
Theorem scale_spectrogram_unit_range
        (X : ndarray (complex float)) (M m : float) :
  @amax float N64 (@compressed float N64 X) = Ok M ->
  @amin float N64 (@compressed float N64 X) = Ok m ->
  PrimFloat.is_finite M = true ->
  PrimFloat.eqb M m = false ->
  @unit_range float N64 PrimFloat.eqb 0%float 1%float
              (@scale_spectrogram float N64 X).
Proof.
  intros HM Hm FM Hne.
  rewrite scale_spectrogram_unfold, HM, Hm. cbn [bind].
  unfold amax, amin, reduce in HM, Hm.
  assert (Hsqrt : forall u, In u (flat (@compressed float N64 X)) ->
                            exists w, u = PrimFloat.sqrt w).
  { intros u Hu. unfold compressed in Hu. rewrite flat_amap in Hu.
    apply in_map_iff in Hu. destruct Hu as (w & <- & _). eauto. }
  destruct (flat (@compressed float N64 X)) as [| v vs] eqn:Hflat; [discriminate |].
  injection HM as HM. injection Hm as Hm.
  change (@np_maximum float N64) with fmaximum in HM.
  change (@np_minimum float N64) with fminimum in Hm.
  assert (HnM : PrimFloat.is_nan M = false).
  { unfold PrimFloat.is_finite in FM. rewrite negb_true_iff, orb_false_iff in FM. tauto. }
  pose proof (F64.fold_maximum_upper vs v) as Hup. cbv zeta in Hup.
  rewrite HM in Hup. specialize (Hup HnM).
  pose proof (F64.fold_maximum_in vs v) as HinM. rewrite HM in HinM.
  pose proof (F64.fold_minimum_in vs v) as Hinm. rewrite Hm in Hinm.
  rewrite Forall_forall in Hup.
  assert (Hnm : PrimFloat.is_nan m = false)
    by (apply (F64.leb_not_nan m M), Hup, Hinm).
  pose proof (F64.fold_minimum_lower vs v) as Hlo. cbv zeta in Hlo.
  rewrite Hm in Hlo. specialize (Hlo Hnm).
  rewrite Forall_forall in Hlo.
  assert (Hnn : forall u, In u (v :: vs) -> nonneg u).
  { intros u Hu. apply (is_finite_nonneg u M); auto. }
  pose proof (Hnn M HinM) as NM. pose proof (Hnn m Hinm) as Nm.
  assert (Hlt : funits m < funits M).
  { pose proof (proj1 (leb_funits m M Nm NM) (Hlo M HinM)) as Hle.
    destruct (Z.eq_dec (funits m) (funits M)) as [E | ?]; [| lia].
    symmetry in E. apply (eqb_funits M m NM Nm) in E. congruence. }
  set (g := fun u : float => ((u - m) / (M - m))%float).
  assert (Hcell : forall u, In u (v :: vs) ->
                            nonneg (g u) /\ funits (g u) <= 2 ^ 1074 /\
                            (funits u = funits m -> funits (g u) = 0) /\
                            (funits u = funits M -> funits (g u) = 2 ^ 1074)).
  { intros u Hu. apply scaled_cell; auto.
    - apply leb_funits; auto.
    - apply leb_funits; auto. }
  set (out := amap (fun u => @np_divide float N64 (@np_subtract float N64 u m)
                                          (@np_subtract float N64 M m))
                   (@compressed float N64 X)).
  assert (Hout : flat out = map g (v :: vs)).
  { unfold out. rewrite flat_amap, Hflat. reflexivity. }
  assert (Hall : forall q, In q (flat out) ->
                           nonneg q /\ funits q <= 2 ^ 1074).
  { intros q Hq. rewrite Hout in Hq. apply in_map_iff in Hq.
    destruct Hq as (u & <- & Hu). destruct (Hcell u Hu) as (? & ? & _). auto. }
  assert (Hg0 : In (g m) (flat out) /\ funits (g m) = 0).
  { split; [rewrite Hout; apply in_map, Hinm |].
    destruct (Hcell m Hinm) as (_ & _ & H0 & _). auto. }
  assert (Hg1 : In (g M) (flat out) /\ funits (g M) = 2 ^ 1074).
  { split; [rewrite Hout; apply in_map, HinM |].
    destruct (Hcell M HinM) as (_ & _ & _ & H1). auto. }
  destruct (flat out) as [| o os] eqn:Eout; [destruct Hg0 as [[] _] |].
  exists out, (@np_unwrap float N64 (@np_angle float N64 X)),
    (fold_left fminimum os o), (fold_left fmaximum os o).
  split; [reflexivity |].
  split; [unfold amin, reduce; rewrite Eout; reflexivity |].
  split; [unfold amax, reduce; rewrite Eout; reflexivity |].
  split.
  - pose proof (F64.fold_minimum_in os o) as Hin.
    destruct (Hall _ Hin) as [Nlo _].
    pose proof (F64.fold_minimum_lower os o (nonneg_not_nan _ Nlo)) as Hlow.
    rewrite Forall_forall in Hlow.
    destruct Hg0 as [Hin0 Hu0].
    pose proof (Hlow _ Hin0) as Hle.
    destruct (Hall _ Hin0) as [N0 _].
    apply (leb_funits _ _ Nlo N0) in Hle.
    apply eqb_funits; [exact Nlo | exact nonneg_zero |].
    pose proof (units_nonneg (Prim2SF (fold_left fminimum os o))).
    unfold funits in *. change (units (Prim2SF 0)) with 0. lia.
  - pose proof (F64.fold_maximum_in os o) as Hin.
    destruct (Hall _ Hin) as [Nhi Bhi].
    pose proof (F64.fold_maximum_upper os o (nonneg_not_nan _ Nhi)) as Hupp.
    rewrite Forall_forall in Hupp.
    destruct Hg1 as [Hin1 Hu1].
    pose proof (Hupp _ Hin1) as Hle.
    destruct (Hall _ Hin1) as [N1 _].
    apply (leb_funits _ _ N1 Nhi) in Hle.
    apply eqb_funits; [exact Nhi | exact nonneg_one |].
    rewrite funits_one. lia.
Qed.

End Range.

End UnitRange.

Module UnitRangeFacts.

Import Examples.

Lemma scale_spectrogram_unit_range_witness :
  @unit_range float (float64 axis_libm) PrimFloat.eqb 0%float 1%float
              (@scale_spectrogram float (float64 axis_libm) one_four).
Proof.
  apply (UnitRange.scale_spectrogram_unit_range axis_libm one_four 2%float 1%float);
    reflexivity.
Defined.

End UnitRangeFacts.

(* ================================================================== *)
(** * Further properties of the wrappers                               *)
(* ================================================================== *)

Section Transposed.

Context {A : Type}.

Lemma column_length (rs : list (list A)) (c j : nat) :
  Forall (fun r => length r = c) rs -> j < c ->
  length (column j rs) = length rs.
Proof.
  intros Hall Hj. induction Hall as [| r rs Hr _ IH]; [reflexivity |].
  unfold column in *. cbn [flat_map].
  destruct (nth_error r j) as [v |] eqn:E.
  - cbn [app length]. now rewrite IH.
  - apply nth_error_None in E. lia.
Qed.

(** The transpose of a well-formed array is well formed. *)
Lemma T_wf (a : ndarray A) : wf_ndarray a -> wf_ndarray (T a).
Proof.
  intros [Hr Hc]. unfold wf_ndarray, T. cbn [nrows ncols rows]. split.
  - now rewrite length_map, length_seq.
  - apply Forall_forall. intros r Hin. apply in_map_iff in Hin.
    destruct Hin as (j & <- & Hj). apply in_seq in Hj.
    rewrite <- Hr. apply (column_length (rows a) (ncols a)); [assumption | lia].
Qed.

End Transposed.

Section WrapperCoverage.

Context {S : SciPySignal}.

(** X1: the log of [istft], whatever the library does: it is empty, or it is
    one record of level WARNING, and then a reconstruction was returned
    whose length differs from the given [recon_size]. Nothing is logged
    when an exception is raised. *)
Theorem istft_log_cases
        (X : ndarray (complex float)) (fs : float) (recon_size : option Z)
        (hop : float) (two_sided : bool) (fft_size : option Z) :
  let out := istft X fs recon_size hop two_sided fft_size in
  (snd out = [] /\
   forall r x, recon_size = Some r -> fst out = Ok x -> r = shape0 x) \/
  (exists r x,
     recon_size = Some r /\ fst out = Ok x /\ r <> shape0 x /\
     snd out = [{| levelname := "WARNING"; msg := recon_text (shape0 x) r |}]).
Proof.
  unfold istft, lbind, lift. cbn [fst snd].
  destruct (PyFloat.int (hop * fs)) as [h | e]; cbn [fst snd];
    [| left; split; [reflexivity | discriminate]].
  match goal with
  | |- context [signal_istft ?c] => destruct (signal_istft c) as [[t x] | e]
  end; cbn [fst snd]; [| left; split; [reflexivity | discriminate]].
  destruct recon_size as [r |]; cbn [fst snd];
    [| left; split; [reflexivity | discriminate]].
  destruct (Z.eqb_spec r (shape0 x)) as [E | NE]; cbn [negb fst snd logger_warn lift app].
  - left. split; [reflexivity |].
    intros r' x' Hr Hx. injection Hr as <-. injection Hx as <-. exact E.
  - right. exists r, x. repeat split; auto.
Qed.

(** X2: [stft] followed by [istft] with the same parameters: the library's
    inverse transform is called on the very array its forward transform
    returned, with the same sample rate, window, DFT size, sidedness and
    hop; the frame length it is given is the number of DFT points for a
    two-sided spectrum and that number with its last bit cleared for a
    one-sided one. Without [fft_size] this is the frame length of the
    forward call exactly when the spectrum is two-sided or the frame
    length is even. *)
Theorem istft_after_stft
        (x : list float) (fs framesz hop : float)
        (two_sided : bool) (fft_size recon_size : option Z)
        (X : ndarray (complex float)) :
  stft_bins_law S ->
  stft x fs framesz hop two_sided fft_size = Ok X ->
  exists frame_samples hop_samples f t Zxx,
    PyFloat.int (framesz * fs) = Ok frame_samples /\
    PyFloat.int (hop * fs) = Ok hop_samples /\
    signal_stft {| st_x := x;
                   st_fs := fs;
                   st_window := "hann";
                   st_nperseg := frame_samples;
                   st_noverlap := (frame_samples - hop_samples)%Z;
                   st_nfft := fft_size;
                   st_return_onesided := negb two_sided |} = Ok (f, t, Zxx) /\
    let points := fft_points frame_samples fft_size in
    let recovered := if two_sided then points else (2 * (points / 2))%Z in
    fst (istft X fs recon_size hop two_sided fft_size)
    = ('(_, y) <- signal_istft {| is_Zxx := Zxx;
                                  is_fs := fs;
                                  is_window := "hann";
                                  is_nperseg := recovered;
                                  is_nfft := fft_size;
                                  is_noverlap := (recovered - hop_samples)%Z;
                                  is_input_onesided := negb two_sided |} ;;
       Ok y) /\
    (fft_size = None ->
     (recovered = frame_samples <-> two_sided = true \/ Z.even frame_samples = true)).
Proof.
  intros Hlaw. unfold stft.
  destruct (PyFloat.int (framesz * fs)) as [n | e] eqn:En; cbn [bind]; [| discriminate].
  destruct (PyFloat.int (hop * fs)) as [h | e] eqn:Eh; cbn [bind]; [| discriminate].
  match goal with |- context [signal_stft ?c] => set (call := c) end.
  destruct (signal_stft call) as [[[f t] Zxx] | e] eqn:Hcall; cbn [bind]; [| discriminate].
  intros HX. injection HX as <-.
  exists n, h, f, t, Zxx.
  split; [reflexivity |]. split; [reflexivity |]. split; [exact Hcall |].
  destruct (Hlaw _ _ _ _ Hcall) as [Hwf Hbins]. cbn in Hbins.
  cbv zeta. split.
  - rewrite istft_value. unfold istft_natural. rewrite Eh. cbn [bind].
    rewrite (inverse_call_after_stft x fs two_sided fft_size n h f t Zxx Hlaw Hcall).
    rewrite frame_samples_recovered. reflexivity.
  - intros ->. cbn [fft_points].
    rewrite <- frame_samples_recovered. apply frame_samples_recovered_iff.
Qed.

(** X3: the array [stft] returns is rectangular and time-major: it has one
    row per column of the library's frequency-major result, and
    transposing it gives that result back. *)
Theorem stft_result_wf
        (x : list float) (fs framesz hop : float)
        (two_sided : bool) (fft_size : option Z)
        (X : ndarray (complex float)) :
  stft_bins_law S ->
  stft x fs framesz hop two_sided fft_size = Ok X ->
  wf_ndarray X /\
  exists c f t Zxx,
    signal_stft c = Ok (f, t, Zxx) /\
    T X = Zxx /\ nrows X = ncols Zxx /\ ncols X = nrows Zxx.
Proof.
  intros Hlaw. unfold stft.
  destruct (PyFloat.int (framesz * fs)) as [n | e]; cbn [bind]; [| discriminate].
  destruct (PyFloat.int (hop * fs)) as [h | e]; cbn [bind]; [| discriminate].
  match goal with |- context [signal_stft ?c] => set (call := c) end.
  destruct (signal_stft call) as [[[f t] Zxx] | e] eqn:Hcall; cbn [bind]; [| discriminate].
  intros HX. injection HX as <-.
  destruct (Hlaw _ _ _ _ Hcall) as [Hwf _].
  split; [apply T_wf, Hwf |].
  exists call, f, t, Zxx. split; [exact Hcall |].
  split; [apply T_involutive, Hwf |]. split; reflexivity.
Qed.

End WrapperCoverage.

(* ================================================================== *)
(** * Binary64: integer parts and products                             *)
(* ================================================================== *)

Module Products.

Import Rounding Grid.
Local Open Scope Z_scope.

(** ** The integer part *)

Lemma SFint_units (x : spec_float) :
  valid_binary x = true -> nnf x ->
  PyFloat.SFint x = Ok (units x / 2 ^ 1074).
Proof.
  intros V N. destruct x as [s | s | | [|] m e]; try contradiction.
  - reflexivity.
  - apply valid_finite in V. destruct V as (He & _).
    unfold PyFloat.SFint, PyFloat.scaled, units. cbn [cond_Zopp]. f_equal.
    destruct (Z_le_gt_dec 0 e) as [Hpos | Hneg].
    + rewrite Z.shiftl_mul_pow2 by lia.
      rewrite (Z.pow_add_r 2 e 1074) by lia.
      rewrite Z.mul_assoc, Z.div_mul by lia. reflexivity.
    + rewrite <- (Z.opp_involutive e) at 1.
      rewrite Z.shiftl_opp_r, Z.shiftr_div_pow2 by lia.
      replace (2 ^ 1074) with (2 ^ (- e) * 2 ^ (e + 1074))
        by (rewrite <- Z.pow_add_r by lia; f_equal; lia).
      rewrite Z.div_mul_cancel_r; [reflexivity | | ];
        apply Z.pow_nonzero; lia.
Qed.

Lemma int_funits (a : float) :
  nonneg a -> PyFloat.int a = Ok (funits a / 2 ^ 1074).
Proof.
  intros N. apply SFint_units; [apply Prim2SF_valid | exact N].
Qed.

(** ** Rounding to the coarser of 53 bits and the subnormal grid *)

Lemma round_grid_zero : round_grid 0 = 0.
Proof. reflexivity. Qed.

Lemma round_grid_bounds (k : Z) :
  0 < k ->
  let n := Z.max (digits k - 53) 1074 in
  (k / 2 ^ n) * 2 ^ n <= round_grid k <= (k / 2 ^ n + 1) * 2 ^ n.
Proof.
  intros Hk n. unfold round_grid. fold n.
  pose proof (rne_bounds k n) as [H1 H2].
  assert (Hp : 0 < 2 ^ n) by (apply Z.pow_pos_nonneg; lia).
  split; apply Z.mul_le_mono_nonneg_r; lia.
Qed.

Lemma round_grid_mono (k1 k2 : Z) :
  0 <= k1 -> k1 <= k2 -> round_grid k1 <= round_grid k2.
Proof.
  intros H0 Hle.
  destruct (Z.eq_dec k1 0) as [-> | Hne].
  { rewrite round_grid_zero.
    destruct (Z.eq_dec k2 0) as [-> | Hne2]; [rewrite round_grid_zero; lia |].
    pose proof (round_grid_bounds k2 ltac:(lia)) as [Hl _]. cbv zeta in Hl.
    set (n := Z.max (digits k2 - 53) 1074) in *.
    assert (Hp : 0 < 2 ^ n) by (apply Z.pow_pos_nonneg; lia).
    assert (0 <= k2 / 2 ^ n) by (apply Z.div_pos; lia).
    assert (0 <= k2 / 2 ^ n * 2 ^ n) by (apply Z.mul_nonneg_nonneg; lia).
    lia. }
  assert (H1 : 0 < k1) by lia.
  pose proof (digits_le k1 k2 H1 Hle) as Hd.
  pose proof (round_grid_bounds k1 H1) as [_ Hu]. cbv zeta in Hu.
  pose proof (round_grid_bounds k2 ltac:(lia)) as [Hl _]. cbv zeta in Hl.
  set (n1 := Z.max (digits k1 - 53) 1074) in *.
  set (n2 := Z.max (digits k2 - 53) 1074) in *.
  assert (Hp1 : 0 < 2 ^ n1) by (apply Z.pow_pos_nonneg; lia).
  assert (Hp2 : 0 < 2 ^ n2) by (apply Z.pow_pos_nonneg; lia).
  destruct (Z.eq_dec n1 n2) as [E | NE].
  - unfold round_grid. fold n1 n2. rewrite <- E.
    apply Z.mul_le_mono_nonneg_r; [lia |].
    assert (Hq : k1 / 2 ^ n1 <= k2 / 2 ^ n1) by (apply Z.div_le_mono; lia).
    destruct (Z.eq_dec (k1 / 2 ^ n1) (k2 / 2 ^ n1)) as [Eq | Nq].
    + apply rne_mono_same; [lia | exact Hle | exact Eq].
    + pose proof (rne_bounds k1 n1). pose proof (rne_bounds k2 n1). lia.
  - assert (Hn2 : n2 = digits k2 - 53 /\ n1 < n2) by lia.
    destruct Hn2 as [Hn2 Hlt].
    pose proof (top_bits k2 ltac:(lia) ltac:(lia)) as [Htop _].
    rewrite <- Hn2 in Htop.
    pose proof (digits_spec k1 H1) as [_ Hh1].
    assert (Hq1 : k1 / 2 ^ n1 + 1 <= 2 ^ 53).
    { assert (k1 / 2 ^ n1 < 2 ^ 53); [| lia].
      apply Z.div_lt_upper_bound; [lia |].
      rewrite <- Z.pow_add_r by lia.
      assert (2 ^ digits k1 <= 2 ^ (n1 + 53)) by (apply Z.pow_le_mono_r; lia).
      lia. }
    assert (A1 : (k1 / 2 ^ n1 + 1) * 2 ^ n1 <= 2 ^ 53 * 2 ^ n1)
      by (apply Z.mul_le_mono_nonneg_r; lia).
    assert (A2 : 2 ^ 52 * 2 ^ n2 <= k2 / 2 ^ n2 * 2 ^ n2)
      by (apply Z.mul_le_mono_nonneg_r; lia).
    assert (A3 : 2 ^ 53 * 2 ^ n1 <= 2 ^ 52 * 2 ^ n2).
    { rewrite <- !Z.pow_add_r by lia. apply Z.pow_le_mono_r; lia. }
    lia.
Qed.

(** Rounding the exact integer [p * 2^E] of a product of two numbers of
    the format. *)
Lemma round_aux_product (p : positive) (E : Z) :
  -2148 <= E ->
  53 <= digits (Zpos p) \/ E <= -1074 ->
  let r := binary_round_aux prec emax false (Zpos p) E loc_Exact in
  (r = S754_zero false /\ round_grid (Zpos p * 2 ^ (E + 2148)) = 0) \/
  exists m e,
    r = (if e <=? 971 then S754_finite false m e else S754_infinity false) /\
    -1074 <= e /\
    (-1074 < e -> 2 ^ 52 <= Zpos m) /\
    Zpos m * 2 ^ (e + 2148) = round_grid (Zpos p * 2 ^ (E + 2148)).
Proof.
  intros HE Hshape r. subst r.
  pose proof (digits_positive (Zpos p) ltac:(lia)) as Hdp.
  pose proof (digits_spec (Zpos p) ltac:(lia)) as [Hlo Hhi].
  set (t := E + 2148).
  assert (Ht : 0 <= t) by (unfold t; lia).
  assert (HdK : digits (Zpos p * 2 ^ t) = digits (Zpos p) + t)
    by (apply digits_shift; lia).
  set (n := Z.max (digits (Zpos p) - 53) (-1074 - E)).
  assert (Hn0 : 0 <= n) by (unfold n; lia).
  assert (HnK : Z.max (digits (Zpos p * 2 ^ t) - 53) 1074 = n + t)
    by (rewrite HdK; unfold n, t; lia).
  assert (Hgrid : round_grid (Zpos p * 2 ^ t)
                  = rne (Zpos p * 2 ^ t) (n + t) * 2 ^ (n + t))
    by (unfold round_grid; rewrite HnK; reflexivity).
  unfold binary_round_aux, shr_fexp.
  change (Zdigits2 (Zpos p)) with (digits (Zpos p)).
  rewrite fexp_eq.
  replace (Z.max (digits (Zpos p) + E - 53) (-1074) - E) with n by (unfold n; lia).
  destruct n as [| pn | pn] eqn:En; try lia.
  - (* the product is in the format as it is *)
    right. cbn [shr shr_record_of_loc shr_m loc_of_shr_record round_nearest_even].
    change (Zdigits2 (Zpos p)) with (digits (Zpos p)).
    rewrite fexp_eq.
    replace (Z.max (digits (Zpos p) + E - 53) (-1074) - E) with 0 by lia.
    cbn [shr shr_record_of_loc shr_m].
    exists p, E. change (emax - prec) with 971.
    split; [reflexivity |]. split; [lia |]. split.
    + intros HE1. destruct Hshape as [Hs | Hs]; [| lia].
      assert (2 ^ 52 <= 2 ^ (digits (Zpos p) - 1)) by (apply Z.pow_le_mono_r; lia).
      lia.
    + rewrite Hgrid. rewrite Z.add_0_l.
      assert (Htpos : 0 < t) by (unfold t; lia).
      assert (Hp : 0 < 2 ^ t) by (apply Z.pow_pos_nonneg; lia).
      rewrite rne_exact; [| lia | apply Z.mod_mul; lia].
      rewrite Z.div_mul by lia. reflexivity.
  - pose proof (rne_bounds (Zpos p) (Zpos pn)) as Hr.
    pose proof (shr_rne pn (Zpos p) ltac:(lia)) as Hrne. cbv zeta in Hrne.
    cbn [shr shr_record_of_loc]. rewrite Hrne.
    assert (Hshift : rne (Zpos p * 2 ^ t) (Zpos pn + t) = rne (Zpos p) (Zpos pn))
      by (apply rne_shift; lia).
    rewrite Hshift in Hgrid.
    set (m1 := rne (Zpos p) (Zpos pn)) in *.
    assert (Hpn : 0 < 2 ^ Zpos pn) by (apply Z.pow_pos_nonneg; lia).
    assert (Hq0 : 0 <= Zpos p / 2 ^ Zpos pn) by (apply Z.div_pos; lia).
    destruct (Z_le_gt_dec (-1074 - E) (digits (Zpos p) - 53)) as [Hnorm | Hsub].
    + (* rounding to 53 bits *)
      assert (Hpn53 : Zpos pn = digits (Zpos p) - 53) by lia.
      pose proof (top_bits (Zpos p) ltac:(lia) ltac:(lia)) as Htop.
      rewrite <- Hpn53 in Htop.
      right.
      destruct (Z_lt_le_dec m1 (2 ^ 53)) as [Hlt | Hge].
      * assert (Hd1 : digits m1 = 53) by (apply digits_unique; simpl; lia).
        change (Zdigits2 m1) with (digits m1). rewrite Hd1, fexp_eq.
        replace (Z.max (53 + (E + Zpos pn) - 53) (-1074) - (E + Zpos pn)) with 0 by lia.
        cbn [shr shr_m shr_record_of_loc].
        destruct m1 as [| q | q] eqn:Eq; try lia.
        exists q, (E + Zpos pn). change (emax - prec) with 971.
        split; [reflexivity |]. split; [lia |]. split; [intros _; lia |].
        rewrite Hgrid. f_equal. f_equal. unfold t. lia.
      * assert (Hm1 : m1 = 2 ^ 53) by lia. rewrite Hm1 in *.
        exists (4503599627370496)%positive, (E + Zpos pn + 1).
        split; [| split; [lia | split; [intros _; simpl; lia |]]].
        -- change (Zdigits2 (2 ^ 53)) with 54. rewrite fexp_eq.
           replace (Z.max (54 + (E + Zpos pn) - 53) (-1074) - (E + Zpos pn)) with 1 by lia.
           reflexivity.
        -- rewrite Hgrid.
           replace (E + Zpos pn + 1 + 2148) with (1 + (Zpos pn + t)) by (unfold t; lia).
           rewrite (Z.pow_add_r 2 1 (Zpos pn + t)) by lia.
           change (2 ^ 53) with (4503599627370496 * 2 ^ 1). ring.
    + (* rounding to the subnormal grid *)
      assert (HE1 : E + Zpos pn = -1074) by lia.
      assert (Hm1 : 0 <= m1 <= 2 ^ 52).
      { split; [lia |].
        assert (Zpos p / 2 ^ Zpos pn < 2 ^ 52); [| lia].
        apply Z.div_lt_upper_bound; [lia |].
        rewrite <- Z.pow_add_r by lia.
        assert (2 ^ digits (Zpos p) <= 2 ^ (Zpos pn + 52))
          by (apply Z.pow_le_mono_r; lia).
        lia. }
      assert (Hd1 : digits m1 <= 53).
      { apply digits_lt_pow; [| lia]. change (2 ^ 53) with (2 * 2 ^ 52). lia. }
      change (Zdigits2 m1) with (digits m1). rewrite fexp_eq.
      assert (Hd0 : 0 <= digits m1) by (destruct m1; simpl; lia).
      replace (Z.max (digits m1 + (E + Zpos pn) - 53) (-1074) - (E + Zpos pn)) with 0 by lia.
      cbn [shr shr_m shr_record_of_loc].
      destruct m1 as [| q | q] eqn:Eq; try lia.
      * left. split; [reflexivity |]. rewrite Hgrid. reflexivity.
      * right. exists q, (E + Zpos pn). change (emax - prec) with 971.
        split; [reflexivity |]. split; [lia |]. split; [intros; lia |].
        rewrite Hgrid. f_equal. f_equal. unfold t. lia.
Qed.

(** ** Multiplication *)

Lemma digits_53 (m : positive) : digits (Zpos m) = 53 -> 2 ^ 52 <= Zpos m.
Proof.
  intros Hd. pose proof (digits_spec (Zpos m) ltac:(lia)) as [Hl _].
  rewrite Hd in Hl. exact Hl.
Qed.

(** The product of two non-negative numbers of the format is the rounding
    of the exact product, or the positive infinity when that rounding
    passes the largest number. *)
Lemma SFmul_grid (x y : spec_float) :
  valid_binary x = true -> valid_binary y = true -> nnf x -> nnf y ->
  let r := SF64mul x y in
  (nnf r /\ units r * 2 ^ 1074 = round_grid (units x * units y)) \/
  (r = S754_infinity false /\
   2 ^ 53 * 2 ^ (971 + 2148) <= round_grid (units x * units y)).
Proof.
  intros Vx Vy Nx Ny r. subst r.
  destruct x as [sx | sx | | [|] mx ex]; try contradiction;
    destruct y as [sy | sy | | [|] my ey]; try contradiction;
    try (left; split; [exact I |]; cbn [SF64mul SFmul units];
         rewrite ?Z.mul_0_l, ?Z.mul_0_r; reflexivity).
  pose proof (valid_finite _ _ _ Vx) as (Hex & Hdx & Hnx).
  pose proof (valid_finite _ _ _ Vy) as (Hey & Hdy & Hny).
  assert (HK : units (S754_finite false mx ex) * units (S754_finite false my ey)
               = Zpos (mx * my) * 2 ^ (ex + ey + 2148)).
  { unfold units. rewrite Pos2Z.inj_mul.
    replace (ex + ey + 2148) with ((ex + 1074) + (ey + 1074)) by lia.
    rewrite (Z.pow_add_r 2 (ex + 1074) (ey + 1074)) by lia. ring. }
  assert (Hshape : 53 <= digits (Zpos (mx * my)) \/ ex + ey <= -1074).
  { destruct (Z.eq_dec ex (-1074)) as [Ex | Nx'];
      destruct (Z.eq_dec ey (-1074)) as [Ey | Ny']; try (right; lia); left.
    - pose proof (digits_53 my (Hny ltac:(lia))) as Hm.
      change 53 with (digits (2 ^ 52)). apply digits_le; [lia |].
      rewrite Pos2Z.inj_mul. transitivity (1 * Zpos my); [lia |].
      apply Z.mul_le_mono_nonneg_r; lia.
    - pose proof (digits_53 mx (Hnx ltac:(lia))) as Hm.
      change 53 with (digits (2 ^ 52)). apply digits_le; [lia |].
      rewrite Pos2Z.inj_mul. transitivity (Zpos mx * 1); [lia |].
      apply Z.mul_le_mono_nonneg_l; lia.
    - pose proof (digits_53 mx (Hnx ltac:(lia))) as Hm.
      change 53 with (digits (2 ^ 52)). apply digits_le; [lia |].
      rewrite Pos2Z.inj_mul. transitivity (Zpos mx * 1); [lia |].
      apply Z.mul_le_mono_nonneg_l; lia. }
  rewrite HK.
  destruct (round_aux_product (mx * my) (ex + ey) ltac:(lia) Hshape)
    as [[Hr Hz] | (m & e & Hr & He & Hm & Hv)]; cbv zeta in *.
  - left. unfold SF64mul, SFmul. cbn [xorb]. rewrite Hr, Hz.
    split; [exact I | reflexivity].
  - unfold SF64mul, SFmul. cbn [xorb]. rewrite Hr, <- Hv.
    destruct (Z.leb_spec e 971) as [Hle | Hgt].
    + left. split; [exact I |]. unfold units.
      rewrite <- Z.mul_assoc, <- Z.pow_add_r by lia.
      f_equal. f_equal. lia.
    + right. split; [reflexivity |].
      specialize (Hm ltac:(lia)).
      assert (Hp : 2 ^ (972 + 2148) <= 2 ^ (e + 2148))
        by (apply Z.pow_le_mono_r; lia).
      assert (Hq : 0 < 2 ^ (972 + 2148)) by (apply Z.pow_pos_nonneg; lia).
      replace (2 ^ 53 * 2 ^ (971 + 2148)) with (2 ^ 52 * 2 ^ (972 + 2148))
        by (rewrite <- !Z.pow_add_r by lia; f_equal).
      transitivity (2 ^ 52 * 2 ^ (e + 2148)).
      * apply Z.mul_le_mono_nonneg_l; lia.
      * apply Z.mul_le_mono_nonneg_r; lia.
Qed.

(** Multiplication by a non-negative number is monotone; when the larger
    product is finite, so is the smaller one. *)
Lemma SFmul_mono (x x' y : spec_float) :
  valid_binary x = true -> valid_binary x' = true -> valid_binary y = true ->
  valid_binary (SF64mul x' y) = true ->
  nnf x -> nnf x' -> nnf y ->
  units x <= units x' ->
  nnf (SF64mul x' y) ->
  nnf (SF64mul x y) /\ units (SF64mul x y) <= units (SF64mul x' y).
Proof.
  intros Vx Vx' Vy Vr Nx Nx' Ny Hle Nr.
  pose proof (units_nonneg x) as Hx0. pose proof (units_nonneg y) as Hy0.
  assert (HK : units x * units y <= units x' * units y)
    by (apply Z.mul_le_mono_nonneg_r; lia).
  assert (HK0 : 0 <= units x * units y) by (apply Z.mul_nonneg_nonneg; lia).
  pose proof (round_grid_mono _ _ HK0 HK) as Hmono.
  destruct (SFmul_grid x' y Vx' Vy Nx' Ny) as [[_ Hu'] | [Hinf _]]; cbv zeta in *;
    [| rewrite Hinf in Nr; contradiction].
  assert (Hbound : units (SF64mul x' y) * 2 ^ 1074 < 2 ^ 53 * 2 ^ (971 + 2148)).
  { destruct (SF64mul x' y) as [s | s | | s m e] eqn:Er; try contradiction.
    - cbn [units]. rewrite Z.mul_0_l.
      apply Z.mul_pos_pos; apply Z.pow_pos_nonneg; lia.
    - pose proof (units_bound s m e Vr) as Hb.
      apply valid_finite in Vr. destruct Vr as (He & _).
      assert (Hp : 2 ^ (e + 1074) <= 2 ^ (971 + 1074)) by (apply Z.pow_le_mono_r; lia).
      assert (Hq : 0 < 2 ^ 1074) by (apply Z.pow_pos_nonneg; lia).
      replace (2 ^ (971 + 2148)) with (2 ^ (971 + 1074) * 2 ^ 1074)
        by (rewrite <- Z.pow_add_r by lia; f_equal).
      rewrite Z.mul_assoc.
      apply Z.mul_lt_mono_pos_r; [lia |].
      assert (2 ^ 53 * 2 ^ (e + 1074) <= 2 ^ 53 * 2 ^ (971 + 1074))
        by (apply Z.mul_le_mono_nonneg_l; lia).
      lia. }
  destruct (SFmul_grid x y Vx Vy Nx Ny) as [[N Hu] | [_ Hbig]]; cbv zeta in *.
  - split; [exact N |].
    assert (Hq : 0 < 2 ^ 1074) by (apply Z.pow_pos_nonneg; lia).
    apply (Z.mul_le_mono_pos_r _ _ (2 ^ 1074) Hq). lia.
  - exfalso. lia.
Qed.

End Products.

(* ================================================================== *)
(** * Sample counts of [stft] and [istft]                              *)
(* ================================================================== *)

Module Conversions.

Import Rounding Products UnitRange.
Local Open Scope Z_scope.

Lemma is_nan_Prim2SF (a : float) :
  PrimFloat.is_nan a = match Prim2SF a with S754_nan => true | _ => false end.
Proof.
  destruct (PrimFloat.is_nan a) eqn:E.
  - apply F64.is_nan_spec in E. now rewrite E.
  - apply F64.not_nan_spec in E. destruct (Prim2SF a); congruence.
Qed.

Lemma is_zero_Prim2SF (a : float) :
  PrimFloat.is_zero a = match Prim2SF a with S754_zero _ => true | _ => false end.
Proof.
  unfold PrimFloat.is_zero. rewrite eqb_spec.
  change (Prim2SF zero) with (S754_zero false).
  destruct (Prim2SF a) as [s | [|] | | [|] m e]; reflexivity.
Qed.

Lemma is_finite_Prim2SF (a : float) :
  PrimFloat.is_finite a
  = match Prim2SF a with S754_zero _ | S754_finite _ _ _ => true | _ => false end.
Proof.
  unfold PrimFloat.is_finite, PrimFloat.is_infinity.
  rewrite is_nan_Prim2SF, eqb_spec, abs_spec.
  change (Prim2SF infinity) with (S754_infinity false).
  destruct (Prim2SF a) as [s | [|] | | [|] m e]; reflexivity.
Qed.

(** A conversion of a product to an integer succeeds only when both
    factors are finite. *)
Lemma SFint_mul_ok (x y : spec_float) (n : Z) :
  PyFloat.SFint (SF64mul x y) = Ok n ->
  match x with S754_zero _ | S754_finite _ _ _ => True | _ => False end /\
  match y with S754_zero _ | S754_finite _ _ _ => True | _ => False end.
Proof.
  destruct x as [sx | sx | | sx mx ex]; destruct y as [sy | sy | | sy my ey];
    try (intros _; split; exact I); simpl; discriminate.
Qed.

(** The product of two positive floats is a zero, a positive number or the
    positive infinity. *)
Lemma mul_positive_cases (a b : float) :
  PyFloat.positive a -> PyFloat.positive b ->
  nonneg (a * b) \/ Prim2SF (a * b) = S754_infinity false.
Proof.
  intros Ha Hb. unfold nonneg. rewrite mul_spec.
  pose proof (Prim2SF_valid a) as Va. pose proof (Prim2SF_valid b) as Vb.
  destruct (positive_spec _ Ha) as [(ma & ea & Ea) | Ea];
    destruct (positive_spec _ Hb) as [(mb & eb & Eb) | Eb];
    rewrite Ea, Eb in *; try (right; reflexivity).
  destruct (SFmul_grid _ _ Va Vb I I) as [[N _] | [E _]]; auto.
Qed.

Lemma funits_div_small (a : float) :
  funits a / 2 ^ 1074 = 0 <-> funits a < 2 ^ 1074.
Proof.
  pose proof (units_nonneg (Prim2SF a)) as H0. fold (funits a) in H0.
  rewrite Z.div_small_iff by lia. lia.
Qed.

(** A product of positive floats is converted to zero exactly when it is
    below one. *)
Lemma int_product_zero (a b : float) :
  PyFloat.positive a -> PyFloat.positive b ->
  PrimFloat.ltb (a * b) 1 = true <-> PyFloat.int (a * b) = Ok 0.
Proof.
  intros Ha Hb.
  destruct (mul_positive_cases a b Ha Hb) as [N | E].
  - rewrite (int_funits _ N).
    rewrite ltb_spec. unfold SFltb.
    rewrite (compare_funits _ _ N nonneg_one), funits_one.
    pose proof (funits_div_small (a * b)) as Hs.
    destruct (Z.compare_spec (funits (a * b)) (2 ^ 1074)) as [Hc | Hc | Hc];
      split; intros H; try discriminate; try reflexivity.
    + injection H as H. apply Hs in H. lia.
    + f_equal. apply Hs. exact Hc.
    + injection H as H. apply Hs in H. lia.
  - rewrite ltb_spec. unfold PyFloat.int. rewrite E.
    split; intros H; discriminate.
Qed.

Section Counts.

Context {S : SciPySignal}.

(** X4: when the hop does not exceed the frame size and the frame length in
    samples could be computed, so can the hop length, and it lies between
    zero and the frame length: [stft] asks the library for an overlap
    between zero and the frame length. *)
Theorem stft_overlap_bounds
        (x : list float) (fs framesz hop : float)
        (two_sided : bool) (fft_size : option Z) (frame_samples : Z) :
  PyFloat.positive hop -> PyFloat.positive fs ->
  PrimFloat.leb hop framesz = true ->
  PyFloat.int (framesz * fs) = Ok frame_samples ->
  exists hop_samples,
    PyFloat.int (hop * fs) = Ok hop_samples /\
    0 <= hop_samples <= frame_samples /\
    0 <= frame_samples - hop_samples <= frame_samples /\
    stft x fs framesz hop two_sided fft_size
    = ('(_, _, X) <- signal_stft {| st_x := x;
                                    st_fs := fs;
                                    st_window := "hann";
                                    st_nperseg := frame_samples;
                                    st_noverlap := frame_samples - hop_samples;
                                    st_nfft := fft_size;
                                    st_return_onesided := negb two_sided |} ;;
       Ok (T X)).
Proof.
  intros Hh Hs Hle Hn.
  assert (Hcls : nonneg hop /\ nonneg framesz /\ nonneg fs).
  { unfold PyFloat.int in Hn. rewrite mul_spec in Hn.
    destruct (SFint_mul_ok _ _ _ Hn) as [Ff Fs].
    rewrite leb_spec in Hle. unfold nonneg.
    destruct (positive_spec _ Hh) as [(mh & eh & Eh) | Eh];
      destruct (positive_spec _ Hs) as [(ms & es & Es) | Es];
      rewrite Eh, Es in *; try contradiction;
      destruct (Prim2SF framesz) as [sf | sf | | [|] mf ef];
      try contradiction; try discriminate; repeat split. }
  destruct Hcls as (Nh & Nf & Ns).
  assert (Hunits : funits hop <= funits framesz) by (apply leb_funits; assumption).
  assert (Np : nonneg (framesz * fs)).
  { unfold nonneg. unfold PyFloat.int in Hn.
    destruct (Prim2SF (framesz * fs)) as [s | s | | [|] m e] eqn:E;
      try discriminate; try exact I.
    exfalso. rewrite mul_spec in E.
    destruct (SFmul_grid _ _ (Prim2SF_valid framesz) (Prim2SF_valid fs) Nf Ns)
      as [[N _] | [Ei _]]; cbv zeta in *; rewrite E in *;
      [contradiction | discriminate]. }
  assert (Hmono : nonneg (hop * fs) /\ funits (hop * fs) <= funits (framesz * fs)).
  { unfold nonneg, funits in *. rewrite !mul_spec in *.
    apply SFmul_mono; auto using Prim2SF_valid.
    rewrite <- mul_spec. apply Prim2SF_valid. }
  destruct Hmono as [Nq Hq].
  assert (Hn' : funits (framesz * fs) / 2 ^ 1074 = frame_samples)
    by (rewrite (int_funits _ Np) in Hn; congruence).
  exists (funits (hop * fs) / 2 ^ 1074).
  pose proof (units_nonneg (Prim2SF (hop * fs))) as H0. fold (funits (hop * fs)) in H0.
  assert (Hb : 0 <= funits (hop * fs) / 2 ^ 1074 <= frame_samples).
  { split; [apply Z.div_pos; lia |].
    rewrite <- Hn'. apply Z.div_le_mono; lia. }
  split; [apply int_funits, Nq |]. split; [exact Hb |]. split; [lia |].
  unfold stft. rewrite Hn, (int_funits _ Nq). reflexivity.
Qed.

(** X5: a frame or a hop shorter than one sample period is converted to zero
    samples: for positive arguments the count is zero exactly when the
    product with the sample rate is below one. With such a hop [stft] asks
    the library for an overlap equal to the frame length, that is for a
    step of zero samples. *)
Theorem stft_below_one_sample
        (x : list float) (fs framesz hop : float)
        (two_sided : bool) (fft_size : option Z) :
  PyFloat.positive framesz -> PyFloat.positive hop -> PyFloat.positive fs ->
  (PrimFloat.ltb (framesz * fs) 1 = true <-> PyFloat.int (framesz * fs) = Ok 0) /\
  (PrimFloat.ltb (hop * fs) 1 = true <-> PyFloat.int (hop * fs) = Ok 0) /\
  (PrimFloat.ltb (hop * fs) 1 = true ->
   stft x fs framesz hop two_sided fft_size
   = (frame_samples <- PyFloat.int (framesz * fs) ;;
      '(_, _, X) <- signal_stft {| st_x := x;
                                   st_fs := fs;
                                   st_window := "hann";
                                   st_nperseg := frame_samples;
                                   st_noverlap := frame_samples;
                                   st_nfft := fft_size;
                                   st_return_onesided := negb two_sided |} ;;
      Ok (T X))).
Proof.
  intros Hf Hh Hs.
  split; [apply int_product_zero; assumption |].
  split; [apply int_product_zero; assumption |].
  intros Hlt. apply (int_product_zero hop fs Hh Hs) in Hlt.
  unfold stft. rewrite Hlt.
  destruct (PyFloat.int (framesz * fs)) as [n | e]; cbn [bind]; [| reflexivity].
  rewrite Z.sub_0_r. reflexivity.
Qed.

(** X6: a sample rate that is not finite makes [stft] raise before the library
    is called: [ValueError] when the product of frame size and rate is a
    NaN (the rate or the frame size is a NaN, or the frame size is a
    zero), [OverflowError] otherwise. *)
Theorem stft_rate_not_finite
        (x : list float) (fs framesz hop : float)
        (two_sided : bool) (fft_size : option Z) :
  PrimFloat.is_finite fs = false ->
  stft x fs framesz hop two_sided fft_size
  = Raise (if PrimFloat.is_nan fs || PrimFloat.is_nan framesz
              || PrimFloat.is_zero framesz
           then ValueError else OverflowError).
Proof.
  rewrite is_finite_Prim2SF, !is_nan_Prim2SF, is_zero_Prim2SF.
  unfold stft, PyFloat.int. rewrite mul_spec.
  destruct (Prim2SF fs) as [s | s | | s m e]; try discriminate; intros _;
    destruct (Prim2SF framesz) as [sf | sf | | sf mf ef]; reflexivity.
Qed.

(** X7: a sample rate that is not finite makes [istft] raise before the
    library is called, and nothing is logged: [ValueError] when the product
    of hop size and rate is a NaN (the rate or the hop is a NaN, or the hop
    is a zero), [OverflowError] otherwise. *)
Theorem istft_rate_not_finite
        (X : ndarray (complex float)) (fs : float) (recon_size : option Z)
        (hop : float) (two_sided : bool) (fft_size : option Z) :
  PrimFloat.is_finite fs = false ->
  istft X fs recon_size hop two_sided fft_size
  = (Raise (if PrimFloat.is_nan fs || PrimFloat.is_nan hop
               || PrimFloat.is_zero hop
            then ValueError else OverflowError), []).
Proof.
  rewrite is_finite_Prim2SF, !is_nan_Prim2SF, is_zero_Prim2SF.
  unfold istft, lbind, lift, PyFloat.int. cbn [fst snd]. rewrite mul_spec.
  destruct (Prim2SF fs) as [s | s | | s m e]; try discriminate; intros _;
    destruct (Prim2SF hop) as [sf | sf | | sf mf ef]; reflexivity.
Qed.

End Counts.

End Conversions.

(* ================================================================== *)
(** * The sample counts are floors                                     *)
(* ================================================================== *)

Section SampleFloor.

Context {S : SciPySignal}.

Local Open Scope R_scope.

Lemma Int_part_IZR (z : Z) : Int_part (IZR z) = z.
Proof. symmetry. apply Int_part_spec. lra. Qed.

Lemma IZR_pow2 (p : positive) : IZR (2 ^ Zpos p) = 2 ^ Pos.to_nat p.
Proof. rewrite <- (positive_nat_Z p), <- pow_IZR. reflexivity. Qed.

(** The quotient of the integers is the integer part of the quotient of
    the reals. *)
Lemma Int_part_div (a d : Z) :
  (0 < d)%Z -> Int_part (IZR a * / IZR d) = (a / d)%Z.
Proof.
  intros Hd. symmetry. apply Int_part_spec.
  pose proof (Z.mul_div_le a d Hd) as Hle.
  pose proof (Z.mul_succ_div_gt a d Hd) as Hgt.
  apply IZR_le in Hle. apply IZR_lt in Hgt.
  unfold Z.succ in Hgt. rewrite mult_IZR in Hle, Hgt. rewrite plus_IZR in Hgt.
  assert (Hd0 : 0 < IZR d) by (apply IZR_lt; exact Hd).
  set (q := IZR (a / d)) in *. set (rd := IZR d) in *. set (ra := IZR a) in *.
  split.
  - apply (Rmult_lt_reg_r rd); [exact Hd0 |].
    replace ((ra * / rd - 1) * rd) with (ra - rd) by (field; lra). lra.
  - apply (Rmult_le_reg_r rd); [exact Hd0 |].
    replace (ra * / rd * rd) with ra by (field; lra). lra.
Qed.

(** [math.floor] of a float is the integer part of the real number the
    float stands for. *)
Lemma SFfloor_Int_part (x : spec_float) (n : Z) :
  PyFloat.SFfloor x = Ok n -> n = Int_part (SF2R x).
Proof.
  destruct x as [s | s | | s m e]; cbn [PyFloat.SFfloor SF2R]; try discriminate;
    intros H; injection H as <-.
  - symmetry. exact (Int_part_IZR 0).
  - unfold PyFloat.scaled. set (M := cond_Zopp s (Zpos m)).
    destruct e as [| p | p].
    + cbn [powerRZ]. rewrite Rmult_1_r, Z.shiftl_0_r. symmetry. apply Int_part_IZR.
    + rewrite Z.shiftl_mul_pow2 by lia. cbn [powerRZ].
      rewrite <- IZR_pow2, <- mult_IZR. symmetry. apply Int_part_IZR.
    + change (Z.shiftl M (Zneg p)) with (Z.shiftr M (Zpos p)).
      rewrite Z.shiftr_div_pow2 by lia. cbn [powerRZ].
      rewrite <- IZR_pow2. symmetry. apply Int_part_div.
      apply Z.pow_pos_nonneg; lia.
Qed.

(** C9: for positive frame size, hop size and sample rate whose products
    are finite floats, [stft] hands the library
    [nperseg = floor (framesz * fs)] and
    [noverlap = floor (framesz * fs) - floor (hop * fs)], the floor being
    the integer part of the real number the binary64 product stands for;
    when a product overflows to the infinity, [stft] raises
    [OverflowError]. *)
Theorem stft_sample_counts
        (x : list float) (fs framesz hop : float)
        (two_sided : bool) (fft_size : option Z) :
  PyFloat.positive framesz -> PyFloat.positive hop -> PyFloat.positive fs ->
  (PrimFloat.is_finite (framesz * fs) = true ->
   PrimFloat.is_finite (hop * fs) = true ->
   let frame_samples := Int_part (float_value (framesz * fs)) in
   let hop_samples := Int_part (float_value (hop * fs)) in
   stft x fs framesz hop two_sided fft_size
   = ('(_, _, X) <- signal_stft {| st_x := x;
                                   st_fs := fs;
                                   st_window := "hann";
                                   st_nperseg := frame_samples;
                                   st_noverlap := (frame_samples - hop_samples)%Z;
                                   st_nfft := fft_size;
                                   st_return_onesided := negb two_sided |} ;;
      Ok (T X))) /\
  (PrimFloat.is_finite (framesz * fs) = false \/
   PrimFloat.is_finite (hop * fs) = false ->
   stft x fs framesz hop two_sided fft_size = Raise OverflowError).
Proof.
  intros Hf Hh Hs.
  rewrite (stft_floor_counts x fs framesz hop two_sided fft_size Hf Hh Hs).
  unfold stft_by_floor, PyFloat.floor, float_value.
  rewrite !Conversions.is_finite_Prim2SF.
  pose proof (Conversions.mul_positive_cases framesz fs Hf Hs) as Cf.
  pose proof (Conversions.mul_positive_cases hop fs Hh Hs) as Ch.
  unfold nonneg in Cf, Ch.
  pose proof (SFfloor_Int_part (Prim2SF (framesz * fs))) as Ff.
  pose proof (SFfloor_Int_part (Prim2SF (hop * fs))) as Fh.
  split.
  - intros If Ih. cbv zeta.
    destruct (PyFloat.SFfloor (Prim2SF (framesz * fs))) as [n | e] eqn:En.
    + destruct (PyFloat.SFfloor (Prim2SF (hop * fs))) as [h | e] eqn:Eh.
      * rewrite <- (Ff n eq_refl), <- (Fh h eq_refl). reflexivity.
      * exfalso. destruct (Prim2SF (hop * fs)); discriminate.
    + exfalso. destruct (Prim2SF (framesz * fs)); discriminate.
  - intros [If | Ih].
    + destruct Cf as [Cf | Cf]; [| rewrite Cf; reflexivity].
      destruct (Prim2SF (framesz * fs)); try contradiction; discriminate.
    + destruct Ch as [Ch | Ch];
        [destruct (Prim2SF (hop * fs)); try contradiction; discriminate |].
      rewrite Ch. cbn [PyFloat.SFfloor bind].
      destruct Cf as [Cf | Cf]; [| rewrite Cf; reflexivity].
      destruct (Prim2SF (framesz * fs)) as [s | s | | s m e];
        try contradiction; reflexivity.
Qed.

End SampleFloor.

Module SampleFloorFacts.

Import Silent.

Lemma stft_sample_counts_witness :
  Int_part (float_value (frame_25ms * rate_16k)) = 400%Z /\
  Int_part (float_value (hop_10ms * rate_16k)) = 160%Z /\
  @stft library one_second rate_16k frame_25ms hop_10ms false None
  = ('(_, _, X) <- @signal_stft library
                     {| st_x := one_second;
                        st_fs := rate_16k;
                        st_window := "hann";
                        st_nperseg := 400;
                        st_noverlap := 240;
                        st_nfft := None;
                        st_return_onesided := negb false |} ;;
     Ok (T X)).
Proof.
  destruct (@stft_sample_counts library one_second rate_16k frame_25ms hop_10ms
              false None) as [Hfin _]; [reflexivity | reflexivity | reflexivity |].
  specialize (Hfin eq_refl eq_refl). cbv zeta in Hfin.
  assert (En : Int_part (float_value (frame_25ms * rate_16k)) = 400%Z)
    by (symmetry; apply SFfloor_Int_part; vm_compute; reflexivity).
  assert (Eh : Int_part (float_value (hop_10ms * rate_16k)) = 160%Z)
    by (symmetry; apply SFfloor_Int_part; vm_compute; reflexivity).
  rewrite En, Eh in Hfin.
  split; [exact En |]. split; [exact Eh |]. exact Hfin.
Defined.

End SampleFloorFacts.

(* ================================================================== *)
(** * Edge cases of [scale_spectrogram]                                *)
(* ================================================================== *)

Section ScaleEdges.

Context {F : Type} {N : Numpy F}.

(** X8: [scale_spectrogram] raises exactly on the arrays without cells, those
    of shape [(0, n)] or [(n, 0)], and what it raises then is a
    [ValueError]; on every other array it returns a pair. *)
Theorem scale_spectrogram_raises_iff (X : ndarray (complex F)) :
  (scale_spectrogram X = Raise ValueError <-> flat X = []) /\
  ((exists out ph, scale_spectrogram X = Ok (out, ph)) <-> flat X <> []) /\
  (forall e, scale_spectrogram X = Raise e -> e = ValueError).
Proof.
  rewrite scale_spectrogram_unfold. unfold amax, amin, reduce.
  rewrite compressed_flat.
  destruct (flat X) as [| z zs]; cbn [map bind].
  - split; [split; reflexivity |]. split.
    + split; [intros (out & ph & H); discriminate | intros H; now elim H].
    + intros e H. injection H as <-. reflexivity.
  - split; [split; discriminate |]. split.
    + split; [discriminate | intros _; eauto].
    + discriminate.
Qed.

End ScaleEdges.

Module ScaleFloats.

Import Rounding UnitRange.

(** ** NaN and the reductions *)

Lemma fmaximum_nan (a b : float) :
  PrimFloat.is_nan a = true \/ PrimFloat.is_nan b = true ->
  PrimFloat.is_nan (fmaximum a b) = true.
Proof.
  unfold fmaximum. intros [Ha | Hb].
  - rewrite Ha, orb_true_r. exact Ha.
  - destruct (PrimFloat.leb b a) eqn:Hle.
    + apply F64.leb_not_nan in Hle. destruct Hle. congruence.
    + destruct (PrimFloat.is_nan a) eqn:Ha; simpl; assumption.
Qed.

Lemma fold_maximum_nan (vs : list float) (v : float) :
  (exists u, In u (v :: vs) /\ PrimFloat.is_nan u = true) ->
  PrimFloat.is_nan (fold_left fmaximum vs v) = true.
Proof.
  revert v. induction vs as [| b vs IH]; intros v (u & Hin & Hu).
  - destruct Hin as [<- | []]. exact Hu.
  - cbn [fold_left]. apply IH.
    destruct Hin as [E | [E | Hin]].
    + exists (fmaximum v b). split; [left; reflexivity |].
      apply fmaximum_nan. left. now rewrite E.
    + exists (fmaximum v b). split; [left; reflexivity |].
      apply fmaximum_nan. right. now rewrite E.
    + exists u. split; [right; exact Hin | exact Hu].
Qed.

Lemma div_by_nan (a d : float) :
  PrimFloat.is_nan d = true -> PrimFloat.is_nan (a / d) = true.
Proof.
  rewrite !F64.is_nan_spec, div_spec. intros ->.
  destruct (Prim2SF a); reflexivity.
Qed.

Lemma sub_of_nan (a b : float) :
  PrimFloat.is_nan a = true -> PrimFloat.is_nan (a - b) = true.
Proof.
  rewrite !F64.is_nan_spec, sub_spec. intros ->. reflexivity.
Qed.

Lemma Forall2_map_r {A B : Type} (P : A -> B -> Prop) (g : A -> B) (l : list A) :
  (forall u, In u l -> P u (g u)) -> Forall2 P l (map g l).
Proof.
  induction l as [| a l IH]; intros H; cbn [map]; constructor.
  - apply H. left. reflexivity.
  - apply IH. intros u Hu. apply H. right. exact Hu.
Qed.

Lemma self_quotient (v : float) :
  PrimFloat.is_nan ((v - v) / (v - v)) = true.
Proof.
  rewrite F64.is_nan_spec, div_spec, sub_spec.
  apply F64.SFdiv_zero_or_nan.
  - destruct (Prim2SF v) as [s | s | | s m e] eqn:E;
      try (apply F64.SFsub_equal; rewrite F64.SFeqb_self; reflexivity).
    exact I.
  - destruct (Prim2SF v) as [s | s | | s m e] eqn:E;
      try (apply F64.SFsub_equal; rewrite F64.SFeqb_self; reflexivity).
    exact I.
Qed.

Section Cells.

Variable L : libm.
Let N64 : Numpy float := float64 L.

(** What the extrema of the compressed magnitude are when the maximum is
    not a NaN: cells of the array that bound every cell, and every cell
    is a square root. *)
Lemma compressed_extrema (X : ndarray (complex float)) (M m : float) :
  @amax float N64 (@compressed float N64 X) = Ok M ->
  @amin float N64 (@compressed float N64 X) = Ok m ->
  PrimFloat.is_nan M = false ->
  In M (flat (@compressed float N64 X)) /\
  In m (flat (@compressed float N64 X)) /\
  PrimFloat.is_nan m = false /\
  forall u, In u (flat (@compressed float N64 X)) ->
            PrimFloat.leb m u = true /\ PrimFloat.leb u M = true /\
            exists w, u = PrimFloat.sqrt w.
Proof.
  intros HM Hm HnM.
  unfold amax, amin, reduce in HM, Hm.
  assert (Hsqrt : forall u, In u (flat (@compressed float N64 X)) ->
                            exists w, u = PrimFloat.sqrt w).
  { intros u Hu. unfold compressed in Hu. rewrite flat_amap in Hu.
    apply in_map_iff in Hu. destruct Hu as (w & <- & _). eauto. }
  destruct (flat (@compressed float N64 X)) as [| v vs] eqn:Hflat; [discriminate |].
  injection HM as HM. injection Hm as Hm.
  change (@np_maximum float N64) with fmaximum in HM.
  change (@np_minimum float N64) with fminimum in Hm.
  pose proof (F64.fold_maximum_upper vs v) as Hup. cbv zeta in Hup.
  rewrite HM in Hup. specialize (Hup HnM).
  pose proof (F64.fold_maximum_in vs v) as HinM. rewrite HM in HinM.
  pose proof (F64.fold_minimum_in vs v) as Hinm. rewrite Hm in Hinm.
  rewrite Forall_forall in Hup.
  assert (Hnm : PrimFloat.is_nan m = false)
    by (apply (F64.leb_not_nan m M), Hup, Hinm).
  pose proof (F64.fold_minimum_lower vs v) as Hlo. cbv zeta in Hlo.
  rewrite Hm in Hlo. specialize (Hlo Hnm).
  rewrite Forall_forall in Hlo.
  split; [exact HinM |]. split; [exact Hinm |]. split; [exact Hnm |].
  intros u Hu. split; [apply Hlo, Hu |]. split; [apply Hup, Hu | apply Hsqrt, Hu].
Qed.

(** X9: one cell whose compressed magnitude is a NaN makes every cell of the
    returned magnitude a NaN. *)
Theorem scale_spectrogram_nan_poison
        (X : ndarray (complex float)) (z : complex float) :
  In z (flat X) ->
  PrimFloat.is_nan (PrimFloat.sqrt (hypot L (re z) (im z))) = true ->
  exists out ph,
    @scale_spectrogram float N64 X = Ok (out, ph) /\
    same_shape out X /\
    Forall (fun q => PrimFloat.is_nan q = true) (flat out).
Proof.
  intros Hz Hnan.
  rewrite scale_spectrogram_unfold. unfold amax, amin, reduce.
  assert (Hin : In (PrimFloat.sqrt (hypot L (re z) (im z)))
                   (flat (@compressed float N64 X))).
  { rewrite compressed_flat.
    apply (in_map (fun z => PrimFloat.sqrt (hypot L (re z) (im z)))), Hz. }
  destruct (flat (@compressed float N64 X)) as [| v vs] eqn:Hflat; [destruct Hin |].
  cbn [bind].
  change (@np_maximum float N64) with fmaximum.
  change (@np_minimum float N64) with fminimum.
  set (M := fold_left fmaximum vs v). set (m := fold_left fminimum vs v).
  assert (HM : PrimFloat.is_nan M = true) by (apply fold_maximum_nan; eauto).
  eexists _, _. split; [reflexivity |]. split.
  - unfold compressed, np_abs. rewrite !amap_amap. apply same_shape_amap.
  - rewrite flat_amap. apply Forall_forall. intros q Hq.
    apply in_map_iff in Hq. destruct Hq as (u & <- & _).
    apply div_by_nan, sub_of_nan, HM.
Qed.

(** X10: when the largest compressed magnitude is infinite and the smallest is
    finite, every cell of finite magnitude is scaled to a zero and every
    cell of infinite magnitude to a NaN. *)
Theorem scale_spectrogram_infinite_max
        (X : ndarray (complex float)) (M m : float) :
  @amax float N64 (@compressed float N64 X) = Ok M ->
  @amin float N64 (@compressed float N64 X) = Ok m ->
  PrimFloat.is_infinity M = true ->
  PrimFloat.is_finite m = true ->
  exists out ph,
    @scale_spectrogram float N64 X = Ok (out, ph) /\
    Forall2 (fun u q => if PrimFloat.is_finite u
                        then PrimFloat.is_zero q = true
                        else PrimFloat.is_nan q = true)
            (flat (@compressed float N64 X)) (flat out).
Proof.
  intros HM Hm IM Fm.
  assert (HnM : PrimFloat.is_nan M = false).
  { unfold PrimFloat.is_infinity in IM. rewrite eqb_spec, abs_spec in IM.
    apply F64.not_nan_spec. intros E. rewrite E in IM. discriminate. }
  destruct (compressed_extrema X M m HM Hm HnM) as (HinM & Hinm & Hnm & Hall).
  rewrite scale_spectrogram_unfold, HM, Hm. cbn [bind].
  eexists _, _. split; [reflexivity |].
  rewrite flat_amap. apply Forall2_map_r. intros u Hu.
  destruct (Hall u Hu) as (Hmu & HuM & w & Ew).
  destruct (Hall m Hinm) as (_ & _ & wm & Ewm).
  destruct (Hall M HinM) as (_ & _ & wM & EwM).
  change (@np_divide float N64) with PrimFloat.div.
  change (@np_subtract float N64) with PrimFloat.sub.
  assert (EM : Prim2SF M = S754_infinity false).
  { pose proof (sqrt_range wM) as HS. rewrite <- EwM in HS.
    unfold PrimFloat.is_infinity in IM. rewrite eqb_spec, abs_spec in IM.
    change (Prim2SF infinity) with (S754_infinity false) in IM.
    destruct (Prim2SF M) as [s | [|] | | s mm ee]; try discriminate;
      [contradiction | reflexivity]. }
  assert (Nm : nonneg m).
  { pose proof (sqrt_range wm) as HS. rewrite <- Ewm in HS.
    apply is_finite_spec in Fm. unfold nonneg.
    destruct (Prim2SF m) as [s | s | | [|] mm ee]; try contradiction; exact I. }
  assert (Ed : Prim2SF (M - m) = S754_infinity false).
  { rewrite sub_spec, EM. unfold nonneg in Nm.
    destruct (Prim2SF m) as [s | s | | s mm ee]; try contradiction; reflexivity. }
  pose proof (sqrt_range w) as HS. rewrite <- Ew in HS.
  rewrite Conversions.is_finite_Prim2SF.
  rewrite leb_spec in HuM.
  destruct (Prim2SF u) as [s | [|] | | [|] mu eu] eqn:Eu; try contradiction.
  - (* a zero *)
    assert (Nu : nonneg u) by (unfold nonneg; rewrite Eu; exact I).
    pose proof (proj1 (leb_funits m u Nm Nu) Hmu) as Hle.
    destruct (sub_funits u m Nu Nm Hle) as [Na _].
    apply is_zero_spec. rewrite div_spec, Ed. unfold nonneg in Na.
    destruct (Prim2SF (u - m)) as [sa | sa | | sa ma ea]; try contradiction;
      cbn [SF64div SFdiv]; eauto.
  - (* the positive infinity *)
    apply F64.is_nan_spec. rewrite div_spec, Ed, sub_spec, Eu.
    unfold nonneg in Nm.
    destruct (Prim2SF m) as [sm | sm | | sm mm ee]; try contradiction; reflexivity.
  - rewrite EM in HuM. discriminate.
  - (* a positive number *)
    assert (Nu : nonneg u) by (unfold nonneg; rewrite Eu; exact I).
    pose proof (proj1 (leb_funits m u Nm Nu) Hmu) as Hle.
    destruct (sub_funits u m Nu Nm Hle) as [Na _].
    apply is_zero_spec. rewrite div_spec, Ed. unfold nonneg in Na.
    destruct (Prim2SF (u - m)) as [sa | sa | | sa ma ea]; try contradiction;
      cbn [SF64div SFdiv]; eauto.
Qed.

(** X11: under the conditions of the unit range (a finite maximum of the
    compressed magnitude that differs from the minimum) every cell of the
    returned magnitude lies between [0.0] and [1.0]; a cell that held the
    minimum is [0.0] and a cell that held the maximum is [1.0]. *)
Theorem scale_spectrogram_cells
        (X : ndarray (complex float)) (M m : float) :
  @amax float N64 (@compressed float N64 X) = Ok M ->
  @amin float N64 (@compressed float N64 X) = Ok m ->
  PrimFloat.is_finite M = true ->
  PrimFloat.eqb M m = false ->
  exists out ph,
    @scale_spectrogram float N64 X = Ok (out, ph) /\
    Forall2 (fun u q => PrimFloat.leb 0 q = true /\ PrimFloat.leb q 1 = true /\
                        (PrimFloat.eqb u m = true -> PrimFloat.eqb q 0 = true) /\
                        (PrimFloat.eqb u M = true -> PrimFloat.eqb q 1 = true))
            (flat (@compressed float N64 X)) (flat out).
Proof.
  intros HM Hm FM Hne.
  assert (HnM : PrimFloat.is_nan M = false).
  { unfold PrimFloat.is_finite in FM. rewrite negb_true_iff, orb_false_iff in FM. tauto. }
  destruct (compressed_extrema X M m HM Hm HnM) as (HinM & Hinm & Hnm & Hall).
  rewrite scale_spectrogram_unfold, HM, Hm. cbn [bind].
  eexists _, _. split; [reflexivity |].
  assert (Hnn : forall u, In u (flat (@compressed float N64 X)) -> nonneg u).
  { intros u Hu. destruct (Hall u Hu) as (_ & HuM & Hw).
    apply (is_finite_nonneg u M); auto. }
  pose proof (Hnn M HinM) as NM. pose proof (Hnn m Hinm) as Nm.
  assert (Hlt : (funits m < funits M)%Z).
  { destruct (Hall M HinM) as (HmM & _ & _).
    pose proof (proj1 (leb_funits m M Nm NM) HmM) as Hle.
    destruct (Z.eq_dec (funits m) (funits M)) as [E | ?]; [| lia].
    symmetry in E. apply (eqb_funits M m NM Nm) in E. congruence. }
  rewrite flat_amap. apply Forall2_map_r. intros u Hu.
  change (@np_divide float N64) with PrimFloat.div.
  change (@np_subtract float N64) with PrimFloat.sub.
  destruct (Hall u Hu) as (Hmu & HuM & _).
  pose proof (Hnn u Hu) as Nu.
  destruct (scaled_cell m u M Nm Nu NM
              (proj1 (leb_funits m u Nm Nu) Hmu)
              (proj1 (leb_funits u M Nu NM) HuM) Hlt) as (Nq & Bq & Z0 & O1).
  cbv zeta in *.
  split; [| split; [| split]].
  - apply (leb_funits _ _ nonneg_zero Nq).
    change (funits 0) with 0%Z. apply units_nonneg.
  - apply (leb_funits _ _ Nq nonneg_one). rewrite funits_one. exact Bq.
  - intros E. apply (eqb_funits _ _ Nu Nm) in E.
    apply (eqb_funits _ _ Nq nonneg_zero). change (funits 0) with 0%Z. auto.
  - intros E. apply (eqb_funits _ _ Nu NM) in E.
    apply (eqb_funits _ _ Nq nonneg_one). rewrite funits_one. auto.
Qed.

(** X12: a spectrogram of one cell: whatever the cell, the returned magnitude
    is one NaN. *)
Theorem scale_spectrogram_single_cell
        (X : ndarray (complex float)) (z : complex float) :
  flat X = [z] ->
  exists out ph q,
    @scale_spectrogram float N64 X = Ok (out, ph) /\
    flat out = [q] /\ PrimFloat.is_nan q = true.
Proof.
  intros Hz.
  rewrite scale_spectrogram_unfold. unfold amax, amin, reduce.
  rewrite compressed_flat, Hz. cbn [map fold_left bind].
  eexists _, _, _. split; [reflexivity |].
  rewrite flat_amap, compressed_flat, Hz. cbn [map].
  split; [reflexivity |]. apply self_quotient.
Qed.

End Cells.

End ScaleFloats.

(* ================================================================== *)
(** * The further properties on examples                               *)
(* ================================================================== *)

Module CoverageFacts.

Import Silent Examples.

Lemma istft_after_stft_witness :
  exists frame_samples hop_samples f t Zxx,
    PyFloat.int (frame_25ms * rate_16k) = Ok frame_samples /\
    PyFloat.int (hop_10ms * rate_16k) = Ok hop_samples /\
    @signal_stft library
      {| st_x := one_second;
         st_fs := rate_16k;
         st_window := "hann";
         st_nperseg := frame_samples;
         st_noverlap := (frame_samples - hop_samples)%Z;
         st_nfft := None;
         st_return_onesided := negb false |} = Ok (f, t, Zxx) /\
    let points := fft_points frame_samples None in
    let recovered := if false then points else (2 * (points / 2))%Z in
    fst (@istft library (T (zeros 201 101)) rate_16k (Some 16001%Z) hop_10ms false None)
    = ('(_, y) <- @signal_istft library
                    {| is_Zxx := Zxx;
                       is_fs := rate_16k;
                       is_window := "hann";
                       is_nperseg := recovered;
                       is_nfft := None;
                       is_noverlap := (recovered - hop_samples)%Z;
                       is_input_onesided := negb false |} ;;
       Ok y) /\
    (@None Z = None ->
     (recovered = frame_samples <-> false = true \/ Z.even frame_samples = true)).
Proof.
  apply (@istft_after_stft library one_second rate_16k frame_25ms hop_10ms
           false None (Some 16001%Z) (T (zeros 201 101)) SilentFacts.library_bins).
  vm_compute. reflexivity.
Defined.

Lemma stft_result_wf_witness :
  wf_ndarray (T (zeros 201 101)) /\
  exists c f t Zxx,
    @signal_stft library c = Ok (f, t, Zxx) /\
    T (T (zeros 201 101)) = Zxx /\
    nrows (T (zeros 201 101)) = ncols Zxx /\
    ncols (T (zeros 201 101)) = nrows Zxx.
Proof.
  apply (@stft_result_wf library one_second rate_16k frame_25ms hop_10ms
           false None (T (zeros 201 101)) SilentFacts.library_bins).
  vm_compute. reflexivity.
Defined.

Lemma stft_overlap_bounds_witness :
  exists hop_samples,
    PyFloat.int (hop_10ms * rate_16k) = Ok hop_samples /\
    (0 <= hop_samples <= 400)%Z /\
    (0 <= 400 - hop_samples <= 400)%Z /\
    @stft library one_second rate_16k frame_25ms hop_10ms false None
    = ('(_, _, X) <- @signal_stft library
                       {| st_x := one_second;
                          st_fs := rate_16k;
                          st_window := "hann";
                          st_nperseg := 400;
                          st_noverlap := (400 - hop_samples)%Z;
                          st_nfft := None;
                          st_return_onesided := negb false |} ;;
       Ok (T X)).
Proof.
  apply (@Conversions.stft_overlap_bounds library one_second rate_16k frame_25ms
           hop_10ms false None 400%Z);
    [reflexivity | reflexivity | reflexivity | vm_compute; reflexivity].
Defined.

(** A hop of ten microseconds at 16 kHz is a sixth of a sample period. *)
Lemma stft_below_one_sample_witness :
  PrimFloat.ltb (0x1.4f8b588e368f1p-17 * rate_16k) 1 = true /\
  PyFloat.int (0x1.4f8b588e368f1p-17 * rate_16k) = Ok 0%Z /\
  @stft library one_second rate_16k frame_25ms 0x1.4f8b588e368f1p-17%float false None
  = (frame_samples <- PyFloat.int (frame_25ms * rate_16k) ;;
     '(_, _, X) <- @signal_stft library
                      {| st_x := one_second;
                         st_fs := rate_16k;
                         st_window := "hann";
                         st_nperseg := frame_samples;
                         st_noverlap := frame_samples;
                         st_nfft := None;
                         st_return_onesided := negb false |} ;;
     Ok (T X)).
Proof.
  destruct (@Conversions.stft_below_one_sample library one_second rate_16k frame_25ms
              0x1.4f8b588e368f1p-17%float false None)
    as (_ & Hiff & Hcall); [reflexivity | reflexivity | reflexivity |].
  assert (Hlt : PrimFloat.ltb (0x1.4f8b588e368f1p-17 * rate_16k) 1 = true)
    by reflexivity.
  split; [exact Hlt |]. split; [apply Hiff, Hlt | apply Hcall, Hlt].
Defined.

Lemma stft_rate_not_finite_witness :
  @stft library one_second infinity frame_25ms hop_10ms false None
  = Raise (if PrimFloat.is_nan infinity || PrimFloat.is_nan frame_25ms
              || PrimFloat.is_zero frame_25ms
           then ValueError else OverflowError).
Proof.
  apply (@Conversions.stft_rate_not_finite library one_second infinity frame_25ms
           hop_10ms false None).
  reflexivity.
Defined.

Lemma istft_rate_not_finite_witness :
  @istft library (zeros 101 201) nan (Some 16001%Z) hop_10ms false None
  = (Raise (if PrimFloat.is_nan nan || PrimFloat.is_nan hop_10ms
               || PrimFloat.is_zero hop_10ms
            then ValueError else OverflowError), []).
Proof.
  apply (@Conversions.istft_rate_not_finite library (zeros 101 201) nan
           (Some 16001%Z) hop_10ms false None).
  reflexivity.
Defined.

Lemma scale_spectrogram_nan_poison_witness :
  exists out ph,
    @scale_spectrogram float (float64 axis_libm) (real_row [nan; 1%float])
    = Ok (out, ph) /\
    same_shape out (real_row [nan; 1%float]) /\
    Forall (fun q => PrimFloat.is_nan q = true) (flat out).
Proof.
  apply (ScaleFloats.scale_spectrogram_nan_poison axis_libm
           (real_row [nan; 1%float]) {| re := nan; im := 0%float |});
    [left; reflexivity | reflexivity].
Defined.

Lemma scale_spectrogram_infinite_max_witness :
  exists out ph,
    @scale_spectrogram float (float64 axis_libm) (real_row [1%float; infinity])
    = Ok (out, ph) /\
    Forall2 (fun u q => if PrimFloat.is_finite u
                        then PrimFloat.is_zero q = true
                        else PrimFloat.is_nan q = true)
            (flat (@compressed float (float64 axis_libm)
                     (real_row [1%float; infinity])))
            (flat out).
Proof.
  apply (ScaleFloats.scale_spectrogram_infinite_max axis_libm
           (real_row [1%float; infinity]) infinity 1%float);
    reflexivity.
Defined.

Lemma scale_spectrogram_cells_witness :
  exists out ph,
    @scale_spectrogram float (float64 axis_libm) one_four = Ok (out, ph) /\
    Forall2 (fun u q => PrimFloat.leb 0 q = true /\ PrimFloat.leb q 1 = true /\
                        (PrimFloat.eqb u 1 = true -> PrimFloat.eqb q 0 = true) /\
                        (PrimFloat.eqb u 2 = true -> PrimFloat.eqb q 1 = true))
            (flat (@compressed float (float64 axis_libm) one_four)) (flat out).
Proof.
  apply (ScaleFloats.scale_spectrogram_cells axis_libm one_four 2%float 1%float);
    reflexivity.
Defined.

Lemma scale_spectrogram_single_cell_witness :
  exists out ph q,
    @scale_spectrogram float (float64 axis_libm) (real_row [5%float])
    = Ok (out, ph) /\
    flat out = [q] /\ PrimFloat.is_nan q = true.
Proof.
  apply (ScaleFloats.scale_spectrogram_single_cell axis_libm (real_row [5%float])
           {| re := 5%float; im := 0%float |}).
  reflexivity.
Defined.

End CoverageFacts.

(* ================================================================== *)
(** * Binary64: division                                               *)
(* ================================================================== *)

Module Division.

Import Rounding Quotients.
Local Open Scope Z_scope.

Lemma rneq_bounds (a d : Z) : a / d <= rneq a d <= a / d + 1.
Proof.
  unfold rneq. destruct (_ <? _); [lia |].
  destruct (_ <? _); [lia |]. destruct (Z.even _); lia.
Qed.

Lemma rneq_mono (a1 a2 d : Z) :
  0 < d -> a1 <= a2 -> rneq a1 d <= rneq a2 d.
Proof.
  intros Hd Hle.
  assert (Hq : a1 / d <= a2 / d) by (apply Z.div_le_mono; lia).
  destruct (Z.eq_dec (a1 / d) (a2 / d)) as [E | NE].
  - unfold rneq. rewrite <- E.
    assert (Hrem : a1 mod d <= a2 mod d).
    { rewrite (Z.mod_eq a1), (Z.mod_eq a2), E by lia. lia. }
    destruct (Z.ltb_spec (2 * (a1 mod d)) d);
      destruct (Z.ltb_spec (2 * (a2 mod d)) d);
      destruct (Z.ltb_spec d (2 * (a1 mod d)));
      destruct (Z.ltb_spec d (2 * (a2 mod d)));
      destruct (Z.even (a1 / d)); lia.
  - pose proof (rneq_bounds a1 d). pose proof (rneq_bounds a2 d). lia.
Qed.

Lemma rneq_scale (a d c : Z) :
  0 < d -> 0 < c -> rneq (a * c) (d * c) = rneq a d.
Proof.
  intros Hd Hc. unfold rneq.
  rewrite Z.div_mul_cancel_r by lia.
  rewrite Z.mul_mod_distr_r by lia.
  destruct (Z.ltb_spec (2 * (a mod d * c)) (d * c));
    destruct (Z.ltb_spec (2 * (a mod d)) d); try nia.
  destruct (Z.ltb_spec (d * c) (2 * (a mod d * c)));
    destruct (Z.ltb_spec d (2 * (a mod d))); try nia; reflexivity.
Qed.

Lemma rneq_zero (d : Z) : 0 < d -> rneq 0 d = 0.
Proof.
  intros Hd. unfold rneq. rewrite Z.div_0_l, Z.mod_0_l by lia.
  destruct (Z.ltb_spec (2 * 0) d); [reflexivity | lia].
Qed.

Lemma round_quotient_zero (d : Z) : 0 < d -> round_quotient 0 d = 0.
Proof.
  intros Hd. unfold round_quotient. rewrite Z.div_0_l by lia.
  change (Z.max (digits 0 - 53) 0) with 0.
  rewrite Z.pow_0_r, Z.mul_1_r, rneq_zero by lia. reflexivity.
Qed.

Lemma round_quotient_mono (a1 a2 d : Z) :
  0 < d -> 0 <= a1 -> a1 <= a2 -> round_quotient a1 d <= round_quotient a2 d.
Proof.
  intros Hd H0 Hle.
  assert (Hq0 : 0 <= a1 / d) by (apply Z.div_pos; lia).
  assert (Hq : a1 / d <= a2 / d) by (apply Z.div_le_mono; lia).
  assert (Hdig : digits (a1 / d) <= digits (a2 / d)).
  { destruct (Z.eq_dec (a1 / d) 0) as [E | NE].
    - rewrite E. change (digits 0) with 0.
      destruct (Z.eq_dec (a2 / d) 0) as [E2 | NE2]; [rewrite E2; simpl; lia |].
      pose proof (digits_positive (a2 / d) ltac:(lia)). lia.
    - apply digits_le; lia. }
  unfold round_quotient.
  set (n1 := Z.max (digits (a1 / d) - 53) 0).
  set (n2 := Z.max (digits (a2 / d) - 53) 0).
  assert (Hp1 : 0 < 2 ^ n1) by (apply Z.pow_pos_nonneg; lia).
  assert (Hp2 : 0 < 2 ^ n2) by (apply Z.pow_pos_nonneg; lia).
  destruct (Z.eq_dec n1 n2) as [E | NE].
  - rewrite <- E. apply Z.mul_le_mono_nonneg_r; [lia |].
    apply rneq_mono; [apply Z.mul_pos_pos; lia | exact Hle].
  - assert (Hn2 : n2 = digits (a2 / d) - 53 /\ n1 < n2) by lia.
    destruct Hn2 as [Hn2 Hlt].
    assert (Hpos2 : 0 < a2 / d).
    { destruct (Z.eq_dec (a2 / d) 0) as [E2 | NE2]; [| lia].
      rewrite E2 in Hn2. change (digits 0) with 0 in Hn2. lia. }
    pose proof (top_bits (a2 / d) Hpos2 ltac:(lia)) as [Htop _].
    rewrite <- Hn2 in Htop. rewrite Z.div_div in Htop by lia.
    pose proof (rneq_bounds a2 (d * 2 ^ n2)) as [Hl2 _].
    pose proof (rneq_bounds a1 (d * 2 ^ n1)) as [_ Hu1].
    assert (Hq1 : a1 / (d * 2 ^ n1) + 1 <= 2 ^ 53).
    { assert (a1 / (d * 2 ^ n1) < 2 ^ 53); [| lia].
      rewrite <- Z.div_div by lia.
      apply Z.div_lt_upper_bound; [lia |].
      rewrite <- Z.pow_add_r by lia.
      destruct (Z.eq_dec (a1 / d) 0) as [E0 | NE0].
      - rewrite E0. apply Z.pow_pos_nonneg; lia.
      - pose proof (digits_spec (a1 / d) ltac:(lia)) as [_ Hh1].
        assert (2 ^ digits (a1 / d) <= 2 ^ (n1 + 53))
          by (apply Z.pow_le_mono_r; lia).
        lia. }
    assert (A1 : rneq a1 (d * 2 ^ n1) * 2 ^ n1 <= 2 ^ 53 * 2 ^ n1)
      by (apply Z.mul_le_mono_nonneg_r; lia).
    assert (A2 : 2 ^ 52 * 2 ^ n2 <= rneq a2 (d * 2 ^ n2) * 2 ^ n2)
      by (apply Z.mul_le_mono_nonneg_r; lia).
    assert (A3 : 2 ^ 53 * 2 ^ n1 <= 2 ^ 52 * 2 ^ n2).
    { rewrite <- !Z.pow_add_r by lia. apply Z.pow_le_mono_r; lia. }
    lia.
Qed.

(** ** Shifts of a record that starts inexact *)

Lemma shr_iter_loc (n : nat) (m : Z) (r0 s0 : bool) :
  0 <= m ->
  Nat.iter (S n) shr_1 {| shr_m := m; shr_r := r0; shr_s := s0 |}
  = {| shr_m := m / 2 ^ Z.of_nat (S n);
       shr_r := Z.odd (m / 2 ^ Z.of_nat n);
       shr_s := negb (m mod 2 ^ Z.of_nat n =? 0) || (r0 || s0) |}.
Proof.
  intros Hm. induction n as [| n IH].
  - cbn [Nat.iter nat_rect]. rewrite shr_1_spec by assumption.
    change (2 ^ Z.of_nat 1) with 2. change (2 ^ Z.of_nat 0) with 1.
    rewrite Z.div_1_r, Z.mod_1_r. reflexivity.
  - remember (S n) as k eqn:Ek. cbn [Nat.iter nat_rect].
    fold (Nat.iter k shr_1 {| shr_m := m; shr_r := r0; shr_s := s0 |}).
    rewrite IH. subst k.
    assert (Hp : 0 < 2 ^ Z.of_nat (S n)) by (apply Z.pow_pos_nonneg; lia).
    rewrite shr_1_spec by (apply Z.div_pos; lia).
    f_equal.
    + rewrite Z.div_div by lia.
      rewrite (Nat2Z.inj_succ (S n)), Z.pow_succ_r by lia.
      f_equal. ring.
    + rewrite (Nat2Z.inj_succ n).
      unfold Z.succ. rewrite (mod_pow2_succ m (Z.of_nat n)) by lia.
      rewrite odd_mod2.
      assert (Hq : 0 < 2 ^ Z.of_nat n) by (apply Z.pow_pos_nonneg; lia).
      pose proof (Z.mod_pos_bound m (2 ^ Z.of_nat n) Hq) as Hb.
      destruct (Z.odd (m / 2 ^ Z.of_nat n)); simpl.
      * destruct (Z.eqb_spec (m mod 2 ^ Z.of_nat n + 2 ^ Z.of_nat n * 1) 0);
          [lia | reflexivity].
      * rewrite Z.mul_0_r, Z.add_0_r. reflexivity.
Qed.

(** The location of a remainder [r] of a division by [d], as the two bits
    of a record: whether [r] is at least half of [d], and whether it is
    neither zero nor that half. *)
Lemma location_bits (q d r : Z) :
  0 < d -> 0 <= r < d ->
  shr_record_of_loc q (new_location d r)
  = {| shr_m := q;
       shr_r := d <=? 2 * r;
       shr_s := negb (r =? 0) && negb (2 * r =? d) |}.
Proof.
  intros Hd Hr. unfold new_location.
  destruct (Z.even d) eqn:Ev.
  - unfold new_location_even.
    destruct (Z.eqb_spec r 0) as [-> | Hne].
    + simpl. destruct (Z.leb_spec d 0); [lia | reflexivity].
    + destruct (Z.compare_spec (2 * r) d) as [E | E | E]; cbn [shr_record_of_loc negb andb].
      * rewrite E, Z.leb_refl, Z.eqb_refl. reflexivity.
      * destruct (Z.leb_spec d (2 * r)); [lia |].
        destruct (Z.eqb_spec (2 * r) d); [lia | reflexivity].
      * destruct (Z.leb_spec d (2 * r)); [| lia].
        destruct (Z.eqb_spec (2 * r) d); [lia | reflexivity].
  - unfold new_location_odd.
    assert (Hodd : 2 * r <> d).
    { intros E. rewrite <- E, Z.even_mul in Ev. discriminate. }
    destruct (Z.eqb_spec r 0) as [-> | Hne].
    + simpl. destruct (Z.leb_spec d 0); [lia | reflexivity].
    + destruct (Z.compare_spec (2 * r + 1) d) as [E | E | E]; cbn [shr_record_of_loc negb andb];
        destruct (Z.leb_spec d (2 * r)); try lia;
        destruct (Z.eqb_spec (2 * r) d); try lia; reflexivity.
Qed.

Lemma remainder_bits (d r : Z) :
  0 < d -> 0 <= r < d ->
  (d <=? 2 * r) || (negb (r =? 0) && negb (2 * r =? d)) = negb (r =? 0).
Proof.
  intros Hd Hr.
  destruct (Z.leb_spec d (2 * r)); destruct (Z.eqb_spec r 0);
    destruct (Z.eqb_spec (2 * r) d); try reflexivity; lia.
Qed.

(** Shifting the quotient of a division with the location of its
    remainder and rounding to nearest even rounds the exact quotient. *)
Lemma shr_rneq (q r d e n : Z) :
  0 <= q -> 0 < d -> 0 <= r < d -> 0 <= n ->
  let rec := fst (shr (shr_record_of_loc q (new_location d r)) e n) in
  round_nearest_even (shr_m rec) (loc_of_shr_record rec)
  = rneq (q * d + r) (d * 2 ^ n).
Proof.
  intros Hq Hd Hr Hn rec. subst rec.
  rewrite (location_bits q d r Hd Hr).
  assert (Hdiv : (q * d + r) / d = q).
  { rewrite Z.div_add_l by lia. rewrite Z.div_small by lia. lia. }
  assert (Hmod : (q * d + r) mod d = r).
  { rewrite Z.add_comm, Z.mod_add by lia. apply Z.mod_small. lia. }
  destruct n as [| p | p]; try lia.
  - cbn [shr fst]. rewrite Z.pow_0_r, Z.mul_1_r.
    unfold rneq. rewrite Hdiv, Hmod.
    destruct (Z.leb_spec d (2 * r)); destruct (Z.eqb_spec r 0);
      destruct (Z.eqb_spec (2 * r) d);
      destruct (Z.ltb_spec (2 * r) d); destruct (Z.ltb_spec d (2 * r));
      try lia; reflexivity.
  - cbn [shr fst]. rewrite iter_pos_nat.
    destruct (Pos.to_nat p) as [| k] eqn:Ek; [lia |].
    rewrite shr_iter_loc by assumption.
    rewrite (remainder_bits d r Hd Hr).
    assert (Hp : Zpos p = Z.of_nat k + 1) by lia.
    rewrite Nat2Z.inj_succ. unfold Z.succ. rewrite Hp.
    set (h := 2 ^ Z.of_nat k).
    assert (Hh : 0 < h) by (apply Z.pow_pos_nonneg; lia).
    assert (H2h : 2 ^ (Z.of_nat k + 1) = h * 2)
      by (rewrite Z.pow_add_r by lia; reflexivity).
    unfold rneq.
    assert (Hquot : (q * d + r) / (d * 2 ^ (Z.of_nat k + 1)) = q / 2 ^ (Z.of_nat k + 1)).
    { rewrite <- Z.div_div by lia. now rewrite Hdiv. }
    assert (Hrem : (q * d + r) mod (d * 2 ^ (Z.of_nat k + 1))
                   = r + d * (q mod 2 ^ (Z.of_nat k + 1))).
    { rewrite Z.rem_mul_r by lia. now rewrite Hmod, Hdiv. }
    rewrite Hquot, Hrem.
    rewrite (mod_pow2_succ q (Z.of_nat k)) by lia. fold h.
    rewrite odd_mod2. rewrite H2h.
    pose proof (Z.mod_pos_bound q h Hh) as Hlow.
    set (low := q mod h) in *.
    set (m := q / (h * 2)).
    assert (HP : 0 <= d * low <= d * h - d).
    { split; [apply Z.mul_nonneg_nonneg; lia |].
      replace (d * h - d) with (d * (h - 1)) by ring.
      apply Z.mul_le_mono_nonneg_l; lia. }
    assert (HPz : d * low = 0 <-> low = 0).
    { split; [intros E; apply Z.mul_eq_0 in E; lia | intros ->; ring]. }
    destruct (Z.odd (q / h)).
    + replace (2 * (r + d * (low + h * 1))) with (2 * r + 2 * (d * low) + d * (h * 2)) by ring.
      set (P := d * low) in *. set (DH := d * (h * 2)).
      destruct (Z.ltb_spec (2 * r + 2 * P + DH) DH); [lia |].
      destruct (Z.eqb_spec low 0) as [E0 | N0]; destruct (Z.eqb_spec r 0) as [Er | Nr];
        cbn [negb orb loc_of_shr_record round_nearest_even shr_m];
        destruct (Z.ltb_spec DH (2 * r + 2 * P + DH)); try lia; try reflexivity.
      all: exfalso; apply N0, HPz; lia.
    + replace (2 * (r + d * (low + h * 0))) with (2 * r + 2 * (d * low)) by ring.
      replace (d * (h * 2)) with (2 * (d * h)) by ring.
      set (P := d * low) in *. set (DH := d * h) in *.
      destruct (Z.ltb_spec (2 * r + 2 * P) (2 * DH)); [| lia].
      destruct (negb (low =? 0) || negb (r =? 0)); reflexivity.
Qed.

(** ** Digits of quotients *)

Lemma digits_div_pow2 (q k : Z) :
  0 <= q -> 0 <= k -> digits (q / 2 ^ k) = Z.max (digits q - k) 0.
Proof.
  intros Hq Hk.
  assert (Hp : 0 < 2 ^ k) by (apply Z.pow_pos_nonneg; lia).
  destruct (Z.eq_dec q 0) as [-> | Hne].
  { rewrite Z.div_0_l by lia. change (digits 0) with 0. lia. }
  pose proof (digits_spec q ltac:(lia)) as [Hlo Hhi].
  pose proof (digits_positive q ltac:(lia)) as Hdp.
  destruct (Z_lt_le_dec q (2 ^ k)) as [Hsmall | Hbig].
  - rewrite Z.div_small by lia. change (digits 0) with 0.
    pose proof (digits_lt_pow q k ltac:(lia) Hk). lia.
  - assert (Hdk : k < digits q).
    { destruct (Z_lt_le_dec k (digits q)) as [? | Hge]; [assumption | exfalso].
      assert (2 ^ digits q <= 2 ^ k) by (apply Z.pow_le_mono_r; lia). lia. }
    rewrite Z.max_l by lia.
    assert (Hq1 : 0 < q / 2 ^ k).
    { apply Z.div_str_pos. lia. }
    apply digits_unique; [exact Hq1 |]. split.
    + apply Z.div_le_lower_bound; [lia |].
      rewrite <- Z.pow_add_r by lia.
      replace (k + (digits q - k - 1)) with (digits q - 1) by lia. exact Hlo.
    + apply Z.div_lt_upper_bound; [lia |].
      rewrite <- Z.pow_add_r by lia.
      replace (k + (digits q - k)) with (digits q) by lia. exact Hhi.
Qed.

Lemma digits_scaled_quotient (a d j : Z) :
  0 < d -> 0 < a / d -> 0 <= j ->
  digits (a * 2 ^ j / d) = digits (a / d) + j.
Proof.
  intros Hd Hq Hj.
  assert (Hp : 0 < 2 ^ j) by (apply Z.pow_pos_nonneg; lia).
  pose proof (digits_spec (a / d) Hq) as [Hlo Hhi].
  pose proof (digits_positive (a / d) Hq) as Hdp.
  pose proof (Z.mul_div_le a d Hd) as Hle.
  pose proof (Z.mul_succ_div_gt a d Hd) as Hgt.
  set (q := a / d) in *.
  assert (Hl : q * 2 ^ j <= a * 2 ^ j / d).
  { apply Z.div_le_lower_bound; [lia |].
    replace (d * (q * 2 ^ j)) with (d * q * 2 ^ j) by ring.
    apply Z.mul_le_mono_nonneg_r; lia. }
  assert (Hu : a * 2 ^ j / d < (q + 1) * 2 ^ j).
  { apply Z.div_lt_upper_bound; [lia |].
    replace (d * ((q + 1) * 2 ^ j)) with (d * Z.succ q * 2 ^ j) by (unfold Z.succ; ring).
    apply Z.mul_lt_mono_pos_r; lia. }
  assert (Hq2 : 0 < q * 2 ^ j) by (apply Z.mul_pos_pos; lia).
  apply digits_unique; [lia |]. split.
  - replace (digits q + j - 1) with ((digits q - 1) + j) by lia.
    rewrite Z.pow_add_r by lia.
    assert (2 ^ (digits q - 1) * 2 ^ j <= q * 2 ^ j)
      by (apply Z.mul_le_mono_nonneg_r; lia).
    lia.
  - rewrite Z.pow_add_r by lia.
    assert ((q + 1) * 2 ^ j <= 2 ^ digits q * 2 ^ j)
      by (apply Z.mul_le_mono_nonneg_r; lia).
    lia.
Qed.

(** The rounding of a quotient in terms of a scaled numerator: with
    [q = a / d], the quotient of [a * 2^(k + j)] by [d * 2^k] is rounded
    at the place [max (digits q + j - 53) 0]. *)
Lemma round_quotient_shape (a d k j : Z) :
  0 <= a -> 0 < d -> 0 <= k -> 0 <= k + j ->
  (0 < a / d \/ j <= 0) ->
  let n := Z.max (digits (a / d) + j - 53) 0 - j in
  0 <= n ->
  round_quotient (a * 2 ^ (k + j)) (d * 2 ^ k)
  = rneq a (d * 2 ^ n) * 2 ^ (n + j).
Proof.
  intros Ha Hd Hk Hkj Hq n Hn.
  assert (Hpk : 0 < 2 ^ k) by (apply Z.pow_pos_nonneg; lia).
  assert (Hpkj : 0 < 2 ^ (k + j)) by (apply Z.pow_pos_nonneg; lia).
  assert (Hpn : 0 < 2 ^ n) by (apply Z.pow_pos_nonneg; lia).
  assert (Hq0 : 0 <= a / d) by (apply Z.div_pos; lia).
  assert (Hdig : Z.max (digits (a * 2 ^ (k + j) / (d * 2 ^ k)) - 53) 0 = n + j).
  { destruct (Z_le_gt_dec 0 j) as [Hj | Hj].
    - assert (E : a * 2 ^ (k + j) / (d * 2 ^ k) = a * 2 ^ j / d).
      { rewrite (Z.add_comm k j), (Z.pow_add_r 2 j k), Z.mul_assoc by lia.
        apply Z.div_mul_cancel_r; lia. }
      rewrite E.
      destruct Hq as [Hq | Hq].
      + rewrite digits_scaled_quotient by lia. unfold n. lia.
      + assert (j = 0) by lia. subst j.
        rewrite Z.pow_0_r, Z.mul_1_r. unfold n. lia.
    - assert (E : a * 2 ^ (k + j) / (d * 2 ^ k) = a / d / 2 ^ (- j)).
      { rewrite Z.div_div by (try apply Z.pow_pos_nonneg; lia).
        replace (2 ^ k) with (2 ^ (- j) * 2 ^ (k + j))
          by (rewrite <- Z.pow_add_r by lia; f_equal; lia).
        rewrite Z.mul_assoc. apply Z.div_mul_cancel_r; [| lia].
        assert (0 < 2 ^ (- j)) by (apply Z.pow_pos_nonneg; lia). lia. }
      rewrite E, digits_div_pow2 by lia. unfold n. lia. }
  unfold round_quotient. rewrite Hdig. f_equal.
  set (c := 2 ^ (k + j)).
  replace (d * 2 ^ k * 2 ^ (n + j)) with (d * 2 ^ n * c).
  - apply rneq_scale; [apply Z.mul_pos_pos; lia | exact Hpkj].
  - unfold c. rewrite <- !Z.mul_assoc, <- !Z.pow_add_r by lia.
    f_equal. f_equal. lia.
Qed.

(** The renormalisation after rounding: a carry to [2^53] is shifted
    back, anything else is left as it is. *)
Lemma shr_fexp_exact (m1 e1 : Z) :
  -1074 <= e1 ->
  2 ^ 52 <= m1 <= 2 ^ 53 \/ (e1 = -1074 /\ 0 <= m1 <= 2 ^ 52) ->
  exists mrs e,
    shr_fexp prec emax m1 e1 loc_Exact = (mrs, e) /\
    0 <= shr_m mrs /\ e1 <= e /\ shr_m mrs * 2 ^ (e - e1) = m1 /\
    (-1074 < e -> 2 ^ 52 <= shr_m mrs).
Proof.
  intros He Hm. unfold shr_fexp.
  change (Zdigits2 m1) with (digits m1). rewrite fexp_eq.
  destruct (Z.eq_dec m1 (2 ^ 53)) as [E53 | N53].
  - subst m1. change (digits (2 ^ 53)) with 54.
    replace (Z.max (54 + e1 - 53) (-1074) - e1) with 1 by lia.
    eexists _, _. split; [reflexivity |].
    cbn [shr_m shr_record_of_loc]. simpl shr_m.
    split; [lia |]. split; [lia |]. split; [| intros _; simpl; lia].
    replace (e1 + 1 - e1) with 1 by lia. reflexivity.
  - assert (Hd : digits m1 <= 53 /\ (-1074 < e1 -> digits m1 = 53)).
    { destruct Hm as [[Hl Hu] | [E [Hl Hu]]].
      - assert (digits m1 = 53) by (apply digits_unique; simpl; lia). lia.
      - split; [| lia]. apply digits_lt_pow; [| lia].
        change (2 ^ 53) with (2 * 2 ^ 52). lia. }
    assert (Hd0 : 0 <= digits m1) by (destruct m1; simpl; lia).
    replace (Z.max (digits m1 + e1 - 53) (-1074) - e1) with 0 by lia.
    eexists _, _. split; [reflexivity |].
    cbn [shr_m shr_record_of_loc].
    split; [lia |]. split; [lia |]. split.
    + rewrite Z.sub_diag, Z.pow_0_r. lia.
    + intros H. destruct Hm as [[Hl Hu] | [E _]]; lia.
Qed.

(** ** The quotient of two positive numbers of the format *)

Lemma SFdiv_round (ma md : positive) (ea ed : Z) :
  valid_binary (S754_finite false ma ea) = true ->
  valid_binary (S754_finite false md ed) = true ->
  let r := SF64div (S754_finite false ma ea) (S754_finite false md ed) in
  let v := round_quotient (Zpos ma * 2 ^ (ea + 2148)) (Zpos md * 2 ^ (ed + 1074)) in
  (r = S754_zero false /\ v = 0) \/
  exists m e,
    r = (if e <=? 971 then S754_finite false m e else S754_infinity false) /\
    -1074 <= e /\ Zpos m * 2 ^ (e + 1074) = v.
Proof.
  intros Va Vd r v.
  enough (Hmain : exists mrs e,
             r = match shr_m mrs with
                 | 0 => S754_zero false
                 | Zpos m => if e <=? 971 then S754_finite false m e
                             else S754_infinity false
                 | Zneg _ => S754_nan
                 end /\
             0 <= shr_m mrs /\ -1074 <= e /\ shr_m mrs * 2 ^ (e + 1074) = v).
  { destruct Hmain as (mrs & e & Er & Hm0 & He & Hval). rewrite Er.
    destruct (shr_m mrs) as [| m | m]; [left | right | lia].
    - split; [reflexivity | lia].
    - exists m, e. auto. }
  subst r.
  pose proof (valid_finite _ _ _ Va) as (Hea & Hda & _).
  pose proof (valid_finite _ _ _ Vd) as (Hed & Hdd & _).
  pose proof (digits_spec (Zpos ma) ltac:(lia)) as [Hla Hha].
  pose proof (digits_spec (Zpos md) ltac:(lia)) as [Hld Hhd].
  pose proof (digits_positive (Zpos ma) ltac:(lia)) as Hdap.
  pose proof (digits_positive (Zpos md) ltac:(lia)) as Hddp.
  unfold SF64div, SFdiv, SFdiv_core_binary. cbn [xorb].
  change (Zdigits2 (Zpos ma)) with (digits (Zpos ma)).
  change (Zdigits2 (Zpos md)) with (digits (Zpos md)).
  set (da := digits (Zpos ma)) in *. set (dd := digits (Zpos md)) in *.
  set (e' := Z.min (fexp prec emax (da + ea - (dd + ed))) (ea - ed)).
  assert (He' : e' = Z.min (Z.max (da + ea - (dd + ed) - 53) (-1074)) (ea - ed))
    by (unfold e'; rewrite fexp_eq; reflexivity).
  clearbody e'.
  set (s := ea - ed - e').
  assert (Hs : 0 <= s) by (unfold s; lia).
  set (m' := match s with
             | 0 => Zpos ma
             | Zpos _ => Z.shiftl (Zpos ma) s
             | Zneg _ => 0
             end).
  assert (Hm' : m' = Zpos ma * 2 ^ s).
  { unfold m'. generalize Hs. generalize s.
    intros [| p | p] Hp;
      [rewrite Z.pow_0_r; lia | apply Z.shiftl_mul_pow2; lia | lia]. }
  clearbody m'.
  assert (Hps : 0 < 2 ^ s) by (apply Z.pow_pos_nonneg; lia).
  assert (Hm'pos : 0 < m') by (rewrite Hm'; apply Z.mul_pos_pos; lia).
  pose proof (Z_div_mod m' (Zpos md) ltac:(lia)) as Hdm.
  destruct (Z.div_eucl m' (Zpos md)) as [q rm]. destruct Hdm as [Hdm Hrm].
  assert (Hq : q = m' / Zpos md)
    by (apply (Z.div_unique m' (Zpos md) q rm); [lia | exact Hdm]).
  assert (Hq0 : 0 <= q) by (rewrite Hq; apply Z.div_pos; lia).
  assert (Hm'q : q * Zpos md + rm = m') by lia.
  (* either the exponent is that of the subnormals or the quotient has at
     least 53 bits *)
  assert (Hcase : e' <= -1074 \/ 2 ^ 52 <= q).
  { destruct (Z_le_gt_dec e' (-1074)) as [? | Hgt]; [left; assumption | right].
    assert (Es : s = 53 - da + dd) by (unfold s; lia).
    rewrite Hq. apply Z.div_le_lower_bound; [lia |].
    assert (A1 : Zpos md * 2 ^ 52 <= 2 ^ dd * 2 ^ 52)
      by (apply Z.mul_le_mono_nonneg_r; lia).
    assert (A2 : 2 ^ (da - 1) * 2 ^ s <= m')
      by (rewrite Hm'; apply Z.mul_le_mono_nonneg_r; lia).
    rewrite <- Z.pow_add_r in A1, A2 by lia.
    replace (da - 1 + s) with (dd + 52) in A2 by lia. lia. }
  assert (Hdq : e' <= -1074 \/ 53 <= digits q).
  { destruct Hcase as [? | Hbig]; [left; assumption | right].
    change 53 with (digits (2 ^ 52)). apply digits_le; [lia | exact Hbig]. }
  assert (Hdq0 : 0 <= digits q) by (destruct q; simpl; lia).
  unfold binary_round_aux. unfold shr_fexp at 1.
  change (Zdigits2 q) with (digits q). rewrite fexp_eq.
  set (n := Z.max (digits q + e' - 53) (-1074) - e').
  assert (Hn : 0 <= n) by (unfold n; lia).
  pose proof (shr_rneq q rm (Zpos md) e' n Hq0 ltac:(lia) Hrm Hn) as Hround.
  cbv zeta in Hround. rewrite Hm'q in Hround.
  destruct (shr_spec (shr_record_of_loc q (new_location (Zpos md) rm)) e' n
              ltac:(rewrite shr_m_of_loc; lia)) as [He1 _].
  destruct (shr (shr_record_of_loc q (new_location (Zpos md) rm)) e' n)
    as [mrs1 e1].
  cbn [fst snd] in Hround, He1. cbv beta iota. rewrite Hround.
  rewrite Z.max_l in He1 by lia.
  set (m1 := rneq m' (Zpos md * 2 ^ n)) in *.
  assert (Hpn : 0 < 2 ^ n) by (apply Z.pow_pos_nonneg; lia).
  pose proof (rneq_bounds m' (Zpos md * 2 ^ n)) as Hb. fold m1 in Hb.
  rewrite <- Z.div_div, <- Hq in Hb by lia.
  assert (Hqn : 0 <= q / 2 ^ n) by (apply Z.div_pos; lia).
  assert (Hstage : 2 ^ 52 <= m1 <= 2 ^ 53 \/ (e1 = -1074 /\ 0 <= m1 <= 2 ^ 52)).
  { destruct (Z_le_gt_dec (-1074) (digits q + e' - 53)) as [Hnorm | Hsub].
    - left.
      assert (En : n = digits q - 53) by (unfold n; lia).
      assert (Hqpos : 0 < q).
      { destruct (Z.eq_dec q 0) as [E0 | ?]; [| lia].
        rewrite E0 in En. change (digits 0) with 0 in En. lia. }
      assert (Htop : 2 ^ 52 <= q / 2 ^ n < 2 ^ 53).
      { destruct (Z.eq_dec (digits q) 53) as [E53 | N53].
        - rewrite En, E53. change (2 ^ (53 - 53)) with 1. rewrite Z.div_1_r.
          pose proof (digits_spec q Hqpos) as Hsp. rewrite E53 in Hsp. exact Hsp.
        - rewrite En. apply top_bits; lia. }
      lia.
    - right. split; [unfold n in He1; lia |]. split; [lia |].
      assert (q / 2 ^ n < 2 ^ 52); [| lia].
      apply Z.div_lt_upper_bound; [lia |].
      rewrite <- Z.pow_add_r by lia.
      destruct (Z.eq_dec q 0) as [E0 | N0].
      + rewrite E0. apply Z.pow_pos_nonneg; lia.
      + pose proof (digits_spec q ltac:(lia)) as [_ Hhq].
        assert (2 ^ digits q <= 2 ^ (n + 52))
          by (apply Z.pow_le_mono_r; unfold n; lia).
        lia. }
  assert (He1b : -1074 <= e1) by (unfold n in He1; lia).
  destruct (shr_fexp_exact m1 e1 He1b Hstage)
    as (mrs & e & Hsf & Hm0 & Hee & Hval & _).
  rewrite Hsf. cbv beta iota.
  (* the value in units *)
  assert (Hv : v = m1 * 2 ^ (e1 + 1074)).
  { unfold v.
    replace (Zpos ma * 2 ^ (ea + 2148))
      with (m' * 2 ^ ((ed + 1074) + (e' + 1074))).
    2:{ rewrite Hm', <- Z.mul_assoc, <- Z.pow_add_r by lia.
        f_equal. f_equal. unfold s. lia. }
    assert (Hor : 0 < m' / Zpos md \/ e' + 1074 <= 0).
    { rewrite <- Hq. destruct Hcase as [? | Hbig]; [right; lia | left; lia]. }
    pose proof (round_quotient_shape m' (Zpos md) (ed + 1074) (e' + 1074)
                  ltac:(lia) ltac:(lia) ltac:(lia) ltac:(lia) Hor) as Hshape.
    cbv zeta in Hshape. rewrite <- Hq in Hshape.
    replace (Z.max (digits q + (e' + 1074) - 53) 0 - (e' + 1074)) with n
      in Hshape by (unfold n; lia).
    rewrite (Hshape Hn). fold m1. f_equal. f_equal. lia. }
  exists mrs, e. change (emax - prec) with 971.
  split; [reflexivity |]. split; [exact Hm0 |]. split; [lia |].
  rewrite Hv, <- Hval, <- Z.mul_assoc, <- Z.pow_add_r by lia.
  f_equal. f_equal. lia.
Qed.

End Division.

(* ================================================================== *)
(** * The scaling keeps the order of the magnitudes                    *)
(* ================================================================== *)

Module Monotone.

Import Rounding Quotients Division UnitRange ScaleFloats.
Local Open Scope Z_scope.

(** The quotient of a non-negative number by a larger one is the rounding
    of the exact quotient. *)
Lemma SFdiv_units (x d : spec_float) :
  valid_binary x = true -> valid_binary d = true -> nnf x -> nnf d ->
  units x < units d ->
  nnf (SF64div x d) /\
  units (SF64div x d) = round_quotient (units x * 2 ^ 1074) (units d).
Proof.
  intros Vx Vd Nx Nd Hlt.
  pose proof (units_nonneg x) as Hx0.
  destruct d as [sd | sd | | [|] md ed]; try contradiction;
    [cbn [units] in Hlt; lia |].
  pose proof (valid_finite _ _ _ Vd) as (Hed & _).
  pose proof (units_positive false md ed ltac:(lia)) as Hdpos.
  destruct x as [sx | sx | | [|] mx ex]; try contradiction.
  - cbn [SF64div SFdiv units]. rewrite Z.mul_0_l.
    rewrite round_quotient_zero by exact Hdpos. split; [exact I | reflexivity].
  - pose proof (valid_finite _ _ _ Vx) as (Hex & _).
    pose proof (SFdiv_below_one mx md ex ed ltac:(lia) ltac:(lia) Hlt) as Hbelow.
    pose proof (SFdiv_round mx md ex ed Vx Vd) as Hround.
    cbv zeta in Hbelow, Hround.
    assert (Hnum : units (S754_finite false mx ex) * 2 ^ 1074
                   = Zpos mx * 2 ^ (ex + 2148)).
    { unfold units. rewrite <- Z.mul_assoc, <- Z.pow_add_r by lia.
      f_equal. f_equal. lia. }
    rewrite Hnum. change (units (S754_finite false md ed))
      with (Zpos md * 2 ^ (ed + 1074)).
    destruct Hround as [[Er Hv] | (m & e & Er & He & Hv)].
    + rewrite Er, Hv. split; [exact I | reflexivity].
    + destruct (Z.leb_spec e 971) as [Hle | Hgt].
      * rewrite Er. split; [exact I |]. exact Hv.
      * exfalso. rewrite Er in Hbelow.
        destruct Hbelow as [Hb | (m0 & e0 & Hb & _)]; discriminate.
Qed.

(** Division by a larger positive number is monotone in the numerator. *)
Lemma div_mono (a1 a2 d : float) :
  nonneg a1 -> nonneg a2 -> nonneg d ->
  funits a1 <= funits a2 -> funits a2 < funits d ->
  nonneg (a1 / d) /\ nonneg (a2 / d) /\ funits (a1 / d) <= funits (a2 / d).
Proof.
  intros N1 N2 Nd Hle Hlt.
  pose proof (units_nonneg (Prim2SF a1)) as H0. fold (funits a1) in H0.
  unfold nonneg, funits in *. rewrite !div_spec.
  destruct (SFdiv_units _ _ (Prim2SF_valid a1) (Prim2SF_valid d) N1 Nd ltac:(lia))
    as [Nq1 ->].
  destruct (SFdiv_units _ _ (Prim2SF_valid a2) (Prim2SF_valid d) N2 Nd Hlt)
    as [Nq2 ->].
  split; [exact Nq1 |]. split; [exact Nq2 |].
  assert (Hp : 0 < 2 ^ 1074) by (apply Z.pow_pos_nonneg; lia).
  apply round_quotient_mono; [lia | | ].
  - apply Z.mul_nonneg_nonneg; lia.
  - apply Z.mul_le_mono_nonneg_r; lia.
Qed.

(** Equal positive numbers have the quotient one. *)
Lemma div_equal_units (a d : float) :
  nonneg a -> nonneg d -> funits a = funits d -> 0 < funits d ->
  nonneg (a / d) /\ funits (a / d) = 2 ^ 1074.
Proof.
  intros Na Nd Heq Hpos.
  destruct (funits_positive _ Nd Hpos) as (md & ed & Ed & Hed).
  rewrite <- Heq in Hpos.
  destruct (funits_positive _ Na Hpos) as (ma & ea & Ea & Hea).
  pose proof (compare_funits _ _ Na Nd) as Hc.
  rewrite Heq, Z.compare_refl, Ea, Ed in Hc. unfold SFcompare in Hc.
  injection Hc as Hc.
  destruct (Z.compare_spec ea ed); try discriminate.
  change (Pos.compare_cont Eq ma md) with (Pos.compare ma md) in Hc.
  apply Pos.compare_eq in Hc. subst.
  unfold nonneg, funits. rewrite div_spec, Ea, Ed, SFdiv_self.
  split; [exact I | reflexivity].
Qed.

Section Order.

Variable L : libm.
Let N64 : Numpy float := float64 L.

(** X13: under the conditions of the unit range the scaling never inverts the
    order of two magnitudes: of two cells, the one with the smaller
    compressed magnitude gets the smaller or an equal scaled value. *)
Theorem scale_spectrogram_monotone
        (X : ndarray (complex float)) (M m : float) :
  @amax float N64 (@compressed float N64 X) = Ok M ->
  @amin float N64 (@compressed float N64 X) = Ok m ->
  PrimFloat.is_finite M = true ->
  PrimFloat.eqb M m = false ->
  exists out ph,
    @scale_spectrogram float N64 X = Ok (out, ph) /\
    flat out = map (fun u => ((u - m) / (M - m))%float)
                   (flat (@compressed float N64 X)) /\
    forall u1 u2,
      In u1 (flat (@compressed float N64 X)) ->
      In u2 (flat (@compressed float N64 X)) ->
      PrimFloat.leb u1 u2 = true ->
      PrimFloat.leb ((u1 - m) / (M - m)) ((u2 - m) / (M - m)) = true.
Proof.
  intros HM Hm FM Hne.
  assert (HnM : PrimFloat.is_nan M = false).
  { unfold PrimFloat.is_finite in FM. rewrite negb_true_iff, orb_false_iff in FM. tauto. }
  destruct (compressed_extrema L X M m HM Hm HnM) as (HinM & Hinm & Hnm & Hall).
  rewrite scale_spectrogram_unfold, HM, Hm. cbn [bind].
  eexists _, _. split; [reflexivity |].
  split; [apply flat_amap |].
  assert (Hnn : forall u, In u (flat (@compressed float N64 X)) -> nonneg u).
  { intros u Hu. destruct (Hall u Hu) as (_ & HuM & Hw).
    apply (is_finite_nonneg u M); auto. }
  pose proof (Hnn M HinM) as NM. pose proof (Hnn m Hinm) as Nm.
  assert (Hlt : funits m < funits M).
  { destruct (Hall M HinM) as (HmM & _ & _).
    pose proof (proj1 (leb_funits m M Nm NM) HmM) as Hle.
    destruct (Z.eq_dec (funits m) (funits M)) as [E | ?]; [| lia].
    symmetry in E. apply (eqb_funits M m NM Nm) in E. congruence. }
  intros u1 u2 Hu1 Hu2 Hle.
  pose proof (Hnn u1 Hu1) as N1. pose proof (Hnn u2 Hu2) as N2.
  destruct (Hall u1 Hu1) as (Hm1 & H1M & _).
  destruct (Hall u2 Hu2) as (Hm2 & H2M & _).
  apply (leb_funits _ _ Nm N1) in Hm1. apply (leb_funits _ _ N1 NM) in H1M.
  apply (leb_funits _ _ Nm N2) in Hm2. apply (leb_funits _ _ N2 NM) in H2M.
  apply (leb_funits _ _ N1 N2) in Hle.
  destruct (sub_funits u1 m N1 Nm Hm1) as [Na1 _].
  destruct (sub_funits u2 m N2 Nm Hm2) as [Na2 _].
  destruct (sub_funits M m NM Nm ltac:(lia)) as [Nd _].
  assert (Ha12 : funits (u1 - m) <= funits (u2 - m)).
  { unfold funits. rewrite !sub_spec. apply SFsub_mono; auto using Prim2SF_valid. }
  assert (Ha2d : funits (u2 - m) <= funits (M - m)).
  { unfold funits. rewrite !sub_spec. apply SFsub_mono; auto using Prim2SF_valid. }
  assert (Hdpos : 0 < funits (M - m)).
  { unfold funits. rewrite sub_spec. apply SFsub_positive; auto using Prim2SF_valid. }
  destruct (Z.eq_dec (funits (u2 - m)) (funits (M - m))) as [Eq | Neq].
  - destruct (div_equal_units _ _ Na2 Nd Eq Hdpos) as [Nq2 Hq2].
    destruct (scaled_cell m u1 M Nm N1 NM Hm1 H1M Hlt) as (Nq1 & Bq1 & _).
    cbv zeta in Nq1, Bq1.
    apply (leb_funits _ _ Nq1 Nq2). lia.
  - destruct (div_mono (u1 - m) (u2 - m) (M - m) Na1 Na2 Nd Ha12 ltac:(lia))
      as (Nq1 & Nq2 & Hq).
    apply (leb_funits _ _ Nq1 Nq2). exact Hq.
Qed.

End Order.

End Monotone.

Module MonotoneFacts.

Import Examples.

Lemma scale_spectrogram_monotone_witness :
  exists out ph,
    @scale_spectrogram float (float64 axis_libm) one_two_three = Ok (out, ph) /\
    flat out = map (fun u => ((u - 1) / (PrimFloat.sqrt 3 - 1))%float)
                   (flat (@compressed float (float64 axis_libm) one_two_three)) /\
    forall u1 u2,
      In u1 (flat (@compressed float (float64 axis_libm) one_two_three)) ->
      In u2 (flat (@compressed float (float64 axis_libm) one_two_three)) ->
      PrimFloat.leb u1 u2 = true ->
      PrimFloat.leb ((u1 - 1) / (PrimFloat.sqrt 3 - 1))
                    ((u2 - 1) / (PrimFloat.sqrt 3 - 1)) = true.
Proof.
  apply (Monotone.scale_spectrogram_monotone axis_libm one_two_three
           (PrimFloat.sqrt 3) 1%float); reflexivity.
Defined.

End MonotoneFacts.

(* ================================================================== *)
(** * Scaling by a power of four                                       *)
(* ================================================================== *)

Module Scaling.

Import Rounding Quotients Division UnitRange Monotone.
Local Open Scope Z_scope.

(** ** Numbers of the format with the same value *)

Lemma units_inj (m1 m2 : positive) (e1 e2 : Z) :
  valid_binary (S754_finite false m1 e1) = true ->
  valid_binary (S754_finite false m2 e2) = true ->
  Zpos m1 * 2 ^ (e1 + 1074) = Zpos m2 * 2 ^ (e2 + 1074) ->
  S754_finite false m1 e1 = S754_finite false m2 e2.
Proof.
  intros V1 V2 H.
  pose proof (units_compare_finite m1 m2 e1 e2 V1 V2) as Hc.
  rewrite H, Z.compare_refl in Hc.
  destruct (Z.compare_spec e1 e2) as [-> | ? | ?]; try discriminate.
  change (Pos.compare_cont Eq m1 m2) with (Pos.compare m1 m2) in Hc.
  apply Pos.compare_eq in Hc. now subst.
Qed.


Lemma SFscaled_same (x y : spec_float) :
  valid_binary x = true -> valid_binary y = true -> SFscaled 0 x y -> x = y.
Proof.
  intros Vx Vy.
  destruct x as [s | s | | [|] m e]; destruct y as [s' | s' | | [|] m' e'];
    cbn [SFscaled]; try contradiction.
  - now intros ->.
  - intros H. rewrite Z.pow_0_r, Z.mul_1_r in H. symmetry.
    apply units_inj; auto.
Qed.

(** ** The square root *)








(** ** Subtraction and division *)






(** ** Scaled floats *)









(** ** Lists of rows *)







Section Invariance.

Variable L : libm.
Let N64 : Numpy float := float64 L.



End Invariance.

End Scaling.

Module ScalingFacts.

Import Examples.


End ScalingFacts.
